(** * go-bashly: command tree model, argument resolver and validator

    A shallow embedding of [internal/commandmodel/tree.go] and of the
    [runtime] package (argument resolver and validator), with the
    properties of the design document proved or refuted on it.

    Go strings are byte sequences: they are modelled by [string], whose
    characters ([ascii]) are the bytes.  A Go [map[string]string] is a
    [gmap string string]; reading an absent key gives the empty string. *)

From Stdlib Require Import ZArith Ascii String.
From stdpp Require Import gmap strings list pretty.

Open Scope string_scope.
Open Scope list_scope.

(** ** The parts of Go's [strings] package the program calls *)

Module strings.

(** [strings.HasPrefix(s, prefix)]. *)
Definition HasPrefix (s prefix : string) : bool := String.prefix prefix s.

(** [s[n:]] for [n <= len(s)]. *)
Fixpoint drop (n : nat) (s : string) : string :=
  match n, s with
  | O, _ => s
  | S _, EmptyString => EmptyString
  | S n', String _ s' => drop n' s'
  end.

(** [s[:n]] for [n <= len(s)]. *)
Fixpoint take (n : nat) (s : string) : string :=
  match n, s with
  | O, _ => EmptyString
  | S _, EmptyString => EmptyString
  | S n', String c s' => String c (take n' s')
  end.

(** [strings.HasSuffix(s, suffix)]:
    [len(s) >= len(suffix) && s[len(s)-len(suffix):] == suffix]. *)
Definition HasSuffix (s suffix : string) : bool :=
  (String.length suffix <=? String.length s)%nat
  && String.eqb (drop (String.length s - String.length suffix) s) suffix.

(** [strings.TrimSuffix(s, suffix)]. *)
Definition TrimSuffix (s suffix : string) : string :=
  if HasSuffix s suffix
  then take (String.length s - String.length suffix) s
  else s.

(** [strings.Index(s, substr)]: the index of the first occurrence, [None]
    for Go's [-1]. *)
Fixpoint Index (s substr : string) : option nat :=
  if HasPrefix s substr then Some O
  else match s with
       | EmptyString => None
       | String _ s' => S <$> Index s' substr
       end.

(** [strings.Contains(s, substr)] is [Index(s, substr) >= 0]. *)
Definition Contains (s substr : string) : bool :=
  match Index s substr with Some _ => true | None => false end.

(** [strings.SplitN(s, sep, n)] for [n >= 0] and a non-empty [sep]: at
    most [n] pieces, the last one being the unsplit rest. *)
Fixpoint SplitN (s sep : string) (n : nat) : list string :=
  match n with
  | O => []
  | S O => [s]
  | S n' =>
      match Index s sep with
      | None => [s]
      | Some m => take m s :: SplitN (drop (m + String.length sep) s) sep n'
      end
  end.

(** [strings.Split(s, sep)] for a non-empty [sep]: every piece.  There
    are at most [len(s)] separators, so [len(s) + 1] pieces suffice. *)
Definition Split (s sep : string) : list string :=
  SplitN s sep (S (String.length s)).

(** [strings.Join(elems, sep)]. *)
Definition Join (elems : list string) (sep : string) : string :=
  String.concat sep elems.

End strings.

(** ** The escapes [\n] and [\t] of Go string literals *)

Definition LF : string := String "010" EmptyString.
Definition TAB : string := String "009" EmptyString.

(** ** Results of Go functions *)

(** Go's [(T, error)], the error carried as its message. *)
Inductive result (A : Type) : Type :=
| Ok (a : A)
| Err (msg : string).
Arguments Ok {A} a.
Arguments Err {A} msg.

(** A call either returns or panics (here: on a nil pointer). *)
Inductive outcome (A : Type) : Type :=
| Returns (a : A)
| Panics.
Arguments Returns {A} a.
Arguments Panics {A}.

(** ** Package [unicode/utf8], as used by [range] over a string and by
    the conversion [string(rune)] *)

Module utf8.
#[local] Open Scope Z_scope.

Definition RuneError : Z := 0xFFFD.

Definition byte (c : ascii) : Z := Z.of_N (N_of_ascii c).
Definition char (b : Z) : ascii := ascii_of_N (Z.to_N b).

Definition between (lo hi b : Z) : bool := (lo <=? b) && (b <=? hi).

(** Continuation bytes are [0x80..0xBF]. *)
Definition cont (b : Z) : bool := between 0x80 0xBF b.

(** The table [first] together with [acceptRanges]: for a leading byte,
    the length of the sequence and the range allowed for the second
    byte; [None] for ASCII and for invalid leading bytes. *)
Definition first (p0 : Z) : option (nat * (Z * Z)) :=
  if between 0xC2 0xDF p0 then Some (2%nat, (0x80, 0xBF))
  else if (p0 =? 0xE0) then Some (3%nat, (0xA0, 0xBF))
  else if between 0xE1 0xEC p0 then Some (3%nat, (0x80, 0xBF))
  else if (p0 =? 0xED) then Some (3%nat, (0x80, 0x9F))
  else if between 0xEE 0xEF p0 then Some (3%nat, (0x80, 0xBF))
  else if (p0 =? 0xF0) then Some (4%nat, (0x90, 0xBF))
  else if between 0xF1 0xF3 p0 then Some (4%nat, (0x80, 0xBF))
  else if (p0 =? 0xF4) then Some (4%nat, (0x80, 0x8F))
  else None.

(** [utf8.DecodeRuneInString(s)]: the rune and its width in bytes. *)
Definition DecodeRuneInString (s : string) : Z * nat :=
  match s with
  | EmptyString => (RuneError, 0%nat)
  | String c0 s1 =>
      let p0 := byte c0 in
      match first p0 with
      | None => (if p0 <? 0x80 then p0 else RuneError, 1%nat)
      | Some (sz, (lo, hi)) =>
          match s1 with
          | EmptyString => (RuneError, 1%nat)
          | String c1 s2 =>
              let b1 := byte c1 in
              if negb (between lo hi b1) then (RuneError, 1%nat)
              else if (sz <=? 2)%nat then
                (Z.lor (Z.shiftl (Z.land p0 0x1F) 6) (Z.land b1 0x3F), 2%nat)
              else
                match s2 with
                | EmptyString => (RuneError, 1%nat)
                | String c2 s3 =>
                    let b2 := byte c2 in
                    if negb (cont b2) then (RuneError, 1%nat)
                    else if (sz <=? 3)%nat then
                      (Z.lor (Z.shiftl (Z.land p0 0x0F) 12)
                         (Z.lor (Z.shiftl (Z.land b1 0x3F) 6) (Z.land b2 0x3F)), 3%nat)
                    else
                      match s3 with
                      | EmptyString => (RuneError, 1%nat)
                      | String c3 _ =>
                          let b3 := byte c3 in
                          if negb (cont b3) then (RuneError, 1%nat)
                          else
                            (Z.lor (Z.shiftl (Z.land p0 0x07) 18)
                               (Z.lor (Z.shiftl (Z.land b1 0x3F) 12)
                                  (Z.lor (Z.shiftl (Z.land b2 0x3F) 6)
                                     (Z.land b3 0x3F))), 4%nat)
                      end
                end
          end
      end
  end.

(** [for _, ch := range s]: the runes in order.  [skip] counts the bytes
    of the current rune that are still to be passed over. *)
Fixpoint rangeFrom (skip : nat) (s : string) : list Z :=
  match s with
  | EmptyString => []
  | String _ s' =>
      match skip with
      | S k => rangeFrom k s'
      | O =>
          let '(r, size) := DecodeRuneInString s in
          r :: rangeFrom (size - 1)%nat s'
      end
  end.

Definition range (s : string) : list Z := rangeFrom 0%nat s.

Definition bytes (l : list Z) : string :=
  fold_right (fun b s => String (char b) s) EmptyString l.

(** [string(r)]: the UTF-8 encoding of [r], of [RuneError] when [r] is
    not a valid code point. *)
Definition string_of_rune (r : Z) : string :=
  if between 0 0x7F r then bytes [r]
  else if between 0x80 0x7FF r then
    bytes [Z.lor 0xC0 (Z.shiftr r 6); Z.lor 0x80 (Z.land r 0x3F)]
  else if (r <? 0) || (0x10FFFF <? r) || between 0xD800 0xDFFF r then
    bytes [0xEF; 0xBF; 0xBD]
  else if (r <=? 0xFFFF) then
    bytes [Z.lor 0xE0 (Z.shiftr r 12);
           Z.lor 0x80 (Z.land (Z.shiftr r 6) 0x3F);
           Z.lor 0x80 (Z.land r 0x3F)]
  else
    bytes [Z.lor 0xF0 (Z.shiftr r 18);
           Z.lor 0x80 (Z.land (Z.shiftr r 12) 0x3F);
           Z.lor 0x80 (Z.land (Z.shiftr r 6) 0x3F);
           Z.lor 0x80 (Z.land r 0x3F)].

End utf8.

(** ** Package [settings] *)

Module settings.

(** The two fields of [settings.Settings] that the command model reads;
    the other fields of the struct are never consulted by the code below. *)
Record Settings : Type := mkSettings {
  CommandsDir : string;        (* empty means nil (~) *)
  PartialsExtension : string
}.

End settings.

(** ** Library functions kept abstract

    [resolveFilename] calls into [path/filepath] and into the
    Unicode-aware part of [strings]; in the command model their results
    only ever reach the [Filename] field.  The formatting pipeline uses
    [strings.TrimSpace] to tell blank lines and [strings.ReplaceAll] for
    tab indentation. *)

Class PathLib : Type := {
  filepath_Join : string -> string -> string;
  filepath_FromSlash : string -> string;
  strings_ReplaceAll : string -> string -> string -> string;
  strings_TrimSpace : string -> string;
  strings_ToLower : string -> string
}.

(** ** Package [commandmodel] *)

#[local] Set Warnings "-register-all".

Module commandmodel.
Import settings.

(** Go's [any] as produced by the YAML loader.  [VMap] lists the
    bindings of a [map[string]any]; reading a key takes its first
    binding, so every association list denotes one Go map. *)
Inductive any : Type :=
| VNil
| VString (s : string)
| VBool (b : bool)
| VInt (z : Z)
| VList (l : list any)
| VMap (m : list (string * any)).

(** [v, ok := m[k]]. *)
Fixpoint lookup_key (m : list (string * any)) (k : string) : option any :=
  match m with
  | [] => None
  | (k', v) :: m' => if String.eqb k' k then Some v else lookup_key m' k
  end.

(** [m[k]]: the zero value [nil] when the key is absent. *)
Definition index_key (m : list (string * any)) (k : string) : any :=
  match lookup_key m k with Some v => v | None => VNil end.

(** [if v, ok := m[k]; ok { present v } else { absent }], written so that
    [present] receives a structural part of [m]. *)
Definition with_key {A : Type} (m : list (string * any)) (k : string)
    (absent : A) (present : any -> A) : A :=
  (fix go (m : list (string * any)) : A :=
     match m with
     | [] => absent
     | (k', v) :: m' => if String.eqb k' k then present v else go m'
     end) m.

Definition asString (v : any) : string * bool :=
  match v with
  | VString s => (s, true)
  | _ => ("", false)
  end.

Definition asBool (v : any) : bool * bool :=
  match v with
  | VBool b => (b, true)
  | _ => (false, false)
  end.

Record Flag : Type := mkFlag {
  Flag_Long : string;
  Flag_Short : string;
  Flag_Required : bool;
  Flag_Allowed : list string;
  Flag_Private : bool
}.

Record Arg : Type := mkArg {
  Arg_Name : string;
  Arg_Required : bool
}.

Record EnvVar : Type := mkEnvVar {
  EnvVar_Name : string;
  EnvVar_Private : bool
}.

(** The [for _, a := range arr] loop of [parseFlags] that collects the
    string members of [allowed]. *)
Fixpoint allowedStrings (arr : list any) : list string :=
  match arr with
  | [] => []
  | VString s :: arr' => s :: allowedStrings arr'
  | _ :: arr' => allowedStrings arr'
  end.

(** One iteration of the loop of [parseFlags]: [None] is [continue]. *)
Definition parseFlag (raw : any) : option Flag :=
  match raw with
  | VMap m =>
      let lng := fst (asString (index_key m "long")) in
      let shrt := fst (asString (index_key m "short")) in
      let req := fst (asBool (index_key m "required")) in
      let priv := fst (asBool (index_key m "private")) in
      let allowed :=
        match lookup_key m "allowed" with
        | Some (VList arr) => allowedStrings arr
        | _ => []
        end in
      Some (mkFlag lng shrt req allowed priv)
  | _ => None
  end.

(** The [for _, raw := range list] loops of the three parsers: [out]
    grows by one element for every iteration that does not [continue]. *)
Fixpoint collect {A : Type} (entry : any -> option A) (l : list any) : list A :=
  match l with
  | [] => []
  | raw :: l' =>
      match entry raw with
      | Some x => x :: collect entry l'
      | None => collect entry l'
      end
  end.

Definition parseFlags (v : any) : list Flag :=
  match v with
  | VList l => collect parseFlag l
  | _ => []
  end.

Definition parseArg (raw : any) : option Arg :=
  match raw with
  | VMap m =>
      let name := fst (asString (index_key m "name")) in
      if String.eqb name "" then None
      else Some (mkArg name (fst (asBool (index_key m "required"))))
  | _ => None
  end.

Definition parseArgs (v : any) : list Arg :=
  match v with
  | VList l => collect parseArg l
  | _ => []
  end.

Definition parseEnvVar (raw : any) : option EnvVar :=
  match raw with
  | VMap m =>
      let name := fst (asString (index_key m "name")) in
      if String.eqb name "" then None
      else Some (mkEnvVar name (fst (asBool (index_key m "private"))))
  | _ => None
  end.

Definition parseEnvVars (v : any) : list EnvVar :=
  match v with
  | VList l => collect parseEnvVar l
  | _ => []
  end.

(** [Commands] holds the children themselves: the builder never stores
    a nil pointer in the slice. *)
Inductive Command : Type := mkCommand {
  Command_Name : string;
  Command_Parents : list string;
  Command_FullName : string;
  Command_ActionName : string;
  Command_Private : bool;
  Command_Expose : string;
  Command_Alias : list string;
  Command_Filename : string;
  Command_Description : string;
  Command_Args : list Arg;
  Command_Flags : list Flag;
  Command_EnvVars : list EnvVar;
  Command_Commands : list Command
}.

(** [c.Commands = children]. *)
Definition set_Commands (c : Command) (children : list Command) : Command :=
  mkCommand (Command_Name c) (Command_Parents c) (Command_FullName c)
    (Command_ActionName c) (Command_Private c) (Command_Expose c)
    (Command_Alias c) (Command_Filename c) (Command_Description c)
    (Command_Args c) (Command_Flags c) (Command_EnvVars c) children.

Fixpoint deepCommandsFrom (c : Command) : list Command :=
  c :: (fix children (l : list Command) : list Command :=
          match l with
          | [] => []
          | child :: l' => deepCommandsFrom child ++ children l'
          end) (Command_Commands c).

Definition DeepCommands (root : Command) (includeSelf : bool) : list Command :=
  (if includeSelf then [root] else [])
  ++ flat_map deepCommandsFrom (Command_Commands root).

Definition computeActionName (parents : list string) (name : string) : string :=
  match parents with
  | [] => "root"
  | [_] => name
  | _ :: rest => strings.Join (rest ++ [name]) " "
  end.

(** The [[]any] case of [normalizeAlias]. *)
Fixpoint aliasStrings (t : list any) : list string :=
  match t with
  | [] => []
  | VString s :: t' =>
      if String.eqb s "" then aliasStrings t' else s :: aliasStrings t'
  | _ :: t' => aliasStrings t'
  end.

Definition normalizeAlias (v : any) (name : string) : list string :=
  let alts :=
    match v with
    | VString t => if String.eqb t "" then [] else [t]
    | VList t => aliasStrings t
    | _ => []
    end in
  name :: alts.

(** [fmt.Sprintf("%d", i)] for a slice index. *)
Definition itoa (i : nat) : string := pretty i.

(** The body of [for i, raw := range list] in [buildChildren], from index
    [i] on: [step] handles one entry, the first error ends the loop. *)
Definition eachChild (step : nat -> any -> result Command)
    : nat -> list any -> result (list Command) :=
  fix loop (i : nat) (l : list any) {struct l} : result (list Command) :=
    match l with
    | [] => Ok []
    | raw :: l' =>
        match step i raw with
        | Err e => Err e
        | Ok cmd =>
            match loop (S i) l' with
            | Err e => Err e
            | Ok out => Ok (cmd :: out)
            end
        end
    end.

Section builder.
Context `{PathLib}.

Definition underscore (s : string) : string :=
  let s := strings_TrimSpace s in
  let s := strings_ReplaceAll s "-" "_" in
  let s := strings_ReplaceAll s "/" "_" in
  strings_ToLower s.

Definition extension (st : Settings) : string :=
  if String.eqb (PartialsExtension st) "" then "sh" else PartialsExtension st.

Definition resolveFilename (opts : list (string * any)) (parents : list string)
    (name : string) (st : Settings) : string :=
  let '(s, ok) := asString (index_key opts "filename") in
  if ok && negb (String.eqb s "") then s
  else
    let action := computeActionName parents name in
    let ext := extension st in
    if negb (String.eqb (CommandsDir st) "") then
      filepath_Join (CommandsDir st)
        (filepath_FromSlash (strings_ReplaceAll action " " "/") +:+ "." +:+ ext)
    else
      underscore (strings_ReplaceAll action " " "_") +:+ "_command." +:+ ext.

(** The struct literal [cmd := &Command{...}] of [buildChildren] with
    the three assignments that follow it; [Commands] is still empty. *)
Definition childCommand (opts : list (string * any)) (parent : Command)
    (name : string) (st : Settings) : Command :=
  let parents := Command_Parents parent ++ [Command_Name parent] in
  let privateVal := fst (asBool (index_key opts "private")) in
  let expose := fst (asString (index_key opts "expose")) in
  let desc := fst (asString (index_key opts "description")) in
  mkCommand name parents
    (strings.Join (parents ++ [name]) " ")
    (computeActionName parents name)
    privateVal expose
    (normalizeAlias (index_key opts "alias") name)
    (resolveFilename opts parents name st)
    desc
    (parseArgs (index_key opts "args"))
    (parseFlags (index_key opts "flags"))
    (parseEnvVars (index_key opts "environment_variables"))
    [].

(** One iteration of the loop of [buildChildren] on the entry [raw] at
    index [i]; the recursive call on the entry's own [commands] is
    [buildChildren subList cmd st]. *)
Fixpoint buildChild (st : Settings) (parent : Command) (i : nat) (raw : any)
    {struct raw} : result Command :=
  match raw with
  | VMap opts =>
      let name := fst (asString (index_key opts "name")) in
      if String.eqb name "" then
        Err ("commands[" +:+ itoa i +:+ "].name is required")
      else
        let cmd := childCommand opts parent name st in
        with_key opts "commands" (Ok cmd)
          (fun sub =>
             match sub with
             | VList subList =>
                 match eachChild (buildChild st cmd) 0 subList with
                 | Err e => Err e
                 | Ok children => Ok (set_Commands cmd children)
                 end
             | _ => Err (Command_FullName cmd +:+ ".commands must be a list")
             end)
  | _ => Err ("commands[" +:+ itoa i +:+ "] must be a mapping")
  end.

Definition buildChildren (items : list any) (parent : Command) (st : Settings)
    : result (list Command) :=
  eachChild (buildChild st parent) 0 items.

Definition BuildFromConfigMap (cfg : list (string * any)) (st : Settings)
    : result Command :=
  let name := fst (asString (index_key cfg "name")) in
  let name := if String.eqb name "" then "root" else name in
  let ext := extension st in
  let filename :=
    if negb (String.eqb (CommandsDir st) "") then
      filepath_Join (CommandsDir st) ("root." +:+ ext)
    else "root_command." +:+ ext in
  let root :=
    mkCommand name [] name "root" false "" [] filename
      (fst (asString (index_key cfg "description")))
      (parseArgs (index_key cfg "args"))
      (parseFlags (index_key cfg "flags"))
      (parseEnvVars (index_key cfg "environment_variables"))
      [] in
  match lookup_key cfg "commands" with
  | Some cmds =>
      match cmds with
      | VList items =>
          match buildChildren items root st with
          | Err e => Err e
          | Ok children => Ok (set_Commands root children)
          end
      | _ => Err "config.commands must be a list"
      end
  | None => Ok root
  end.

End builder.

Record TreePrintOptions : Type := mkTreePrintOptions {
  ShowDetails : bool;
  RevealPrivate : bool
}.

(** The loop of [VisibleFlags]: private flags are passed over. *)
Fixpoint publicFlags (flags : list Flag) : list Flag :=
  match flags with
  | [] => []
  | f :: flags' => if Flag_Private f then publicFlags flags' else f :: publicFlags flags'
  end.

Definition VisibleFlags (c : Command) (revealPrivate : bool) : list Flag :=
  if revealPrivate then Command_Flags c else publicFlags (Command_Flags c).

(** The loop of [VisibleEnvVars]. *)
Fixpoint publicEnvVars (envVars : list EnvVar) : list EnvVar :=
  match envVars with
  | [] => []
  | ev :: envVars' =>
      if EnvVar_Private ev then publicEnvVars envVars' else ev :: publicEnvVars envVars'
  end.

Definition VisibleEnvVars (c : Command) (revealPrivate : bool) : list EnvVar :=
  if revealPrivate then Command_EnvVars c else publicEnvVars (Command_EnvVars c).

Definition formatDetails (c : Command) (opts : TreePrintOptions) : string :=
  let parts := [Command_Name c] in
  let parts :=
    if negb (String.eqb (Command_Filename c) "")
    then parts ++ ["[" +:+ Command_Filename c +:+ "]"] else parts in
  let parts := if Command_Private c then parts ++ ["(private)"] else parts in
  let parts :=
    if (1 <? length (Command_Alias c))%nat
    then parts ++ ["alias=" +:+ strings.Join (tl (Command_Alias c)) ","] else parts in
  let flagsCount := length (VisibleFlags c (RevealPrivate opts)) in
  let parts :=
    if (0 <? flagsCount)%nat then parts ++ ["flags=" +:+ itoa flagsCount] else parts in
  let envCount := length (VisibleEnvVars c (RevealPrivate opts)) in
  let parts :=
    if (0 <? envCount)%nat then parts ++ ["env=" +:+ itoa envCount] else parts in
  strings.Join parts " ".

(** [printTreeNode(w, c, prefix, isLast, opts)]: the strings written to
    [w], one per call of [fmt.Fprintf].  In the loop over the children,
    [i == len(c.Commands)-1] holds exactly when no child follows. *)
Fixpoint printTreeNode (opts : TreePrintOptions) (c : Command) (prefix : string)
    (isLast : bool) {struct c} : list string :=
  if Command_Private c && negb (RevealPrivate opts) then []
  else
    let connector := if isLast then "└─" else "├─" in
    let nextPrefix := if isLast then prefix +:+ "  " else prefix +:+ "│ " in
    let written :=
      if String.eqb prefix "" then
        let line := if ShowDetails opts then formatDetails c opts else Command_FullName c in
        line +:+ LF
      else
        let line := if ShowDetails opts then formatDetails c opts else Command_Name c in
        prefix +:+ connector +:+ " " +:+ line +:+ LF in
    written
    :: (fix children (l : list Command) : list string :=
          match l with
          | [] => []
          | child :: l' =>
              printTreeNode opts child nextPrefix
                (match l' with [] => true | _ :: _ => false end)
              ++ children l'
          end) (Command_Commands c).

Definition PrintTree (root : Command) (opts : TreePrintOptions) : list string :=
  printTreeNode opts root "" true.

End commandmodel.

(** ** Package [runtime]: argument resolver and validator *)

Module runtime.
Import commandmodel.

Record ParsedArgs : Type := mkParsedArgs {
  ParsedArgs_Command : option Command;      (* [*Command], [None] is nil *)
  ParsedArgs_Flags : gmap string string;    (* long/short flag -> value *)
  ParsedArgs_Positional : list string;
  ParsedArgs_Remaining : list string;
  ParsedArgs_HelpAsked : bool
}.

(** [contains]: string slice membership. *)
Fixpoint contains (slice : list string) (item : string) : bool :=
  match slice with
  | [] => false
  | s :: slice' => if String.eqb s item then true else contains slice' item
  end.

(** The inner loop of [findChild] over [child.Alias]: [true] is
    [return child]. *)
Fixpoint aliasMatches (aliases : list string) (name : string) : bool :=
  match aliases with
  | [] => false
  | alias :: aliases' =>
      if strings.HasPrefix alias "*" then
        let prefix := strings.TrimSuffix alias "*" in
        if strings.HasPrefix name prefix then true
        else aliasMatches aliases' name
      else if String.eqb alias name then true
      else aliasMatches aliases' name
  end.

(** The loop of [findChild] over [parent.Commands]. *)
Fixpoint findAmong (children : list Command) (name : string) : option Command :=
  match children with
  | [] => None
  | child :: children' =>
      if String.eqb (Command_Name child) name then Some child
      else if aliasMatches (Command_Alias child) name then Some child
      else findAmong children' name
  end.

Definition findChild (parent : Command) (name : string) : option Command :=
  findAmong (Command_Commands parent) name.

(** The loop of [resolveCommandPath]; [findChild] dereferences
    [current], which panics when it is nil. *)
Fixpoint resolveLoop (current : option Command) (remaining : list string)
    : outcome (option Command * list string) :=
  match remaining with
  | [] => Returns (current, remaining)
  | tok :: rest =>
      match current with
      | None => Panics
      | Some parent =>
          match findChild parent tok with
          | None => Returns (current, remaining)
          | Some next => resolveLoop (Some next) rest
          end
      end
  end.

Definition resolveCommandPath (root : option Command) (argv : list string)
    : outcome (option Command * list string) :=
  resolveLoop root argv.

(** [p.Flags[k] = v]. *)
Definition setFlag (p : ParsedArgs) (k v : string) : ParsedArgs :=
  mkParsedArgs (ParsedArgs_Command p) (<[k := v]> (ParsedArgs_Flags p))
    (ParsedArgs_Positional p) (ParsedArgs_Remaining p) (ParsedArgs_HelpAsked p).

(** [p.Positional = append(p.Positional, arg)]. *)
Definition addPositional (p : ParsedArgs) (arg : string) : ParsedArgs :=
  mkParsedArgs (ParsedArgs_Command p) (ParsedArgs_Flags p)
    (ParsedArgs_Positional p ++ [arg]) (ParsedArgs_Remaining p)
    (ParsedArgs_HelpAsked p).

(** [parts[i]] of a string slice; the empty string stands for the
    out-of-range case, which [SplitN_first_eq] below shows not to arise. *)
Definition at_index (parts : list string) (i : nat) : string :=
  nth i parts "".

(** Compact: [-abc => -a -b -c]. *)
Definition expandCompact (p : ParsedArgs) (arg : string) : ParsedArgs :=
  fold_left (fun p ch => setFlag p ("-" +:+ utf8.string_of_rune ch) "true")
    (utf8.range (strings.drop 1 arg)) p.

(** [parseFlagsAndArgs(p, args)]: the list is [args[i:]]; consuming the
    value of a flag advances by two. *)
Fixpoint parseFlagsAndArgs (p : ParsedArgs) (args : list string) : ParsedArgs :=
  match args with
  | [] => p
  | arg :: rest =>
      if strings.HasPrefix arg "--" then
        if strings.Contains arg "=" then
          let parts := strings.SplitN arg "=" 2 in
          parseFlagsAndArgs (setFlag p (at_index parts 0) (at_index parts 1)) rest
        else
          match rest with
          | next :: rest' =>
              if negb (strings.HasPrefix next "-") then
                parseFlagsAndArgs (setFlag p arg next) rest'
              else parseFlagsAndArgs (setFlag p arg "true") rest
          | [] => parseFlagsAndArgs (setFlag p arg "true") rest
          end
      else if strings.HasPrefix arg "-" && (1 <? String.length arg)%nat then
        if (String.length arg =? 2)%nat then
          match rest with
          | next :: rest' =>
              if negb (strings.HasPrefix next "-") then
                parseFlagsAndArgs (setFlag p arg next) rest'
              else parseFlagsAndArgs (setFlag p arg "true") rest
          | [] => parseFlagsAndArgs (setFlag p arg "true") rest
          end
        else parseFlagsAndArgs (expandCompact p arg) rest
      else parseFlagsAndArgs (addPositional p arg) rest
  end.

Definition ParseArgs (argv : list string) (root : option Command)
    (st : settings.Settings) : outcome (result ParsedArgs) :=
  let p := mkParsedArgs None ∅ [] [] false in
  if contains argv "--help" || contains argv "-h" then
    Returns (Ok (mkParsedArgs root (ParsedArgs_Flags p) (ParsedArgs_Positional p)
                   (ParsedArgs_Remaining p) true))
  else
    match resolveCommandPath root argv with
    | Panics => Panics
    | Returns (cmd, remaining) =>
        match cmd with
        | None => Returns (Err "unknown command")
        | Some _ =>
            let p := mkParsedArgs cmd (ParsedArgs_Flags p) (ParsedArgs_Positional p)
                       remaining (ParsedArgs_HelpAsked p) in
            Returns (Ok (parseFlagsAndArgs p remaining))
        end
    end.

Record ValidateResult : Type := mkValidateResult {
  Valid : bool;
  ErrorMsg : string;
  ExitCode : Z
}.

(** [parsed.Flags[k]]: the empty string when [k] is absent. *)
Definition flagAt (parsed : ParsedArgs) (k : string) : string :=
  default "" (ParsedArgs_Flags parsed !! k).

(** [value := parsed.Flags[flag.Long]; if value == "" { value =
    parsed.Flags[flag.Short] }]. *)
Definition flagValue (parsed : ParsedArgs) (flag : Flag) : string :=
  let value := flagAt parsed (Flag_Long flag) in
  if String.eqb value "" then flagAt parsed (Flag_Short flag) else value.

(** [name := flag.Long; if name == "" { name = flag.Short }]. *)
Definition flagLabel (flag : Flag) : string :=
  if String.eqb (Flag_Long flag) "" then Flag_Short flag else Flag_Long flag.

(** The three loops of [ValidateParsed]; [Some r] is [return r]. *)
Fixpoint checkRequiredArgs (args : list Arg) (parsed : ParsedArgs)
    : option ValidateResult :=
  match args with
  | [] => None
  | arg :: args' =>
      if Arg_Required arg && negb (contains (ParsedArgs_Positional parsed) (Arg_Name arg))
      then Some (mkValidateResult false ("missing required argument: " +:+ Arg_Name arg) 2)
      else checkRequiredArgs args' parsed
  end.

Fixpoint checkRequiredFlags (flags : list Flag) (parsed : ParsedArgs)
    : option ValidateResult :=
  match flags with
  | [] => None
  | flag :: flags' =>
      if Flag_Required flag && String.eqb (flagValue parsed flag) ""
      then Some (mkValidateResult false ("missing required flag: " +:+ flagLabel flag) 2)
      else checkRequiredFlags flags' parsed
  end.

Fixpoint checkAllowedValues (flags : list Flag) (parsed : ParsedArgs)
    : option ValidateResult :=
  match flags with
  | [] => None
  | flag :: flags' =>
      let value := flagValue parsed flag in
      if negb (String.eqb value "")
         && (0 <? length (Flag_Allowed flag))%nat
         && negb (contains (Flag_Allowed flag) value)
      then Some (mkValidateResult false
                   ("invalid value for " +:+ flagLabel flag +:+ ": " +:+ value) 2)
      else checkAllowedValues flags' parsed
  end.

Definition ValidateParsed (cmd : Command) (parsed : ParsedArgs) : ValidateResult :=
  match checkRequiredArgs (Command_Args cmd) parsed with
  | Some r => r
  | None =>
      match checkRequiredFlags (Command_Flags cmd) parsed with
      | Some r => r
      | None =>
          match checkAllowedValues (Command_Flags cmd) parsed with
          | Some r => r
          | None => mkValidateResult true "" 0
          end
      end
  end.

(** The three loops of [ValidateArgs]; [Some msg] is
    [return fmt.Errorf(...)]. *)
Fixpoint requiredArgsError (args : list Arg) (p : ParsedArgs) : option string :=
  match args with
  | [] => None
  | arg :: args' =>
      if Arg_Required arg && negb (contains (ParsedArgs_Positional p) (Arg_Name arg))
      then Some ("missing required argument: " +:+ Arg_Name arg)
      else requiredArgsError args' p
  end.

Fixpoint requiredFlagsError (flags : list Flag) (p : ParsedArgs) : option string :=
  match flags with
  | [] => None
  | flag :: flags' =>
      if Flag_Required flag && String.eqb (flagValue p flag) ""
      then Some ("missing required flag: " +:+ flagLabel flag)
      else requiredFlagsError flags' p
  end.

Fixpoint allowedValuesError (flags : list Flag) (p : ParsedArgs) : option string :=
  match flags with
  | [] => None
  | flag :: flags' =>
      let value := flagValue p flag in
      if negb (String.eqb value "")
         && (0 <? length (Flag_Allowed flag))%nat
         && negb (contains (Flag_Allowed flag) value)
      then Some ("invalid value for " +:+ flagLabel flag +:+ ": " +:+ value)
      else allowedValuesError flags' p
  end.

(** [ValidateArgs(p)]: [None] is the nil error; [p.Command] is
    dereferenced, which panics when it is nil. *)
Definition ValidateArgs (p : ParsedArgs) : outcome (option string) :=
  match ParsedArgs_Command p with
  | None => Panics
  | Some cmd =>
      Returns
        match requiredArgsError (Command_Args cmd) p with
        | Some e => Some e
        | None =>
            match requiredFlagsError (Command_Flags cmd) p with
            | Some e => Some e
            | None => allowedValuesError (Command_Flags cmd) p
            end
        end
  end.

End runtime.

(** ** Package [generate]: the formatting pipeline *)

Module generate.

Record FormatResult : Type := mkFormatResult {
  Formatted : string;
  Error : string
}.

Section formatting.
Context `{PathLib}.

(** Running the external formatter on the content: its standard output,
    or the error of [cmd.Run] together with what went to stderr. *)
Variable runFormatter : string -> string -> string + string * string.

(** The loop of [removeExcessNewlines] from the current line on. *)
Fixpoint collapseBlank (lines : list string) (prevBlank : bool) : list string :=
  match lines with
  | [] => []
  | line :: lines' =>
      let isBlank := String.eqb (strings_TrimSpace line) "" in
      if isBlank && prevBlank then collapseBlank lines' prevBlank
      else line :: collapseBlank lines' isBlank
  end.

Definition removeExcessNewlines (content : string) : string :=
  let lines := strings.Split content LF in
  strings.Join (collapseBlank lines false) LF.

Definition FormatScript (content formatter : string) (tabIndent : bool)
    : FormatResult :=
  let content := if tabIndent then strings_ReplaceAll content "  " TAB else content in
  if String.eqb formatter "internal" then
    mkFormatResult (removeExcessNewlines content) ""
  else if String.eqb formatter "none" then
    mkFormatResult content ""
  else
    match runFormatter formatter content with
    | inl out => mkFormatResult out ""
    | inr (err, stderr) =>
        mkFormatResult ""
          ("formatter failed: " +:+ err +:+ " (stderr: " +:+ stderr +:+ ")")
    end.

End formatting.

End generate.

(** ** Package [settings]: resolving the effective settings *)

Module settings_load.
Import commandmodel.

(** The whole struct [settings.Settings]. *)
Record Settings : Type := mkSettings {
  Env : string;
  SourceDir : string;
  ConfigPath : string;
  TargetDir : string;
  CommandsDir : string;
  LibDir : string;
  ExtraLibDirs : list string;
  PartialsExtension : string;
  TabIndent : bool;
  Formatter : string;
  EnableHeaderComment : string;
  EnableBash3Bouncer : string;
  EnableInspectArgs : string;
  EnableViewMarkers : string;
  EnableDepsArray : string;
  EnableEnvVarNamesArray : string;
  EnableSourcing : string;
  PrivateRevealKey : string
}.

(** The part of the settings that the command model reads. *)
Definition forCommands (s : Settings) : settings.Settings :=
  settings.mkSettings (CommandsDir s) (PartialsExtension s).

(** [s.F = v], one definition per field. *)
Definition set_Env (v : string) (s : Settings) : Settings :=
  mkSettings v (SourceDir s) (ConfigPath s) (TargetDir s) (CommandsDir s)
    (LibDir s) (ExtraLibDirs s) (PartialsExtension s) (TabIndent s) (Formatter
    s) (EnableHeaderComment s) (EnableBash3Bouncer s) (EnableInspectArgs s)
    (EnableViewMarkers s) (EnableDepsArray s) (EnableEnvVarNamesArray s)
    (EnableSourcing s) (PrivateRevealKey s).

Definition set_SourceDir (v : string) (s : Settings) : Settings :=
  mkSettings (Env s) v (ConfigPath s) (TargetDir s) (CommandsDir s) (LibDir s)
    (ExtraLibDirs s) (PartialsExtension s) (TabIndent s) (Formatter s)
    (EnableHeaderComment s) (EnableBash3Bouncer s) (EnableInspectArgs s)
    (EnableViewMarkers s) (EnableDepsArray s) (EnableEnvVarNamesArray s)
    (EnableSourcing s) (PrivateRevealKey s).

Definition set_ConfigPath (v : string) (s : Settings) : Settings :=
  mkSettings (Env s) (SourceDir s) v (TargetDir s) (CommandsDir s) (LibDir s)
    (ExtraLibDirs s) (PartialsExtension s) (TabIndent s) (Formatter s)
    (EnableHeaderComment s) (EnableBash3Bouncer s) (EnableInspectArgs s)
    (EnableViewMarkers s) (EnableDepsArray s) (EnableEnvVarNamesArray s)
    (EnableSourcing s) (PrivateRevealKey s).

Definition set_TargetDir (v : string) (s : Settings) : Settings :=
  mkSettings (Env s) (SourceDir s) (ConfigPath s) v (CommandsDir s) (LibDir s)
    (ExtraLibDirs s) (PartialsExtension s) (TabIndent s) (Formatter s)
    (EnableHeaderComment s) (EnableBash3Bouncer s) (EnableInspectArgs s)
    (EnableViewMarkers s) (EnableDepsArray s) (EnableEnvVarNamesArray s)
    (EnableSourcing s) (PrivateRevealKey s).

Definition set_CommandsDir (v : string) (s : Settings) : Settings :=
  mkSettings (Env s) (SourceDir s) (ConfigPath s) (TargetDir s) v (LibDir s)
    (ExtraLibDirs s) (PartialsExtension s) (TabIndent s) (Formatter s)
    (EnableHeaderComment s) (EnableBash3Bouncer s) (EnableInspectArgs s)
    (EnableViewMarkers s) (EnableDepsArray s) (EnableEnvVarNamesArray s)
    (EnableSourcing s) (PrivateRevealKey s).

Definition set_LibDir (v : string) (s : Settings) : Settings :=
  mkSettings (Env s) (SourceDir s) (ConfigPath s) (TargetDir s) (CommandsDir
    s) v (ExtraLibDirs s) (PartialsExtension s) (TabIndent s) (Formatter s)
    (EnableHeaderComment s) (EnableBash3Bouncer s) (EnableInspectArgs s)
    (EnableViewMarkers s) (EnableDepsArray s) (EnableEnvVarNamesArray s)
    (EnableSourcing s) (PrivateRevealKey s).

Definition set_ExtraLibDirs (v : list string) (s : Settings) : Settings :=
  mkSettings (Env s) (SourceDir s) (ConfigPath s) (TargetDir s) (CommandsDir
    s) (LibDir s) v (PartialsExtension s) (TabIndent s) (Formatter s)
    (EnableHeaderComment s) (EnableBash3Bouncer s) (EnableInspectArgs s)
    (EnableViewMarkers s) (EnableDepsArray s) (EnableEnvVarNamesArray s)
    (EnableSourcing s) (PrivateRevealKey s).

Definition set_PartialsExtension (v : string) (s : Settings) : Settings :=
  mkSettings (Env s) (SourceDir s) (ConfigPath s) (TargetDir s) (CommandsDir
    s) (LibDir s) (ExtraLibDirs s) v (TabIndent s) (Formatter s)
    (EnableHeaderComment s) (EnableBash3Bouncer s) (EnableInspectArgs s)
    (EnableViewMarkers s) (EnableDepsArray s) (EnableEnvVarNamesArray s)
    (EnableSourcing s) (PrivateRevealKey s).

Definition set_TabIndent (v : bool) (s : Settings) : Settings :=
  mkSettings (Env s) (SourceDir s) (ConfigPath s) (TargetDir s) (CommandsDir
    s) (LibDir s) (ExtraLibDirs s) (PartialsExtension s) v (Formatter s)
    (EnableHeaderComment s) (EnableBash3Bouncer s) (EnableInspectArgs s)
    (EnableViewMarkers s) (EnableDepsArray s) (EnableEnvVarNamesArray s)
    (EnableSourcing s) (PrivateRevealKey s).

Definition set_Formatter (v : string) (s : Settings) : Settings :=
  mkSettings (Env s) (SourceDir s) (ConfigPath s) (TargetDir s) (CommandsDir
    s) (LibDir s) (ExtraLibDirs s) (PartialsExtension s) (TabIndent s) v
    (EnableHeaderComment s) (EnableBash3Bouncer s) (EnableInspectArgs s)
    (EnableViewMarkers s) (EnableDepsArray s) (EnableEnvVarNamesArray s)
    (EnableSourcing s) (PrivateRevealKey s).

Definition set_EnableHeaderComment (v : string) (s : Settings) : Settings :=
  mkSettings (Env s) (SourceDir s) (ConfigPath s) (TargetDir s) (CommandsDir
    s) (LibDir s) (ExtraLibDirs s) (PartialsExtension s) (TabIndent s)
    (Formatter s) v (EnableBash3Bouncer s) (EnableInspectArgs s)
    (EnableViewMarkers s) (EnableDepsArray s) (EnableEnvVarNamesArray s)
    (EnableSourcing s) (PrivateRevealKey s).

Definition set_EnableBash3Bouncer (v : string) (s : Settings) : Settings :=
  mkSettings (Env s) (SourceDir s) (ConfigPath s) (TargetDir s) (CommandsDir
    s) (LibDir s) (ExtraLibDirs s) (PartialsExtension s) (TabIndent s)
    (Formatter s) (EnableHeaderComment s) v (EnableInspectArgs s)
    (EnableViewMarkers s) (EnableDepsArray s) (EnableEnvVarNamesArray s)
    (EnableSourcing s) (PrivateRevealKey s).

Definition set_EnableInspectArgs (v : string) (s : Settings) : Settings :=
  mkSettings (Env s) (SourceDir s) (ConfigPath s) (TargetDir s) (CommandsDir
    s) (LibDir s) (ExtraLibDirs s) (PartialsExtension s) (TabIndent s)
    (Formatter s) (EnableHeaderComment s) (EnableBash3Bouncer s) v
    (EnableViewMarkers s) (EnableDepsArray s) (EnableEnvVarNamesArray s)
    (EnableSourcing s) (PrivateRevealKey s).

Definition set_EnableViewMarkers (v : string) (s : Settings) : Settings :=
  mkSettings (Env s) (SourceDir s) (ConfigPath s) (TargetDir s) (CommandsDir
    s) (LibDir s) (ExtraLibDirs s) (PartialsExtension s) (TabIndent s)
    (Formatter s) (EnableHeaderComment s) (EnableBash3Bouncer s)
    (EnableInspectArgs s) v (EnableDepsArray s) (EnableEnvVarNamesArray s)
    (EnableSourcing s) (PrivateRevealKey s).

Definition set_EnableDepsArray (v : string) (s : Settings) : Settings :=
  mkSettings (Env s) (SourceDir s) (ConfigPath s) (TargetDir s) (CommandsDir
    s) (LibDir s) (ExtraLibDirs s) (PartialsExtension s) (TabIndent s)
    (Formatter s) (EnableHeaderComment s) (EnableBash3Bouncer s)
    (EnableInspectArgs s) (EnableViewMarkers s) v (EnableEnvVarNamesArray s)
    (EnableSourcing s) (PrivateRevealKey s).

Definition set_EnableEnvVarNamesArray (v : string) (s : Settings) : Settings :=
  mkSettings (Env s) (SourceDir s) (ConfigPath s) (TargetDir s) (CommandsDir
    s) (LibDir s) (ExtraLibDirs s) (PartialsExtension s) (TabIndent s)
    (Formatter s) (EnableHeaderComment s) (EnableBash3Bouncer s)
    (EnableInspectArgs s) (EnableViewMarkers s) (EnableDepsArray s) v
    (EnableSourcing s) (PrivateRevealKey s).

Definition set_EnableSourcing (v : string) (s : Settings) : Settings :=
  mkSettings (Env s) (SourceDir s) (ConfigPath s) (TargetDir s) (CommandsDir
    s) (LibDir s) (ExtraLibDirs s) (PartialsExtension s) (TabIndent s)
    (Formatter s) (EnableHeaderComment s) (EnableBash3Bouncer s)
    (EnableInspectArgs s) (EnableViewMarkers s) (EnableDepsArray s)
    (EnableEnvVarNamesArray s) v (PrivateRevealKey s).

Definition set_PrivateRevealKey (v : string) (s : Settings) : Settings :=
  mkSettings (Env s) (SourceDir s) (ConfigPath s) (TargetDir s) (CommandsDir
    s) (LibDir s) (ExtraLibDirs s) (PartialsExtension s) (TabIndent s)
    (Formatter s) (EnableHeaderComment s) (EnableBash3Bouncer s)
    (EnableInspectArgs s) (EnableViewMarkers s) (EnableDepsArray s)
    (EnableEnvVarNamesArray s) (EnableSourcing s) v.

Definition Default : Settings :=
  mkSettings "development" "src" "%{source_dir}/bashly.yml" "." "" "lib" [] "sh"
    false "internal" "always" "always" "development" "development" "always"
    "always" "development" "".

(** [if v, ok := ...; ok { s.F = v }]: the assignment is made when the
    guard yields a value. *)
Definition assign {A : Type} (guard : option A) (set : A -> Settings -> Settings)
    (s : Settings) : Settings :=
  match guard with
  | Some v => set v s
  | None => s
  end.

(** The guard [v, ok := x.(string); ok]. *)
Definition isString (x : any) : option string :=
  match x with
  | VString v => Some v
  | _ => None
  end.

(** The guard [ok && v != ""]. *)
Definition nonEmpty (guard : option string) : option string :=
  match guard with
  | Some v => if String.eqb v "" then None else Some v
  | None => None
  end.

(** The guard of the keys that YAML may leave as [~]: a present key
    holding nil gives the empty string, one holding a string gives it. *)
Definition nilOrString (x : option any) : option string :=
  match x with
  | Some VNil => Some ""
  | Some (VString sv) => Some sv
  | _ => None
  end.

(** The loop that keeps the string members of a list. *)
Fixpoint stringItems (arr : list any) : list string :=
  match arr with
  | [] => []
  | VString str :: arr' => str :: stringItems arr'
  | _ :: arr' => stringItems arr'
  end.

(** The guard of [extra_lib_dirs]. *)
Definition nilOrList (x : option any) : option (list string) :=
  match x with
  | Some VNil => Some []
  | Some (VList arr) => Some (stringItems arr)
  | _ => None
  end.

(** The guard of [tab_indent]. *)
Definition nilOrBool (x : option any) : option bool :=
  match x with
  | Some VNil => Some false
  | Some (VBool bv) => Some bv
  | _ => None
  end.

Definition applyMap (s : Settings) (m : list (string * any)) : Settings :=
  let s := assign (nonEmpty (isString (index_key m "env"))) set_Env s in
  let s := assign (isString (index_key m "source_dir")) set_SourceDir s in
  let s := assign (isString (index_key m "config_path")) set_ConfigPath s in
  let s := assign (isString (index_key m "target_dir")) set_TargetDir s in
  let s := assign (nilOrString (lookup_key m "commands_dir")) set_CommandsDir s in
  let s := assign (nonEmpty (isString (index_key m "lib_dir"))) set_LibDir s in
  let s := assign (nilOrList (lookup_key m "extra_lib_dirs")) set_ExtraLibDirs s in
  let s := assign (nonEmpty (isString (index_key m "partials_extension")))
             set_PartialsExtension s in
  let s := assign (nilOrBool (lookup_key m "tab_indent")) set_TabIndent s in
  let s := assign (nonEmpty (isString (index_key m "formatter"))) set_Formatter s in
  let s := assign (nonEmpty (isString (index_key m "enable_header_comment")))
             set_EnableHeaderComment s in
  let s := assign (nonEmpty (isString (index_key m "enable_bash3_bouncer")))
             set_EnableBash3Bouncer s in
  let s := assign (nonEmpty (isString (index_key m "enable_inspect_args")))
             set_EnableInspectArgs s in
  let s := assign (nonEmpty (isString (index_key m "enable_view_markers")))
             set_EnableViewMarkers s in
  let s := assign (nonEmpty (isString (index_key m "enable_deps_array")))
             set_EnableDepsArray s in
  let s := assign (nonEmpty (isString (index_key m "enable_env_var_names_array")))
             set_EnableEnvVarNamesArray s in
  let s := assign (nonEmpty (isString (index_key m "enable_sourcing")))
             set_EnableSourcing s in
  let s := assign (nilOrString (lookup_key m "private_reveal_key"))
             set_PrivateRevealKey s in
  s.

Section environment.
Context `{PathLib}.

(** The process environment: [os.LookupEnv(k)] is [env !! k]. *)
Variable env : gmap string string.

Definition applyPerEnvOverrides (s : Settings) (m : list (string * any)) : Settings :=
  let e := strings_TrimSpace (Env s) in
  if String.eqb e "" then s
  else
    let s := assign (isString (index_key m ("source_dir_" +:+ e))) set_SourceDir s in
    let s := assign (isString (index_key m ("config_path_" +:+ e))) set_ConfigPath s in
    let s := assign (isString (index_key m ("target_dir_" +:+ e))) set_TargetDir s in
    let s := assign (nilOrString (lookup_key m ("commands_dir_" +:+ e)))
               set_CommandsDir s in
    let s := assign (nonEmpty (isString (index_key m ("lib_dir_" +:+ e)))) set_LibDir s in
    let s := assign (nilOrList (lookup_key m ("extra_lib_dirs_" +:+ e)))
               set_ExtraLibDirs s in
    let s := assign (nonEmpty (isString (index_key m ("partials_extension_" +:+ e))))
               set_PartialsExtension s in
    let s := assign (nilOrBool (lookup_key m ("tab_indent_" +:+ e))) set_TabIndent s in
    let s := assign (nonEmpty (isString (index_key m ("formatter_" +:+ e))))
               set_Formatter s in
    let s := assign (nonEmpty (isString (index_key m ("enable_header_comment_" +:+ e))))
               set_EnableHeaderComment s in
    let s := assign (nonEmpty (isString (index_key m ("enable_bash3_bouncer_" +:+ e))))
               set_EnableBash3Bouncer s in
    let s := assign (nonEmpty (isString (index_key m ("enable_inspect_args_" +:+ e))))
               set_EnableInspectArgs s in
    let s := assign (nonEmpty (isString (index_key m ("enable_view_markers_" +:+ e))))
               set_EnableViewMarkers s in
    let s := assign (nonEmpty (isString (index_key m ("enable_deps_array_" +:+ e))))
               set_EnableDepsArray s in
    let s := assign
               (nonEmpty (isString (index_key m ("enable_env_var_names_array_" +:+ e))))
               set_EnableEnvVarNamesArray s in
    let s := assign (nonEmpty (isString (index_key m ("enable_sourcing_" +:+ e))))
               set_EnableSourcing s in
    let s := assign (nilOrString (lookup_key m ("private_reveal_key_" +:+ e)))
               set_PrivateRevealKey s in
    s.

Definition parseEnvBool (s : string) : bool * bool :=
  let s := strings_TrimSpace (strings_ToLower s) in
  if String.eqb s "0" || String.eqb s "false" || String.eqb s "no" then (false, true)
  else if String.eqb s "1" || String.eqb s "true" || String.eqb s "yes" then (true, true)
  else (false, false).

(** The guard of [BASHLY_TAB_INDENT]. *)
Definition envBool (guard : option string) : option bool :=
  match guard with
  | Some v => let '(parsed, ok) := parseEnvBool v in if ok then Some parsed else None
  | None => None
  end.

(** The guard of [BASHLY_EXTRA_LIB_DIRS]: a comma-separated list, each
    part trimmed. *)
Definition envList (guard : option string) : option (list string) :=
  match guard with
  | Some v => Some (map strings_TrimSpace (strings.Split v ","))
  | None => None
  end.

Definition applyEnv (s : Settings) : Settings :=
  let s := assign (nonEmpty (env !! "BASHLY_ENV")) set_Env s in
  let s := assign (env !! "BASHLY_SOURCE_DIR") set_SourceDir s in
  let s := assign (env !! "BASHLY_CONFIG_PATH") set_ConfigPath s in
  let s := assign (env !! "BASHLY_TARGET_DIR") set_TargetDir s in
  let s := assign (env !! "BASHLY_COMMANDS_DIR") set_CommandsDir s in
  let s := assign (env !! "BASHLY_LIB_DIR") set_LibDir s in
  let s := assign (envList (env !! "BASHLY_EXTRA_LIB_DIRS")) set_ExtraLibDirs s in
  let s := assign (nonEmpty (env !! "BASHLY_PARTIALS_EXTENSION"))
             set_PartialsExtension s in
  let s := assign (envBool (env !! "BASHLY_TAB_INDENT")) set_TabIndent s in
  let s := assign (nonEmpty (env !! "BASHLY_FORMATTER")) set_Formatter s in
  let s := assign (nonEmpty (env !! "BASHLY_ENABLE_HEADER_COMMENT"))
             set_EnableHeaderComment s in
  let s := assign (nonEmpty (env !! "BASHLY_ENABLE_BASH3_BOUNCER"))
             set_EnableBash3Bouncer s in
  let s := assign (nonEmpty (env !! "BASHLY_ENABLE_INSPECT_ARGS"))
             set_EnableInspectArgs s in
  let s := assign (nonEmpty (env !! "BASHLY_ENABLE_VIEW_MARKERS"))
             set_EnableViewMarkers s in
  let s := assign (nonEmpty (env !! "BASHLY_ENABLE_DEPS_ARRAY"))
             set_EnableDepsArray s in
  let s := assign (nonEmpty (env !! "BASHLY_ENABLE_ENV_VAR_NAMES_ARRAY"))
             set_EnableEnvVarNamesArray s in
  let s := assign (nonEmpty (env !! "BASHLY_ENABLE_SOURCING")) set_EnableSourcing s in
  let s := assign (env !! "BASHLY_PRIVATE_REVEAL_KEY") set_PrivateRevealKey s in
  s.

(** [Load(wd)] after its access to the file system: [loaded] is [None]
    when no user settings file is selected, and otherwise what
    [loadYAMLMap] returned for it. *)
Definition Load (loaded : option (result (list (string * any)))) : result Settings :=
  let st := Default in
  match loaded with
  | Some (Err e) => Err e
  | Some (Ok m) =>
      let st := applyMap st m in
      let st := applyEnv st in
      let st := applyPerEnvOverrides st m in
      let st := applyEnv st in
      Ok (set_ConfigPath
            (strings_ReplaceAll (ConfigPath st) "%{source_dir}" (SourceDir st)) st)
  | None =>
      let st := applyEnv st in
      Ok (set_ConfigPath
            (strings_ReplaceAll (ConfigPath st) "%{source_dir}" (SourceDir st)) st)
  end.

(** [s.RevealPrivate()]. *)
Definition RevealPrivate (s : Settings) : bool :=
  if String.eqb (strings_TrimSpace (PrivateRevealKey s)) "" then false
  else match env !! PrivateRevealKey s with Some _ => true | None => false end.

End environment.

End settings_load.

(** * Vocabulary of the statements *)

Import settings commandmodel runtime.

(** ** Sample commands and parsed arguments *)

(** A child named [name] under the parent chain [parents], with
    [alts] as the aliases declared after the name. *)
Definition leaf (parents : list string) (name : string) (alts : list string)
    : Command :=
  mkCommand name parents (strings.Join (parents ++ [name]) " ")
    (computeActionName parents name) false "" (name :: alts) "" "" [] [] [] [].

(** A root command over the given children. *)
Definition rootOver (children : list Command) : Command :=
  mkCommand "root" [] "root" "root" false "" [] "" "" [] [] [] children.

(** The parsed arguments as [ParseArgs] first allocates them. *)
Definition emptyParsed : ParsedArgs := mkParsedArgs None ∅ [] [] false.

(** ** Compact clusters *)

(** The flags written by expanding a cluster: one key per rune of the
    text after the dash. *)
Definition clusterKeys (arg : string) : list string :=
  map (fun ch => "-" +:+ utf8.string_of_rune ch) (utf8.range (strings.drop 1 arg)).

(** On ASCII text the runes are the bytes, and each is converted back
    to itself. *)
Definition isASCII (c : ascii) : bool := (utf8.byte c <? 0x80)%Z.

(** ** The validator in the words of the design document *)

(** The three conditions of the validator, per declaration. *)
Definition argMissing (parsed : ParsedArgs) (arg : Arg) : bool :=
  Arg_Required arg && negb (contains (ParsedArgs_Positional parsed) (Arg_Name arg)).

Definition flagMissing (parsed : ParsedArgs) (flag : Flag) : bool :=
  Flag_Required flag && String.eqb (flagValue parsed flag) "".

Definition flagRejected (parsed : ParsedArgs) (flag : Flag) : bool :=
  negb (String.eqb (flagValue parsed flag) "")
  && negb (Nat.eqb (length (Flag_Allowed flag)) 0)
  && negb (contains (Flag_Allowed flag) (flagValue parsed flag)).

(** The validator as the design document words it: the first required
    argument that is absent, else the first required flag without a
    value, else the first flag whose value is not allowed, else
    success. *)
Definition validate_spec (cmd : Command) (parsed : ParsedArgs) : ValidateResult :=
  match find (argMissing parsed) (Command_Args cmd) with
  | Some arg =>
      mkValidateResult false ("missing required argument: " +:+ Arg_Name arg) 2
  | None =>
      match find (flagMissing parsed) (Command_Flags cmd) with
      | Some flag =>
          mkValidateResult false ("missing required flag: " +:+ flagLabel flag) 2
      | None =>
          match find (flagRejected parsed) (Command_Flags cmd) with
          | Some flag =>
              mkValidateResult false
                ("invalid value for " +:+ flagLabel flag +:+ ": "
                 +:+ flagValue parsed flag) 2
          | None => mkValidateResult true "" 0
          end
      end
  end.

(** The command of the ordering scenario: argument [src] and flag
    [--out], both required, the flag restricted to "a" and "b". *)
Definition copyCommand : Command :=
  mkCommand "copy" ["root"] "root copy" "copy" false "" ["copy"] "" ""
    [mkArg "src" true] [mkFlag "--out" "" true ["a"; "b"] false] [] [].

Definition parsedWith (positional : list string) (flags : gmap string string)
    : ParsedArgs :=
  mkParsedArgs (Some copyCommand) flags positional [] false.

(** [parsed] without the entry for the key [k]. *)
Definition withoutFlag (parsed : ParsedArgs) (k : string) : ParsedArgs :=
  mkParsedArgs (ParsedArgs_Command parsed) (delete k (ParsedArgs_Flags parsed))
    (ParsedArgs_Positional parsed) (ParsedArgs_Remaining parsed)
    (ParsedArgs_HelpAsked parsed).

(** ** Sound and faulty command structures *)

(** A child entry is acceptable when it is a mapping with a non-empty
    string under [name] and, if it has a [commands] key, a list of
    acceptable entries under it. *)
Fixpoint entryOK (raw : any) : bool :=
  match raw with
  | VMap opts =>
      negb (String.eqb (fst (asString (index_key opts "name"))) "")
      && with_key opts "commands" true
           (fun sub =>
              match sub with
              | VList l => forallb entryOK l
              | _ => false
              end)
  | _ => false
  end.

Definition commandsOK (cfg : list (string * any)) : bool :=
  match lookup_key cfg "commands" with
  | None => true
  | Some (VList l) => forallb entryOK l
  | Some _ => false
  end.

(** The three structural faults, at any depth: [badCommands v] for a
    value [v] found under a [commands] key, [badEntry raw] for a member
    of such a list. *)
Inductive badCommands : any -> Prop :=
| bad_not_list v :
    (forall l, v <> VList l) -> badCommands v
| bad_member l raw :
    In raw l -> badEntry raw -> badCommands (VList l)
with badEntry : any -> Prop :=
| bad_not_mapping raw :
    (forall opts, raw <> VMap opts) -> badEntry raw
| bad_name opts :
    fst (asString (index_key opts "name")) = "" -> badEntry (VMap opts)
| bad_nested opts sub :
    lookup_key opts "commands" = Some sub -> badCommands sub -> badEntry (VMap opts).

Scheme badCommands_mut := Minimality for badCommands Sort Prop
  with badEntry_mut := Minimality for badEntry Sort Prop.

Definition malformed (cfg : list (string * any)) : Prop :=
  exists cmds, lookup_key cfg "commands" = Some cmds /\ badCommands cmds.

(** ** Invariants of the builder *)

(** [buildChild] returns a command on an acceptable entry and an error
    on any other, whatever the parent and the index. *)
Definition decides `{PathLib} (raw : any) : Prop :=
  forall st parent i,
    match buildChild st parent i raw with
    | Ok _ => entryOK raw = true
    | Err _ => entryOK raw = false
    end.

(** What holds of a node [d] in the subtree built for [c]: its parent
    chain extends that of [c], its action name is computed from its
    chain and name, and its children have its chain plus its name. *)
Definition namedBelow (c d : Command) : Prop :=
  (exists tail, Command_Parents d = Command_Parents c ++ tail)
  /\ Command_ActionName d = computeActionName (Command_Parents d) (Command_Name d)
  /\ Forall (fun child =>
               Command_Parents child = Command_Parents d ++ [Command_Name d])
       (Command_Commands d).

(** ** Sample configurations *)

(** A stand-in for the path library, enough for names made of
    lower-case letters: paths are joined by a slash and one-character
    patterns are replaced character by character. *)
Definition replaceChar (s old new : string) : string :=
  match old with
  | String o EmptyString =>
      (fix go (s : string) : string :=
         match s with
         | EmptyString => EmptyString
         | String c s' =>
             if Ascii.eqb c o then new +:+ go s' else String c (go s')
         end) s
  | _ => s
  end.

Definition plainPaths : PathLib :=
  {| filepath_Join := fun dir p => dir +:+ "/" +:+ p;
     filepath_FromSlash := fun p => p;
     strings_ReplaceAll := replaceChar;
     strings_TrimSpace := fun s => s;
     strings_ToLower := fun s => s |}.

Definition defaults : Settings := mkSettings "" "sh".

(** [mycli] with the command [c] and, under it, the command [g]; the
    declarations of the root hold a number, an unnamed argument and a
    named one. *)
Definition nestedConfig : list (string * any) :=
  [("name", VString "mycli");
   ("args", VList [VInt 7; VMap [("required", VBool true)];
                   VMap [("name", VString "source"); ("required", VBool true)]]);
   ("flags", VString "none");
   ("commands",
    VList [VMap [("name", VString "c");
                 ("commands", VList [VMap [("name", VString "g")]])]])].

(** One command [full] that declares the alias [f*]. *)
Definition aliasConfig : list (string * any) :=
  [("commands", VList [VMap [("name", VString "full"); ("alias", VString "f*")]])].

(** The same with a third-level entry that has no name. *)
Definition brokenConfig : list (string * any) :=
  [("name", VString "mycli");
   ("commands",
    VList [VMap [("name", VString "c");
                 ("commands",
                  VList [VMap [("name", VString "g")];
                         VMap [("alias", VString "h")]])]])].

(** ** Walking and printing the tree *)

(** [descends c toks d]: following the tokens one by one through
    [findChild] leads from [c] to [d]. *)
Inductive descends : Command -> list string -> Command -> Prop :=
| descends_here c : descends c [] c
| descends_step c tok next toks d :
    findChild c tok = Some next -> descends next toks d ->
    descends c (tok :: toks) d.

(** The test [findChild] applies to one child. *)
Definition childMatches (tok : string) (child : Command) : bool :=
  String.eqb (Command_Name child) tok || aliasMatches (Command_Alias child) tok.

(** The names a configuration declares, an entry before the entries
    under its [commands] key, siblings in the order written. *)
Fixpoint declaredNames (raw : any) : list string :=
  match raw with
  | VMap opts =>
      fst (asString (index_key opts "name"))
      :: with_key opts "commands" []
           (fun sub =>
              match sub with
              | VList l => flat_map declaredNames l
              | _ => []
              end)
  | _ => []
  end.

Definition declaredBelowRoot (cfg : list (string * any)) : list string :=
  match lookup_key cfg "commands" with
  | Some (VList l) => flat_map declaredNames l
  | _ => []
  end.

(** The nodes that are shown: a private node is left out with all its
    descendants unless private nodes are revealed. *)
Fixpoint visibleFrom (reveal : bool) (c : Command) : list Command :=
  if Command_Private c && negb reveal then []
  else c :: flat_map (visibleFrom reveal) (Command_Commands c).

(** What the struct literal of [buildChildren] gives every node. *)
Definition builtNode (d : Command) : Prop :=
  Command_Name d <> ""
  /\ Command_FullName d = strings.Join (Command_Parents d ++ [Command_Name d]) " "
  /\ exists alts,
       Command_Alias d = Command_Name d :: alts /\ Forall (fun a => a <> "") alts.

(** The four shapes of the builder's errors. *)
Definition structuralError (msg : string) : Prop :=
  msg = "config.commands must be a list"
  \/ (exists i, msg = "commands[" +:+ itoa i +:+ "] must be a mapping")
  \/ (exists i, msg = "commands[" +:+ itoa i +:+ "].name is required")
  \/ (exists fullName, msg = fullName +:+ ".commands must be a list").

(** The text of a node below the root in [PrintTree]. *)
Definition treeLabel (opts : TreePrintOptions) (c : Command) : string :=
  if ShowDetails opts then formatDetails c opts else Command_Name c.

(** The text of the root in [PrintTree]. *)
Definition rootLabel (opts : TreePrintOptions) (root : Command) : string :=
  if ShowDetails opts then formatDetails root opts else Command_FullName root.

(** What is written for a node below the root: some lead made of
    indentation and connector, a space, the node's text, a newline. *)
Definition nodeLine (opts : TreePrintOptions) (written : string) (c : Command) : Prop :=
  exists lead, written = lead +:+ " " +:+ treeLabel opts c +:+ LF.

(** ** Blank lines *)

(** The test [strings.TrimSpace(line) == ""] of [removeExcessNewlines]. *)
Definition isBlankLine `{PathLib} (line : string) : bool :=
  String.eqb (strings_TrimSpace line) "".

(** [blankRun lines prevBlank]: two blank lines in a row occur in
    [lines], or [lines] starts with a blank line while [prevBlank]. *)
Fixpoint blankRun `{PathLib} (lines : list string) (prevBlank : bool) : bool :=
  match lines with
  | [] => false
  | line :: lines' =>
      (isBlankLine line && prevBlank) || blankRun lines' (isBlankLine line)
  end.

(** ** Settings and the environment *)

(** The environment variables that replace a setting whenever they are
    set, and those that replace it when set to a non-empty value. *)
Definition plainVars : list (string * (settings_load.Settings -> string)) :=
  [("BASHLY_SOURCE_DIR", settings_load.SourceDir);
   ("BASHLY_TARGET_DIR", settings_load.TargetDir);
   ("BASHLY_COMMANDS_DIR", settings_load.CommandsDir);
   ("BASHLY_LIB_DIR", settings_load.LibDir);
   ("BASHLY_PRIVATE_REVEAL_KEY", settings_load.PrivateRevealKey)].

Definition guardedVars : list (string * (settings_load.Settings -> string)) :=
  [("BASHLY_ENV", settings_load.Env);
   ("BASHLY_PARTIALS_EXTENSION", settings_load.PartialsExtension);
   ("BASHLY_FORMATTER", settings_load.Formatter);
   ("BASHLY_ENABLE_HEADER_COMMENT", settings_load.EnableHeaderComment);
   ("BASHLY_ENABLE_BASH3_BOUNCER", settings_load.EnableBash3Bouncer);
   ("BASHLY_ENABLE_INSPECT_ARGS", settings_load.EnableInspectArgs);
   ("BASHLY_ENABLE_VIEW_MARKERS", settings_load.EnableViewMarkers);
   ("BASHLY_ENABLE_DEPS_ARRAY", settings_load.EnableDepsArray);
   ("BASHLY_ENABLE_ENV_VAR_NAMES_ARRAY", settings_load.EnableEnvVarNamesArray);
   ("BASHLY_ENABLE_SOURCING", settings_load.EnableSourcing)].

(** The environment name under which the per-environment keys of the
    settings file [m] are read: [BASHLY_ENV] when set and not empty, else
    the file's [env] when it is a non-empty string, else "development";
    trimmed. *)
Definition effectiveEnv `{PathLib} (env : gmap string string)
    (m : list (string * any)) : string :=
  strings_TrimSpace
    (default
       (default "development"
          (settings_load.nonEmpty (settings_load.isString (index_key m "env"))))
       (settings_load.nonEmpty (env !! "BASHLY_ENV"))).

(** A key of the settings file for the effective environment, when
    there is one. *)
Definition perEnvKey `{PathLib} (env : gmap string string)
    (m : list (string * any)) (key : string) : option string :=
  if String.eqb (effectiveEnv env m) "" then None
  else Some (key +:+ "_" +:+ effectiveEnv env m).

(** ** Further samples *)

(** An environment that sets the source directory and the extension. *)
Definition sampleEnv : gmap string string :=
  {["BASHLY_SOURCE_DIR" := "code"; "BASHLY_PARTIALS_EXTENSION" := "bash"]}.

(** A settings file with a commands directory of its own for the
    environment [production]. *)
Definition sampleSettingsFile : list (string * any) :=
  [("env", VString "production");
   ("commands_dir", VString "commands");
   ("commands_dir_production", VString "prod_commands")].

(** An external formatter that always fails. *)
Definition failingFormatter (formatter content : string) : string + string * string :=
  inr ("exit status 1", "no such option").

(** A command with one public and one private flag. *)
Definition flaggedCommand : Command :=
  mkCommand "run" ["root"] "root run" "run" false "" ["run"] "" "" []
    [mkFlag "--verbose" "-v" false [] false; mkFlag "--debug" "" false [] true]
    [] [].

(** * Properties *)

(** ** Strings *)

Section string_facts.

Lemma contains_In slice item : runtime.contains slice item = true <-> In item slice.
Proof.
  induction slice as [|s slice IH]; simpl.
  - split; [discriminate | tauto].
  - destruct (String.eqb_spec s item) as [->|Hne].
    + split; auto.
    + rewrite IH. split; [auto | intros [?|?]; [congruence | auto]].
Qed.

Lemma append_cons c s t : String c s +:+ t = String c (s +:+ t).
Proof. reflexivity. Qed.

Lemma append_nil t : "" +:+ t = t.
Proof. reflexivity. Qed.

Lemma prefix_cons c p c' s :
  String.prefix (String c p) (String c' s)
  = if Ascii.ascii_dec c c' then String.prefix p s else false.
Proof. reflexivity. Qed.

Lemma prefix_nil s : String.prefix "" s = true.
Proof. by destruct s. Qed.

Lemma prefix_split p s :
  String.prefix p s = true -> s = p +:+ strings.drop (String.length p) s.
Proof.
  revert s. induction p as [|c p IH]; intros s Hp; simpl in *.
  - by destruct s.
  - destruct s as [|c' s]; [discriminate|]. rewrite prefix_cons in Hp.
    destruct (Ascii.ascii_dec c c') as [->|]; [|discriminate].
    rewrite append_cons. f_equal. by apply IH.
Qed.

Lemma Index_unfold s sep :
  strings.Index s sep =
    if strings.HasPrefix s sep then Some 0
    else match s with
         | EmptyString => None
         | String _ s' => S <$> strings.Index s' sep
         end.
Proof. by destruct s. Qed.

Lemma Index_split s sep m :
  strings.Index s sep = Some m ->
  s = strings.take m s +:+ sep +:+ strings.drop (m + String.length sep) s.
Proof.
  revert m. induction s as [|c s IH]; intros m; rewrite Index_unfold;
    destruct (strings.HasPrefix _ sep) eqn:Hp; try discriminate.
  - intros Hm; injection Hm as <-. by apply prefix_split in Hp.
  - intros Hm; injection Hm as <-. by apply prefix_split in Hp.
  - destruct (strings.Index s sep) as [k|] eqn:Hk; [|discriminate].
    intros Hm; injection Hm as <-.
    cbn [strings.take strings.drop Nat.add]. rewrite append_cons.
    f_equal. by apply IH.
Qed.

Lemma Index_take_eq s m :
  strings.Index s "=" = Some m -> strings.Index (strings.take m s) "=" = None.
Proof.
  revert m. induction s as [|c s IH]; intros m; rewrite Index_unfold;
    destruct (strings.HasPrefix _ "=") eqn:Hp; try discriminate.
  - by intros Hm; injection Hm as <-.
  - destruct (strings.Index s "=") as [k|] eqn:Hk; [|discriminate].
    intros Hm; injection Hm as <-.
    cbn [strings.take]. rewrite Index_unfold.
    assert (strings.HasPrefix (String c (strings.take k s)) "=" = false) as ->.
    { unfold strings.HasPrefix in *. rewrite prefix_cons in *.
      destruct (Ascii.ascii_dec "=" c); [|done]. by rewrite prefix_nil in Hp. }
    by rewrite (IH k).
Qed.

Lemma SplitN_first_eq arg :
  strings.Contains arg "=" = true ->
  exists name value,
    strings.SplitN arg "=" 2 = [name; value]
    /\ arg = name +:+ "=" +:+ value
    /\ strings.Contains name "=" = false.
Proof.
  unfold strings.Contains at 1.
  destruct (strings.Index arg "=") as [m|] eqn:Hm; [|discriminate].
  intros _. exists (strings.take m arg), (strings.drop (m + 1) arg).
  split; [by cbn [strings.SplitN]; rewrite Hm|].
  split; [by apply (Index_split arg "=")|].
  unfold strings.Contains. by rewrite (Index_take_eq arg m).
Qed.

End string_facts.

(** ** Argument resolver *)

Section resolver.
Import commandmodel runtime.

(** What the loop over the aliases does decide: an alias that starts
    with a star matches every token that begins with the alias minus
    one trailing star; any other alias matches only itself. *)
Lemma aliasMatches_spec aliases name :
  aliasMatches aliases name = true <->
  exists alias, In alias aliases /\
    if strings.HasPrefix alias "*"
    then strings.HasPrefix name (strings.TrimSuffix alias "*") = true
    else alias = name.
Proof.
  induction aliases as [|a aliases IH]; cbn [aliasMatches].
  - split; [discriminate | intros (? & [] & _)].
  - destruct (strings.HasPrefix a "*") eqn:Hstar.
    + destruct (strings.HasPrefix name (strings.TrimSuffix a "*")) eqn:Hpre.
      * split; [intros _ | done]. exists a. rewrite Hstar. split; [by left | done].
      * rewrite IH. split.
        -- intros (x & Hin & Hx). exists x. split; [by right | done].
        -- intros (x & [<- | Hin] & Hx); [|by exists x].
           rewrite Hstar in Hx. congruence.
    + destruct (String.eqb_spec a name) as [-> | Hne].
      * split; [intros _ | done]. exists name. rewrite Hstar. split; [by left | done].
      * rewrite IH. split.
        -- intros (x & Hin & Hx). exists x. split; [by right | done].
        -- intros (x & [<- | Hin] & Hx); [|by exists x].
           rewrite Hstar in Hx. congruence.
Qed.

Lemma resolveLoop_some current remaining :
  exists cmd rest, resolveLoop (Some current) remaining = Returns (Some cmd, rest).
Proof.
  revert current. induction remaining as [|tok remaining IH]; intros current.
  - by exists current, [].
  - cbn [resolveLoop]. destruct (findChild current tok) as [next|].
    + apply IH.
    + by exists current, (tok :: remaining).
Qed.

Lemma setFlag_Command p k v :
  ParsedArgs_Command (setFlag p k v) = ParsedArgs_Command p.
Proof. reflexivity. Qed.

Lemma expandCompact_Command p arg :
  ParsedArgs_Command (expandCompact p arg) = ParsedArgs_Command p.
Proof.
  unfold expandCompact. generalize (utf8.range (strings.drop 1 arg)) as runes.
  intros runes. revert p. induction runes as [|ch runes IH]; intros p; [done|].
  cbn [fold_left]. by rewrite IH.
Qed.

Lemma parseFlagsAndArgs_Command p args :
  ParsedArgs_Command (parseFlagsAndArgs p args) = ParsedArgs_Command p.
Proof.
  remember (length args) as n eqn:Hn.
  revert p args Hn. induction (lt_wf n) as [n _ IH]. intros p args ->.
  assert (Hrec : forall q l, (length l < length args)%nat ->
            ParsedArgs_Command (parseFlagsAndArgs q l) = ParsedArgs_Command q).
  { intros q l Hl. by eapply IH. }
  destruct args as [|arg rest]; [done|]. cbn [parseFlagsAndArgs].
  repeat match goal with
         | |- context [if ?b then _ else _] => destruct b
         | |- context [match ?l with [] => _ | _ :: _ => _ end] => destruct l
         end;
    rewrite Hrec; cbn [length]; try lia;
    rewrite ?setFlag_Command, ?expandCompact_Command; done.
Qed.

(** C3. Whenever [--help] or [-h] occurs among the arguments, at any
    position and whatever the tree, [ParseArgs] returns the parsed
    arguments with the help marker set, the root as command, and the
    flag map, the positional list and the remainder all empty. *)
Theorem ParseArgs_help argv root st :
  In "--help" argv \/ In "-h" argv ->
  ParseArgs argv root st = Returns (Ok (mkParsedArgs root ∅ [] [] true)).
Proof.
  intros Hhelp. unfold ParseArgs.
  assert (contains argv "--help" || contains argv "-h" = true) as ->; [|done].
  apply orb_true_iff. by rewrite !contains_In.
Qed.

Lemma ParseArgs_help_witness :
  ParseArgs ["deploy"; "--force"; "-h"; "x"] None (settings.mkSettings "" "")
  = Returns (Ok (mkParsedArgs None ∅ [] [] true)).
Proof. apply ParseArgs_help. right. simpl. tauto. Defined.

(** C9. With a root that is not nil and no [--help] or [-h] among the
    arguments, [ParseArgs] returns without panic and without the
    "unknown command" error: the resolved command is some node of the
    tree. *)
Theorem ParseArgs_never_unknown root argv st :
  contains argv "--help" = false ->
  contains argv "-h" = false ->
  ParseArgs argv (Some root) st <> Returns (Err "unknown command")
  /\ exists p cmd,
       ParseArgs argv (Some root) st = Returns (Ok p)
       /\ ParsedArgs_Command p = Some cmd.
Proof.
  intros H1 H2. unfold ParseArgs, resolveCommandPath. rewrite H1, H2. cbn [orb].
  destruct (resolveLoop_some root argv) as (cmd & rest & ->).
  split; [discriminate|]. eexists _, cmd. split; [reflexivity|].
  by rewrite parseFlagsAndArgs_Command.
Qed.

Lemma ParseArgs_never_unknown_witness :
  ParseArgs ["full"; "--name"; "x"] (Some (rootOver [leaf ["root"] "full" []]))
    (settings.mkSettings "" "")
  <> Returns (Err "unknown command").
Proof.
  apply (ParseArgs_never_unknown (rootOver [leaf ["root"] "full" []])
           ["full"; "--name"; "x"] (settings.mkSettings "" "")); reflexivity.
Defined.

End resolver.

(** ** Tokenizing the remainder *)

Section tokenizer.
Import commandmodel runtime.

(** The first branch of the loop body, for a token that starts with
    [--]. *)
Lemma parseFlagsAndArgs_long p arg rest :
  parseFlagsAndArgs p (arg :: rest) =
    if strings.HasPrefix arg "--" then
      if strings.Contains arg "=" then
        let parts := strings.SplitN arg "=" 2 in
        parseFlagsAndArgs (setFlag p (at_index parts 0) (at_index parts 1)) rest
      else
        match rest with
        | next :: rest' =>
            if negb (strings.HasPrefix next "-") then
              parseFlagsAndArgs (setFlag p arg next) rest'
            else parseFlagsAndArgs (setFlag p arg "true") rest
        | [] => parseFlagsAndArgs (setFlag p arg "true") rest
        end
    else parseFlagsAndArgs p (arg :: rest).
Proof. cbn [parseFlagsAndArgs]. by destruct (strings.HasPrefix arg "--"). Qed.

(** C4. A token that starts with [--] and contains [=] is split at its
    first [=] into the flag name and the value.  One without [=] takes
    the next token as its value, and consumes it, exactly when there is
    a next token and it does not start with [-]; otherwise its value
    is "true" and nothing is consumed.  The three sample remainders
    give "foo", "foo" and "true" for [--name]. *)
Theorem parseFlagsAndArgs_long_flag :
  (forall p arg rest,
      strings.HasPrefix arg "--" = true ->
      if strings.Contains arg "=" then
        exists name value,
          arg = name +:+ "=" +:+ value
          /\ strings.Contains name "=" = false
          /\ parseFlagsAndArgs p (arg :: rest)
             = parseFlagsAndArgs (setFlag p name value) rest
      else
        match rest with
        | next :: rest' =>
            if strings.HasPrefix next "-" then
              parseFlagsAndArgs p (arg :: rest)
              = parseFlagsAndArgs (setFlag p arg "true") (next :: rest')
            else
              parseFlagsAndArgs p (arg :: rest)
              = parseFlagsAndArgs (setFlag p arg next) rest'
        | [] => parseFlagsAndArgs p (arg :: rest) = setFlag p arg "true"
        end)
  /\ ParsedArgs_Flags (parseFlagsAndArgs emptyParsed ["--name=foo"]) !! "--name"
     = Some "foo"
  /\ ParsedArgs_Flags (parseFlagsAndArgs emptyParsed ["--name"; "foo"]) !! "--name"
     = Some "foo"
  /\ ParsedArgs_Flags (parseFlagsAndArgs emptyParsed ["--name"; "--other"]) !! "--name"
     = Some "true".
Proof.
  split; [|repeat split; vm_compute; reflexivity].
  intros p arg rest Hlong.
  destruct (strings.Contains arg "=") eqn:Heq.
  - destruct (SplitN_first_eq arg Heq) as (name & value & Hparts & Harg & Hname).
    exists name, value. repeat split; [done..|].
    rewrite parseFlagsAndArgs_long, Hlong, Heq, Hparts. reflexivity.
  - destruct rest as [|next rest'].
    + by rewrite parseFlagsAndArgs_long, Hlong, Heq.
    + destruct (strings.HasPrefix next "-") eqn:Hnext;
        by rewrite parseFlagsAndArgs_long, Hlong, Heq, Hnext.
Qed.

Lemma parseFlagsAndArgs_long_flag_witness :
  parseFlagsAndArgs emptyParsed ["--name"; "foo"; "bar"]
  = parseFlagsAndArgs (setFlag emptyParsed "--name" "foo") ["bar"].
Proof.
  apply (proj1 parseFlagsAndArgs_long_flag emptyParsed "--name" ["foo"; "bar"]).
  reflexivity.
Defined.

Lemma expandCompact_Positional p arg :
  ParsedArgs_Positional (expandCompact p arg) = ParsedArgs_Positional p.
Proof.
  unfold expandCompact. generalize (utf8.range (strings.drop 1 arg)) as runes.
  intros runes. revert p. induction runes as [|ch runes IH]; intros p; [done|].
  cbn [fold_left]. by rewrite IH.
Qed.

Lemma expandCompact_Flags p arg k :
  ParsedArgs_Flags (expandCompact p arg) !! k
  = if decide (k ∈ clusterKeys arg) then Some "true" else ParsedArgs_Flags p !! k.
Proof.
  unfold expandCompact, clusterKeys.
  generalize (utf8.range (strings.drop 1 arg)) as runes.
  intros runes. revert p. induction runes as [|ch runes IH]; intros p.
  - cbn [fold_left map]. case_decide as Hin; [|done]. by apply elem_of_nil in Hin.
  - cbn [fold_left map]. rewrite IH. cbn [setFlag ParsedArgs_Flags].
    set (key := "-" +:+ utf8.string_of_rune ch).
    destruct (decide (k ∈ map (fun ch => "-" +:+ utf8.string_of_rune ch) runes))
      as [Hin | Hout].
    + rewrite decide_True; [done | by apply elem_of_cons; right].
    + destruct (decide (k = key)) as [-> | Hne].
      * rewrite lookup_insert_eq, decide_True; [done | by apply elem_of_cons; left].
      * rewrite lookup_insert_ne by done.
        rewrite decide_False; [done|]. by intros [? | ?]%elem_of_cons.
Qed.

Lemma DecodeRuneInString_ascii c s :
  isASCII c = true -> utf8.DecodeRuneInString (String c s) = (utf8.byte c, 1%nat).
Proof.
  destruct c as [b0 b1 b2 b3 b4 b5 b6 b7].
  destruct b7; [by destruct b0, b1, b2, b3, b4, b5, b6|].
  intros _. destruct b0, b1, b2, b3, b4, b5, b6; reflexivity.
Qed.

Lemma string_of_rune_ascii c :
  isASCII c = true -> utf8.string_of_rune (utf8.byte c) = String c "".
Proof.
  destruct c as [b0 b1 b2 b3 b4 b5 b6 b7].
  destruct b7; [by destruct b0, b1, b2, b3, b4, b5, b6|].
  intros _. destruct b0, b1, b2, b3, b4, b5, b6; reflexivity.
Qed.

Lemma range_ascii s :
  forallb isASCII (list_ascii_of_string s) = true ->
  map utf8.string_of_rune (utf8.range s)
  = map (fun c => String c "") (list_ascii_of_string s).
Proof.
  unfold utf8.range. induction s as [|c s IH]; [done|].
  cbn [list_ascii_of_string forallb]. intros Hcs.
  apply andb_true_iff in Hcs as [Hc Hs].
  cbn [utf8.rangeFrom]. rewrite (DecodeRuneInString_ascii c s Hc).
  cbn [map Nat.sub]. by rewrite (string_of_rune_ascii c Hc), IH.
Qed.

Lemma clusterKeys_ascii arg :
  forallb isASCII (list_ascii_of_string (strings.drop 1 arg)) = true ->
  clusterKeys arg
  = map (fun c => String "-" (String c "")) (list_ascii_of_string (strings.drop 1 arg)).
Proof.
  intros Hascii. unfold clusterKeys.
  rewrite <- (map_map utf8.string_of_rune (fun s => "-" +:+ s)).
  rewrite (range_ascii _ Hascii). by rewrite map_map.
Qed.

(** A string has at most as many runes as bytes, so a token of more than
    two characters is also longer than two bytes. *)
Lemma rangeFrom_length skip s : length (utf8.rangeFrom skip s) <= String.length s.
Proof.
  revert skip. induction s as [|c s IH]; intros skip; [done|].
  cbn [utf8.rangeFrom String.length]. destruct skip as [|k].
  - destruct (utf8.DecodeRuneInString (String c s)) as [r size].
    cbn [length]. specialize (IH (size - 1)). lia.
  - specialize (IH k). lia.
Qed.

Lemma range_length s : length (utf8.range s) <= String.length s.
Proof. apply rangeFrom_length. Qed.

Lemma clusterKeys_abc : clusterKeys "-abc" = ["-a"; "-b"; "-c"].
Proof. reflexivity. Qed.

(** C5. A token that starts with a single dash and is longer than two
    bytes is expanded: every character after the dash becomes a flag
    with value "true", no other flag and no positional changes, and
    the tokens that follow are all still to be processed.  The keys are
    the dash followed by one character each (for ASCII text, one per
    byte).  The remainder ["-abc"] gives exactly the three flags [-a],
    [-b], [-c] and no positional. *)
Theorem parseFlagsAndArgs_compact :
  (forall p arg rest,
      strings.HasPrefix arg "-" = true ->
      strings.HasPrefix arg "--" = false ->
      (2 < String.length arg)%nat ->
      exists p',
        parseFlagsAndArgs p (arg :: rest) = parseFlagsAndArgs p' rest
        /\ ParsedArgs_Positional p' = ParsedArgs_Positional p
        /\ forall k,
             ParsedArgs_Flags p' !! k
             = if decide (k ∈ clusterKeys arg) then Some "true"
               else ParsedArgs_Flags p !! k)
  /\ (forall arg,
        forallb isASCII (list_ascii_of_string (strings.drop 1 arg)) = true ->
        clusterKeys arg
        = map (fun c => String "-" (String c ""))
            (list_ascii_of_string (strings.drop 1 arg)))
  /\ ParsedArgs_Flags (parseFlagsAndArgs emptyParsed ["-abc"])
     = <["-a" := "true"]> (<["-b" := "true"]> (<["-c" := "true"]> ∅))
  /\ ParsedArgs_Positional (parseFlagsAndArgs emptyParsed ["-abc"]) = [].
Proof.
  split; [|split; [exact clusterKeys_ascii | split; [|reflexivity]]].
  - intros p arg rest Hdash Hlong Hlen. exists (expandCompact p arg).
    split; [|split].
    + cbn [parseFlagsAndArgs]. rewrite Hlong, Hdash.
      replace (1 <? String.length arg)%nat with true
        by (symmetry; apply Nat.ltb_lt; lia).
      replace (String.length arg =? 2)%nat with false
        by (symmetry; apply Nat.eqb_neq; lia).
      reflexivity.
    + apply expandCompact_Positional.
    + apply expandCompact_Flags.
  - apply map_eq. intros k.
    change (parseFlagsAndArgs emptyParsed ["-abc"]) with (expandCompact emptyParsed "-abc").
    rewrite expandCompact_Flags, clusterKeys_abc.
    case_decide as Hin.
    + apply list_elem_of_In in Hin. simpl in Hin.
      destruct Hin as [<- | [<- | [<- | []]]]; reflexivity.
    + rewrite !lookup_insert_ne; [done | | |]; intros <-; apply Hin;
        apply list_elem_of_In; simpl; tauto.
Qed.

Lemma parseFlagsAndArgs_compact_witness :
  exists p',
    parseFlagsAndArgs emptyParsed ["-xz"; "value"] = parseFlagsAndArgs p' ["value"]
    /\ ParsedArgs_Positional p' = []
    /\ forall k,
         ParsedArgs_Flags p' !! k
         = if decide (k ∈ clusterKeys "-xz") then Some "true" else None.
Proof.
  apply (proj1 parseFlagsAndArgs_compact emptyParsed "-xz" ["value"]).
  - reflexivity.
  - reflexivity.
  - simpl. lia.
Defined.

End tokenizer.

(** ** Validator *)

Section validator.
Import commandmodel runtime.

Lemma checkRequiredArgs_find args parsed :
  checkRequiredArgs args parsed
  = (fun arg => mkValidateResult false ("missing required argument: " +:+ Arg_Name arg) 2)
      <$> find (argMissing parsed) args.
Proof.
  induction args as [|arg args IH]; [done|].
  cbn [checkRequiredArgs find]. fold (argMissing parsed arg).
  by destruct (argMissing parsed arg).
Qed.

Lemma checkRequiredFlags_find flags parsed :
  checkRequiredFlags flags parsed
  = (fun flag => mkValidateResult false ("missing required flag: " +:+ flagLabel flag) 2)
      <$> find (flagMissing parsed) flags.
Proof.
  induction flags as [|flag flags IH]; [done|].
  cbn [checkRequiredFlags find]. fold (flagMissing parsed flag).
  by destruct (flagMissing parsed flag).
Qed.

Lemma checkAllowedValues_find flags parsed :
  checkAllowedValues flags parsed
  = (fun flag => mkValidateResult false
                   ("invalid value for " +:+ flagLabel flag +:+ ": "
                    +:+ flagValue parsed flag) 2)
      <$> find (flagRejected parsed) flags.
Proof.
  induction flags as [|flag flags IH]; [done|].
  cbn [checkAllowedValues find]. unfold flagRejected at 1.
  destruct (Flag_Allowed flag) as [|a allowed]; cbn [length Nat.ltb Nat.leb Nat.eqb negb].
  - rewrite !andb_false_r. cbn [andb]. exact IH.
  - destruct (negb _ && true && negb _); [done | exact IH].
Qed.

Lemma ValidateParsed_spec cmd parsed :
  ValidateParsed cmd parsed = validate_spec cmd parsed.
Proof.
  unfold ValidateParsed, validate_spec.
  rewrite checkRequiredArgs_find, checkRequiredFlags_find, checkAllowedValues_find.
  destruct (find (argMissing parsed) _); [done|].
  destruct (find (flagMissing parsed) _); [done|].
  by destruct (find (flagRejected parsed) _).
Qed.

(** C2. Validation is the three checks in the order required
    arguments, required flags, allowed values; the first failure is
    the result, with exit code 2, and passing all three gives the valid
    result with empty message and exit code 0.  On the scenario
    command the four inputs give, in turn, the missing argument, the
    missing flag, the rejected value and success. *)
Theorem ValidateParsed_three_checks :
  (forall cmd parsed,
      ValidateParsed cmd parsed = validate_spec cmd parsed
      /\ (ValidateParsed cmd parsed = mkValidateResult true "" 0
          \/ (Valid (ValidateParsed cmd parsed) = false
              /\ ExitCode (ValidateParsed cmd parsed) = 2%Z)))
  /\ ValidateParsed copyCommand (parsedWith [] ∅)
     = mkValidateResult false "missing required argument: src" 2
  /\ ValidateParsed copyCommand (parsedWith ["src"] ∅)
     = mkValidateResult false "missing required flag: --out" 2
  /\ ValidateParsed copyCommand (parsedWith ["src"] {["--out" := "c"]})
     = mkValidateResult false "invalid value for --out: c" 2
  /\ ValidateParsed copyCommand (parsedWith ["src"] {["--out" := "a"]})
     = mkValidateResult true "" 0.
Proof.
  split; [|repeat split; vm_compute; reflexivity].
  intros cmd parsed. split; [apply ValidateParsed_spec|].
  rewrite ValidateParsed_spec. unfold validate_spec.
  destruct (find (argMissing parsed) _); [by right|].
  destruct (find (flagMissing parsed) _); [by right|].
  destruct (find (flagRejected parsed) _); [by right | by left].
Qed.

Lemma flagAt_withoutFlag parsed k k' :
  ParsedArgs_Flags parsed !! k = Some "" ->
  flagAt (withoutFlag parsed k) k' = flagAt parsed k'.
Proof.
  intros Hk. unfold flagAt, withoutFlag. cbn [ParsedArgs_Flags].
  destruct (decide (k = k')) as [<- | Hne].
  - by rewrite lookup_delete_eq, Hk.
  - by rewrite lookup_delete_ne.
Qed.

Lemma ValidateParsed_ext cmd p1 p2 :
  (forall k, flagAt p1 k = flagAt p2 k) ->
  ParsedArgs_Positional p1 = ParsedArgs_Positional p2 ->
  ValidateParsed cmd p1 = ValidateParsed cmd p2.
Proof.
  intros Hflags Hpos.
  assert (Hvalue : forall flag, flagValue p1 flag = flagValue p2 flag).
  { intros flag. unfold flagValue. by rewrite !Hflags. }
  unfold ValidateParsed.
  assert (checkRequiredArgs (Command_Args cmd) p1
          = checkRequiredArgs (Command_Args cmd) p2) as ->.
  { induction (Command_Args cmd) as [|arg args IH]; [done|].
    cbn [checkRequiredArgs]. by rewrite Hpos, IH. }
  assert (checkRequiredFlags (Command_Flags cmd) p1
          = checkRequiredFlags (Command_Flags cmd) p2) as ->.
  { induction (Command_Flags cmd) as [|flag flags IH]; [done|].
    cbn [checkRequiredFlags]. by rewrite Hvalue, IH. }
  assert (checkAllowedValues (Command_Flags cmd) p1
          = checkAllowedValues (Command_Flags cmd) p2) as ->; [|done].
  induction (Command_Flags cmd) as [|flag flags IH]; [done|].
  cbn [checkAllowedValues]. by rewrite Hvalue, IH.
Qed.

Lemma find_flagMissing parsed flags flag :
  In flag flags -> flagMissing parsed flag = true ->
  exists first, find (flagMissing parsed) flags = Some first.
Proof.
  intros Hin Hmiss. destruct (find (flagMissing parsed) flags) as [first|] eqn:Hfind.
  - by exists first.
  - by rewrite (find_none _ _ Hfind flag Hin) in Hmiss.
Qed.

Lemma checkAllowedValues_skips_empty flags parsed :
  checkAllowedValues flags parsed
  = checkAllowedValues
      (List.filter (fun flag => negb (String.eqb (flagValue parsed flag) "")) flags)
      parsed.
Proof.
  induction flags as [|flag flags IH]; [done|].
  cbn [List.filter checkAllowedValues].
  destruct (String.eqb (flagValue parsed flag) "") eqn:Hempty; cbn [negb andb].
  - exact IH.
  - cbn [checkAllowedValues]. rewrite Hempty. cbn [negb andb]. by rewrite IH.
Qed.

(** C10. An entry of the flag map whose value is the empty string
    counts as no entry: removing it never changes the verdict.  So a
    required flag whose long and short tokens both read as empty fails
    the required-flag check with the missing-flag message and exit
    code 2 (once the required arguments are present), the
    allowed-values check passes over every flag whose value is empty,
    and [--out=] on the command line is reported as a missing
    [--out]. *)
Theorem ValidateParsed_empty_value :
  (forall cmd parsed k,
      ParsedArgs_Flags parsed !! k = Some "" ->
      ValidateParsed cmd parsed = ValidateParsed cmd (withoutFlag parsed k))
  /\ (forall cmd parsed flag,
        In flag (Command_Flags cmd) ->
        Flag_Required flag = true ->
        flagAt parsed (Flag_Long flag) = "" ->
        flagAt parsed (Flag_Short flag) = "" ->
        checkRequiredArgs (Command_Args cmd) parsed = None ->
        exists first,
          find (flagMissing parsed) (Command_Flags cmd) = Some first
          /\ ValidateParsed cmd parsed
             = mkValidateResult false ("missing required flag: " +:+ flagLabel first) 2)
  /\ (forall flags parsed,
        checkAllowedValues flags parsed
        = checkAllowedValues
            (List.filter (fun flag => negb (String.eqb (flagValue parsed flag) "")) flags)
            parsed)
  /\ (let parsed := parseFlagsAndArgs (parsedWith [] ∅) ["src"; "--out="] in
      ParsedArgs_Flags parsed !! "--out" = Some ""
      /\ ValidateParsed copyCommand parsed
         = mkValidateResult false "missing required flag: --out" 2).
Proof.
  split; [|split; [|split; [exact checkAllowedValues_skips_empty|]]].
  - intros cmd parsed k Hk. symmetry. apply ValidateParsed_ext; [|done].
    intros k'. by apply flagAt_withoutFlag.
  - intros cmd parsed flag Hin Hreq Hlong Hshort Hargs.
    assert (Hmiss : flagMissing parsed flag = true).
    { unfold flagMissing, flagValue. by rewrite Hreq, Hlong, Hshort. }
    destruct (find_flagMissing parsed _ flag Hin Hmiss) as [first Hfirst].
    exists first. split; [done|].
    unfold ValidateParsed. by rewrite Hargs, checkRequiredFlags_find, Hfirst.
  - split; vm_compute; reflexivity.
Qed.

Lemma ValidateParsed_empty_value_witness :
  ValidateParsed copyCommand (parsedWith ["src"] {["--out" := ""]})
  = ValidateParsed copyCommand
      (withoutFlag (parsedWith ["src"] {["--out" := ""]}) "--out")
  /\ exists first,
       find (flagMissing (parsedWith ["src"] {["--out" := ""]}))
         (Command_Flags copyCommand) = Some first
       /\ ValidateParsed copyCommand (parsedWith ["src"] {["--out" := ""]})
          = mkValidateResult false ("missing required flag: " +:+ flagLabel first) 2.
Proof.
  split.
  - apply (proj1 ValidateParsed_empty_value). reflexivity.
  - apply (proj1 (proj2 ValidateParsed_empty_value) copyCommand
             (parsedWith ["src"] {["--out" := ""]})
             (mkFlag "--out" "" true ["a"; "b"] false)).
    + simpl. tauto.
    + reflexivity.
    + reflexivity.
    + reflexivity.
    + reflexivity.
Defined.

End validator.

(** ** Command tree builder *)

Section builder_facts.
Import settings commandmodel.
Context `{PathLib}.

(** Structural induction on configuration values that reaches the
    members of lists and the values of mappings. *)
Lemma any_deep_ind (P : any -> Prop) :
  P VNil -> (forall s, P (VString s)) -> (forall b, P (VBool b)) ->
  (forall z, P (VInt z)) ->
  (forall l, Forall P l -> P (VList l)) ->
  (forall m, Forall (fun kv => P (snd kv)) m -> P (VMap m)) ->
  forall v, P v.
Proof.
  intros Hnil Hstring Hbool Hint Hlist Hmap.
  fix IH 1. intros [| s | b | z | l | m].
  - exact Hnil.
  - exact (Hstring s).
  - exact (Hbool b).
  - exact (Hint z).
  - apply Hlist. induction l as [|x l IHl]; constructor; [apply IH | exact IHl].
  - apply Hmap. induction m as [|[k x] m IHm]; constructor; [apply IH | exact IHm].
Qed.

Lemma with_key_lookup {A : Type} m k (absent : A) present :
  with_key m k absent present
  = match lookup_key m k with Some v => present v | None => absent end.
Proof.
  induction m as [|[k' v] m IH]; [done|].
  cbn [with_key lookup_key] in *. by destruct (String.eqb k' k).
Qed.

Lemma lookup_key_Forall (P : any -> Prop) m k v :
  Forall (fun kv => P (snd kv)) m -> lookup_key m k = Some v -> P v.
Proof.
  induction 1 as [|[k' x] m Hx _ IH]; [done|].
  cbn [lookup_key]. destruct (String.eqb k' k); [|done].
  by intros [= <-].
Qed.

(** Induction along the recursion of [buildChildren]: a mapping may
    assume the property of every member of the list under its
    [commands] key. *)
Lemma any_entry_ind (P : any -> Prop) :
  (forall raw, (forall opts, raw <> VMap opts) -> P raw) ->
  (forall opts,
      (forall l, lookup_key opts "commands" = Some (VList l) -> Forall P l) ->
      P (VMap opts)) ->
  forall raw, P raw.
Proof.
  intros Hother Hmapping raw.
  cut (P raw /\ forall l, raw = VList l -> Forall P l); [tauto|].
  induction raw as [| | | |l IH|opts IH] using any_deep_ind;
    try (split; [by apply Hother | done]).
  - split; [by apply Hother|]. intros l' [= <-].
    eapply Forall_impl; [exact IH|]. by intros x [Hx _].
  - split; [|done]. apply Hmapping. intros l Hl.
    by apply (lookup_key_Forall
                (fun v => P v /\ forall l, v = VList l -> Forall P l)
                opts "commands" (VList l) IH Hl).
Qed.

(** The loop body of [buildChildren] on a mapping, with the recursive
    call spelled as in the source. *)
Lemma buildChild_mapping st parent i opts :
  buildChild st parent i (VMap opts) =
    let name := fst (asString (index_key opts "name")) in
    if String.eqb name "" then
      Err ("commands[" +:+ itoa i +:+ "].name is required")
    else
      let cmd := childCommand opts parent name st in
      match lookup_key opts "commands" with
      | None => Ok cmd
      | Some (VList subList) =>
          match buildChildren subList cmd st with
          | Err e => Err e
          | Ok children => Ok (set_Commands cmd children)
          end
      | Some _ => Err (Command_FullName cmd +:+ ".commands must be a list")
      end.
Proof.
  cbn [buildChild]. cbv zeta.
  destruct (String.eqb _ ""); [done|].
  rewrite with_key_lookup.
  by destruct (lookup_key opts "commands") as [[]|].
Qed.

Lemma buildChild_not_mapping st parent i raw :
  (forall opts, raw <> VMap opts) ->
  buildChild st parent i raw = Err ("commands[" +:+ itoa i +:+ "] must be a mapping").
Proof. intros Hraw. destruct raw; try done. by destruct (Hraw m). Qed.

Lemma eachChild_cons step i raw l :
  eachChild step i (raw :: l) =
    match step i raw with
    | Err e => Err e
    | Ok cmd =>
        match eachChild step (S i) l with
        | Err e => Err e
        | Ok out => Ok (cmd :: out)
        end
    end.
Proof. reflexivity. Qed.

(** After a prefix that builds, the loop is at the index that follows
    it. *)
Lemma eachChild_app step i pre out l :
  eachChild step i pre = Ok out ->
  eachChild step i (pre ++ l) =
    match eachChild step (i + length pre) l with
    | Err e => Err e
    | Ok out' => Ok (out ++ out')
    end.
Proof.
  revert i out. induction pre as [|raw pre IH]; intros i out.
  - intros [= <-]. cbn [app length]. rewrite Nat.add_0_r.
    by destruct (eachChild step i l).
  - rewrite <- app_comm_cons, !eachChild_cons.
    destruct (step i raw) as [cmd|]; [|done].
    destruct (eachChild step (S i) pre) as [out0|] eqn:Hpre; [|done].
    intros [= <-]. rewrite (IH _ _ Hpre). cbn [length].
    replace (S i + length pre) with (i + S (length pre)) by lia.
    by destruct (eachChild step _ l).
Qed.

(** Every command the loop returns was built from a member of the list. *)
Lemma eachChild_members step i l out :
  eachChild step i l = Ok out ->
  Forall (fun cmd => exists j raw, In raw l /\ step j raw = Ok cmd) out.
Proof.
  revert i out. induction l as [|raw l IH]; intros i out.
  - intros [= <-]. constructor.
  - rewrite eachChild_cons.
    destruct (step i raw) as [cmd|] eqn:Hcmd; [|done].
    destruct (eachChild step (S i) l) as [out0|] eqn:Hl; [|done].
    intros [= <-]. constructor.
    + exists i, raw. split; [by left | done].
    + eapply Forall_impl; [exact (IH _ _ Hl)|].
      intros c (j & x & Hin & Hx). exists j, x. split; [by right | done].
Qed.

Lemma entryOK_mapping opts :
  entryOK (VMap opts) =
    negb (String.eqb (fst (asString (index_key opts "name"))) "")
    && match lookup_key opts "commands" with
       | None => true
       | Some (VList l) => forallb entryOK l
       | Some _ => false
       end.
Proof. cbn [entryOK]. by rewrite with_key_lookup. Qed.

Lemma badEntry_not_OK raw : badEntry raw -> entryOK raw = false.
Proof.
  revert raw.
  apply (badEntry_mut
           (fun v => forall l, v = VList l -> forallb entryOK l = false)
           (fun raw => entryOK raw = false)).
  - intros v Hv l ->. by destruct (Hv l).
  - intros l raw Hin _ Hraw l' [= <-].
    apply not_true_is_false. intros Hall.
    rewrite forallb_forall in Hall. by rewrite (Hall raw Hin) in Hraw.
  - intros raw Hraw. destruct raw; try done. by destruct (Hraw m).
  - intros opts Hname. by rewrite entryOK_mapping, Hname.
  - intros opts sub Hsub Hbad IH. rewrite entryOK_mapping, Hsub.
    destruct sub; rewrite ?andb_false_r; try done.
    by rewrite (IH l eq_refl), andb_false_r.
Qed.

Lemma badCommands_not_OK l : badCommands (VList l) -> forallb entryOK l = false.
Proof.
  inversion 1 as [v Hv | l' raw Hin Hraw]; subst.
  - by destruct (Hv l).
  - apply not_true_is_false. intros Hall. rewrite forallb_forall in Hall.
    pose proof (Hall raw Hin) as Hok. by rewrite (badEntry_not_OK raw Hraw) in Hok.
Qed.

Lemma forallb_false_member {A : Type} (ok : A -> bool) l :
  forallb ok l = false -> exists x, In x l /\ ok x = false.
Proof.
  induction l as [|x l IH]; [done|]. cbn [forallb].
  destruct (ok x) eqn:Hx.
  - intros (y & Hin & Hy)%IH. exists y. split; [by right | done].
  - intros _. exists x. split; [by left | done].
Qed.

Lemma not_OK_badEntry raw : entryOK raw = false -> badEntry raw.
Proof.
  induction raw as [raw Hraw | opts IH] using any_entry_ind;
    [intros _; by apply bad_not_mapping|].
  rewrite entryOK_mapping.
  destruct (String.eqb_spec (fst (asString (index_key opts "name"))) "") as [Hname|_];
    [intros _; by apply bad_name|].
  cbn [negb andb].
  destruct (lookup_key opts "commands") as [sub|] eqn:Hsub; [|done].
  intros Hbad. apply (bad_nested opts sub Hsub).
  destruct sub as [| | | |l|]; try (by apply bad_not_list).
  destruct (forallb_false_member _ _ Hbad) as (raw & Hin & Hraw).
  apply (bad_member l raw Hin).
  specialize (IH l eq_refl). rewrite List.Forall_forall in IH. by apply IH.
Qed.

Lemma malformed_iff cfg : malformed cfg <-> commandsOK cfg = false.
Proof.
  unfold malformed, commandsOK. split.
  - intros (cmds & -> & Hbad).
    destruct cmds as [| | | |l|]; try done. by apply badCommands_not_OK.
  - destruct (lookup_key cfg "commands") as [cmds|]; [|done].
    intros Hbad. exists cmds. split; [done|].
    destruct cmds as [| | | |l|]; try (by apply bad_not_list).
    destruct (forallb_false_member _ _ Hbad) as (raw & Hin & Hraw).
    apply (bad_member l raw Hin). by apply not_OK_badEntry.
Qed.

(** *** The builder fails exactly on the structural faults *)

Lemma eachChild_decides l :
  Forall decides l ->
  forall st parent i,
    match eachChild (buildChild st parent) i l with
    | Ok _ => forallb entryOK l = true
    | Err _ => forallb entryOK l = false
    end.
Proof.
  induction 1 as [|raw l Hraw _ IH]; intros st parent i; [done|].
  rewrite eachChild_cons. cbn [forallb].
  specialize (Hraw st parent i). specialize (IH st parent (S i)).
  destruct (buildChild st parent i raw); rewrite Hraw; [|done].
  by destruct (eachChild _ (S i) l).
Qed.

Lemma buildChild_decides raw : decides raw.
Proof.
  induction raw as [raw Hraw | opts IH] using any_entry_ind; intros st parent i.
  - rewrite buildChild_not_mapping by done. by destruct raw; try done; destruct (Hraw m).
  - rewrite buildChild_mapping, entryOK_mapping. cbv zeta.
    destruct (String.eqb _ ""); [done|]. cbn [negb andb].
    destruct (lookup_key opts "commands") as [sub|]; [|done].
    destruct sub as [| | | |l|]; try done.
    pose proof (eachChild_decides l (IH l eq_refl) st
                  (childCommand opts parent (fst (asString (index_key opts "name"))) st) 0)
      as Hl.
    unfold buildChildren. by destruct (eachChild _ 0 l).
Qed.

Lemma buildChildren_decides items parent st :
  match buildChildren items parent st with
  | Ok _ => forallb entryOK items = true
  | Err _ => forallb entryOK items = false
  end.
Proof.
  apply eachChild_decides. apply List.Forall_forall. intros raw _.
  apply buildChild_decides.
Qed.

Lemma BuildFromConfigMap_decides cfg st :
  match BuildFromConfigMap cfg st with
  | Ok _ => commandsOK cfg = true
  | Err _ => commandsOK cfg = false
  end.
Proof.
  unfold BuildFromConfigMap, commandsOK. cbv zeta.
  destruct (lookup_key cfg "commands") as [cmds|]; [|done].
  destruct cmds as [| | | |items|]; try done.
  match goal with
  | |- context [buildChildren items ?root st] =>
      pose proof (buildChildren_decides items root st) as Hitems;
      by destruct (buildChildren items root st)
  end.
Qed.

(** C7. When the command structure of a configuration has, at any
    depth, a [commands] value that is not a list, a member that is not
    a mapping, or a member without a non-empty string [name], the
    build returns an error and therefore no tree.  An entry without a
    name that follows acceptable entries is reported with its index in
    the list; the samples show index 1 at top level and the error for
    a nested [commands] that is not a list. *)
Theorem BuildFromConfigMap_structural_errors :
  (forall cfg st,
      malformed cfg -> exists msg, BuildFromConfigMap cfg st = Err msg)
  /\ (forall st parent pre opts post,
        forallb entryOK pre = true ->
        fst (asString (index_key opts "name")) = "" ->
        buildChildren (pre ++ VMap opts :: post) parent st
        = Err ("commands[" +:+ itoa (length pre) +:+ "].name is required"))
  /\ (forall st,
        BuildFromConfigMap
          [("commands",
            VList [VMap [("name", VString "a")]; VMap [("description", VString "x")]])]
          st
        = Err "commands[1].name is required")
  /\ (forall st,
        BuildFromConfigMap
          [("commands",
            VList [VMap [("name", VString "a"); ("commands", VString "b")]])]
          st
        = Err "root a.commands must be a list").
Proof.
  split; [|split; [|split]].
  - intros cfg st Hbad%malformed_iff.
    pose proof (BuildFromConfigMap_decides cfg st) as Hcfg.
    destruct (BuildFromConfigMap cfg st) as [root|msg]; [congruence|by exists msg].
  - intros st parent pre opts post Hpre Hname. unfold buildChildren.
    pose proof (buildChildren_decides pre parent st) as Hout.
    unfold buildChildren in Hout.
    destruct (eachChild (buildChild st parent) 0 pre) as [out|] eqn:Hbuilt;
      [|congruence].
    rewrite (eachChild_app _ _ _ _ _ Hbuilt), eachChild_cons, buildChild_mapping.
    cbv zeta. by rewrite Hname.
  - intros st. vm_compute. reflexivity.
  - intros st. vm_compute. reflexivity.
Qed.

(** *** Lenient parsing of declarations *)

Lemma collect_app {A : Type} (entry : any -> option A) l1 l2 :
  collect entry (l1 ++ l2) = collect entry l1 ++ collect entry l2.
Proof.
  induction l1 as [|raw l1 IH]; [done|].
  cbn [app collect]. destruct (entry raw); [|done]. by rewrite IH.
Qed.

Lemma collect_skip {A : Type} (entry : any -> option A) pre raw post :
  entry raw = None ->
  collect entry (pre ++ raw :: post) = collect entry (pre ++ post).
Proof. intros Hraw. rewrite !collect_app. cbn [collect]. by rewrite Hraw. Qed.

Lemma collect_keep {A : Type} (entry : any -> option A) pre raw post x :
  entry raw = Some x ->
  collect entry (pre ++ raw :: post) = collect entry pre ++ x :: collect entry post.
Proof. intros Hraw. rewrite collect_app. cbn [collect]. by rewrite Hraw. Qed.

Lemma collect_length {A : Type} (entry : any -> option A) l :
  length (collect entry l) <= length l.
Proof.
  induction l as [|raw l IH]; [done|].
  cbn [collect]. destruct (entry raw); cbn [length]; lia.
Qed.

Lemma entries_not_mapping raw :
  (forall opts, raw <> VMap opts) ->
  parseArg raw = None /\ parseFlag raw = None /\ parseEnvVar raw = None.
Proof. intros Hraw. destruct raw; try done. by destruct (Hraw m). Qed.

(** The inner loop of [parseFlags] keeps the string members of
    [allowed], in order, and nothing else. *)
Lemma allowedStrings_omap arr :
  allowedStrings arr
  = omap (fun a => match a with VString x => Some x | _ => None end) arr.
Proof.
  induction arr as [|a arr IH]; [done|].
  destruct a; cbn [allowedStrings omap list_omap]; try done. by rewrite IH.
Qed.

Lemma entries_unnamed opts :
  fst (asString (index_key opts "name")) = "" ->
  parseArg (VMap opts) = None /\ parseEnvVar (VMap opts) = None.
Proof. intros Hname. cbn [parseArg parseEnvVar]. by rewrite Hname. Qed.

(** C8. Parsing the declared arguments, flags and environment
    variables cannot fail the build.  A value that is not a list gives
    the empty list; a member that is not a mapping is left out of all
    three lists, and so is an argument or environment variable whose
    [name] is missing or empty, the other members being kept in order;
    a flag written as a mapping is always kept, whatever its keys, as
    one flag at its place in the list, with the fields read from the
    mapping and the string members of [allowed]; the result is never
    longer than the list written.  Whatever is
    written under the three keys, a configuration whose command
    structure is sound builds, and its root carries the parsed
    lists. *)
Theorem declarations_parsed_leniently :
  (forall v,
      (forall l, v <> VList l) ->
      parseArgs v = [] /\ parseFlags v = [] /\ parseEnvVars v = [])
  /\ (forall pre raw post,
        (forall opts, raw <> VMap opts) ->
        parseArgs (VList (pre ++ raw :: post)) = parseArgs (VList (pre ++ post))
        /\ parseFlags (VList (pre ++ raw :: post)) = parseFlags (VList (pre ++ post))
        /\ parseEnvVars (VList (pre ++ raw :: post)) = parseEnvVars (VList (pre ++ post)))
  /\ (forall pre opts post,
        fst (asString (index_key opts "name")) = "" ->
        parseArgs (VList (pre ++ VMap opts :: post)) = parseArgs (VList (pre ++ post))
        /\ parseEnvVars (VList (pre ++ VMap opts :: post))
           = parseEnvVars (VList (pre ++ post)))
  /\ (forall pre opts post,
        fst (asString (index_key opts "name")) <> "" ->
        parseArgs (VList (pre ++ VMap opts :: post))
        = parseArgs (VList pre)
          ++ mkArg (fst (asString (index_key opts "name")))
               (fst (asBool (index_key opts "required")))
             :: parseArgs (VList post)
        /\ parseEnvVars (VList (pre ++ VMap opts :: post))
           = parseEnvVars (VList pre)
             ++ mkEnvVar (fst (asString (index_key opts "name")))
                  (fst (asBool (index_key opts "private")))
                :: parseEnvVars (VList post))
  /\ (forall pre opts post,
        parseFlags (VList (pre ++ VMap opts :: post))
        = parseFlags (VList pre)
          ++ mkFlag (fst (asString (index_key opts "long")))
               (fst (asString (index_key opts "short")))
               (fst (asBool (index_key opts "required")))
               (match lookup_key opts "allowed" with
                | Some (VList arr) =>
                    omap (fun a => match a with VString x => Some x | _ => None end) arr
                | _ => []
                end)
               (fst (asBool (index_key opts "private")))
             :: parseFlags (VList post))
  /\ (forall l,
        length (parseArgs (VList l)) <= length l
        /\ length (parseFlags (VList l)) <= length l
        /\ length (parseEnvVars (VList l)) <= length l)
  /\ (forall cfg st,
        ~ malformed cfg ->
        exists root,
          BuildFromConfigMap cfg st = Ok root
          /\ Command_Args root = parseArgs (index_key cfg "args")
          /\ Command_Flags root = parseFlags (index_key cfg "flags")
          /\ Command_EnvVars root
             = parseEnvVars (index_key cfg "environment_variables")).
Proof.
  repeat apply conj.
  - intros v Hv. destruct v; try done. by destruct (Hv l).
  - intros pre raw post Hraw.
    destruct (entries_not_mapping raw Hraw) as (Harg & Hflag & Henv).
    cbn [parseArgs parseFlags parseEnvVars]. by rewrite !collect_skip.
  - intros pre opts post Hname.
    destruct (entries_unnamed opts Hname) as (Harg & Henv).
    cbn [parseArgs parseEnvVars]. by rewrite !collect_skip.
  - intros pre opts post Hname. apply String.eqb_neq in Hname.
    cbn [parseArgs parseEnvVars]. split; apply collect_keep.
    + cbn [parseArg]. by rewrite Hname.
    + cbn [parseEnvVar]. by rewrite Hname.
  - intros pre opts post. cbn [parseFlags]. apply collect_keep.
    cbn [parseFlag]. cbv zeta. do 2 f_equal.
    destruct (lookup_key opts "allowed") as [[| | | |arr|]|]; try done.
    apply allowedStrings_omap.
  - intros l. cbn [parseArgs parseFlags parseEnvVars].
    repeat split; apply collect_length.
  - intros cfg st Hcfg.
    pose proof (BuildFromConfigMap_decides cfg st) as Hdec.
    destruct (BuildFromConfigMap cfg st) as [root|msg] eqn:Hbuild;
      [|by destruct Hcfg; apply malformed_iff].
    exists root. split; [done|].
    unfold BuildFromConfigMap in Hbuild. cbv zeta in Hbuild.
    destruct (lookup_key cfg "commands") as [cmds|]; [|by injection Hbuild as <-].
    destruct cmds as [| | | |items|]; try done.
    destruct (buildChildren items _ st); [|done]. by injection Hbuild as <-.
Qed.

(** *** Action names *)

Lemma deepCommandsFrom_unfold c :
  deepCommandsFrom c = c :: flat_map deepCommandsFrom (Command_Commands c).
Proof. by destruct c. Qed.

(** For a non-empty parent chain the two last cases of
    [computeActionName] agree. *)
Lemma computeActionName_below first rest name :
  computeActionName (first :: rest) name = strings.Join (rest ++ [name]) " ".
Proof. by destruct rest. Qed.

Lemma namedBelow_step c child d :
  Command_Parents child = Command_Parents c ++ [Command_Name c] ->
  namedBelow child d -> namedBelow c d.
Proof.
  intros Hchild ((tail & Hd) & Haction & Hchildren).
  split; [|done]. exists ([Command_Name c] ++ tail).
  by rewrite Hd, Hchild, <- app_assoc.
Qed.

Lemma buildChild_names raw :
  forall st parent i c,
    buildChild st parent i raw = Ok c ->
    Command_Parents c = Command_Parents parent ++ [Command_Name parent]
    /\ Forall (namedBelow c) (deepCommandsFrom c).
Proof.
  induction raw as [raw Hraw | opts IH] using any_entry_ind; intros st parent i c.
  { by rewrite buildChild_not_mapping. }
  rewrite buildChild_mapping. cbv zeta.
  destruct (String.eqb _ ""); [done|].
  set (cmd := childCommand opts parent _ st).
  destruct (lookup_key opts "commands") as [sub|].
  - destruct sub as [| | | |l|]; try done.
    destruct (buildChildren l cmd st) as [children|] eqn:Hchildren; [|done].
    intros [= <-]. split; [done|].
    apply eachChild_members in Hchildren.
    assert (Hbelow : Forall (fun child =>
              Command_Parents child = Command_Parents cmd ++ [Command_Name cmd]
              /\ Forall (namedBelow child) (deepCommandsFrom child)) children).
    { eapply Forall_impl; [exact Hchildren|].
      intros child (j & x & Hin & Hx). cbv beta in Hx.
      specialize (IH l eq_refl). rewrite List.Forall_forall in IH.
      exact (IH x Hin st cmd j child Hx). }
    rewrite deepCommandsFrom_unfold. cbn [set_Commands Command_Commands].
    constructor.
    + split; [by exists []; rewrite app_nil_r|]. split; [done|].
      cbn [set_Commands Command_Commands Command_Parents Command_Name].
      eapply Forall_impl; [exact Hbelow|]. by intros child [Hparents _].
    + apply List.Forall_forall. intros d (child & Hchild & Hd)%in_flat_map.
      rewrite List.Forall_forall in Hbelow.
      destruct (Hbelow child Hchild) as [Hparents Hsub].
      rewrite List.Forall_forall in Hsub.
      by apply (namedBelow_step _ child d Hparents), Hsub.
  - intros [= <-]. split; [done|].
    rewrite deepCommandsFrom_unfold. cbn [flat_map].
    repeat constructor. by exists []; rewrite app_nil_r.
Qed.

Lemma BuildFromConfigMap_children cfg st root :
  BuildFromConfigMap cfg st = Ok root ->
  Command_ActionName root = "root"
  /\ Forall (fun c =>
               Command_Parents c = [Command_Name root]
               /\ Forall (namedBelow c) (deepCommandsFrom c))
       (Command_Commands root).
Proof.
  unfold BuildFromConfigMap. cbv zeta.
  destruct (lookup_key cfg "commands") as [cmds|];
    [|intros [= <-]; split; [done | constructor]].
  destruct cmds as [| | | |items|]; try done.
  match goal with
  | |- context [buildChildren items ?r st] => set (root0 := r)
  end.
  destruct (buildChildren items root0 st) as [children|] eqn:Hchildren; [|done].
  intros [= <-]. split; [done|].
  cbn [set_Commands Command_Commands Command_Name].
  apply eachChild_members in Hchildren.
  eapply Forall_impl; [exact Hchildren|].
  intros c (j & raw & _ & Hc). cbv beta in Hc.
  by apply buildChild_names in Hc.
Qed.

(** C6. In every tree that is built, the root has the action name
    "root"; a child of the root has the root's name as its only parent
    and its own name as action name; every node below the root has a
    parent chain that starts with the root's name, and its action name
    is the rest of the chain and its own name joined by spaces; so a
    grandchild [g] under the child [c] has the action name "c g". *)
Theorem actionName_of_built_tree cfg st root :
  BuildFromConfigMap cfg st = Ok root ->
  Command_ActionName root = "root"
  /\ (forall c,
        In c (Command_Commands root) ->
        Command_Parents c = [Command_Name root]
        /\ Command_ActionName c = Command_Name c)
  /\ (forall d,
        In d (DeepCommands root false) ->
        exists rest,
          Command_Parents d = Command_Name root :: rest
          /\ Command_ActionName d = strings.Join (rest ++ [Command_Name d]) " ")
  /\ (forall c g,
        In c (Command_Commands root) ->
        In g (Command_Commands c) ->
        Command_Parents g = [Command_Name root; Command_Name c]
        /\ Command_ActionName g = Command_Name c +:+ " " +:+ Command_Name g).
Proof.
  intros (Hroot & Hchildren)%BuildFromConfigMap_children.
  rewrite List.Forall_forall in Hchildren.
  assert (Hself : forall c, In c (Command_Commands root) -> namedBelow c c).
  { intros c Hc. destruct (Hchildren c Hc) as [_ Hsub].
    rewrite List.Forall_forall in Hsub. apply Hsub.
    rewrite deepCommandsFrom_unfold. by left. }
  split; [done|]. split; [|split].
  - intros c Hc. destruct (Hchildren c Hc) as [Hparents _].
    split; [done|]. destruct (Hself c Hc) as (_ & Haction & _).
    by rewrite Haction, Hparents.
  - intros d Hd. unfold DeepCommands in Hd. cbn [app] in Hd.
    apply in_flat_map in Hd as (c & Hc & Hd).
    destruct (Hchildren c Hc) as [Hparents Hsub].
    rewrite List.Forall_forall in Hsub.
    destruct (Hsub d Hd) as ((tail & Htail) & Haction & _).
    exists tail. rewrite Hparents in Htail. split; [done|].
    rewrite Haction, Htail. apply computeActionName_below.
  - intros c g Hc Hg. destruct (Hchildren c Hc) as [Hparents Hsub].
    destruct (Hself c Hc) as (_ & _ & Hkids).
    rewrite List.Forall_forall in Hkids. specialize (Hkids g Hg).
    rewrite Hparents in Hkids. split; [done|].
    rewrite List.Forall_forall in Hsub.
    assert (Hgin : In g (deepCommandsFrom c)).
    { rewrite deepCommandsFrom_unfold. right. apply in_flat_map.
      exists g. split; [done|]. rewrite deepCommandsFrom_unfold. by left. }
    destruct (Hsub g Hgin) as (_ & Haction & _).
    by rewrite Haction, Hkids.
Qed.

End builder_facts.

(** ** The builder on the sample configurations *)

Section builder_samples.
Import settings commandmodel.

(** C1. The prefix clause of the alias rule is not what [findChild]
    does: the test for a wildcard alias looks for a star at the front
    of the alias, so an alias that ends in a star is compared for
    equality.  In the tree built from a configuration whose command
    [full] declares the alias [f*], the child has the alias list
    ["full"; "f*"], it is found for the token "full" (by its name), and
    it is not found for "foo" although "foo" begins with "f". *)
Theorem findChild_trailing_star_alias :
  exists root child,
    BuildFromConfigMap (H := plainPaths) aliasConfig defaults = Ok root
    /\ Command_Commands root = [child]
    /\ Command_Alias child = ["full"; "f*"]
    /\ runtime.findChild root "full" = Some child
    /\ runtime.findChild root "foo" = None
    /\ strings.HasPrefix "foo" (strings.TrimSuffix "f*" "*") = true.
Proof.
  eexists _, _. split; [vm_compute; reflexivity|].
  repeat split; reflexivity.
Qed.

Lemma actionName_of_built_tree_witness :
  exists root,
    BuildFromConfigMap (H := plainPaths) nestedConfig defaults = Ok root
    /\ Command_ActionName root = "root"
    /\ (forall c g,
          In c (Command_Commands root) ->
          In g (Command_Commands c) ->
          Command_Parents g = [Command_Name root; Command_Name c]
          /\ Command_ActionName g = Command_Name c +:+ " " +:+ Command_Name g).
Proof.
  eexists. split; [vm_compute; reflexivity|].
  split;
    [|apply (actionName_of_built_tree (H := plainPaths) nestedConfig defaults)];
    vm_compute; reflexivity.
Defined.

Lemma BuildFromConfigMap_structural_errors_witness :
  (exists msg, BuildFromConfigMap (H := plainPaths) brokenConfig defaults = Err msg)
  /\ buildChildren (H := plainPaths)
       ([VMap [("name", VString "g")]] ++ VMap [("alias", VString "h")] :: [])
       (rootOver []) defaults
     = Err "commands[1].name is required".
Proof.
  split.
  - apply (proj1 (BuildFromConfigMap_structural_errors (H := plainPaths))).
    apply malformed_iff. vm_compute. reflexivity.
  - apply (proj1 (proj2 (BuildFromConfigMap_structural_errors (H := plainPaths)))
             defaults (rootOver []) [VMap [("name", VString "g")]]
             [("alias", VString "h")] []).
    + reflexivity.
    + reflexivity.
Defined.

Lemma declarations_parsed_leniently_witness :
  parseFlags (VString "none") = []
  /\ parseArgs (VList ([] ++ VInt 7 :: [VMap [("name", VString "source")]]))
     = parseArgs (VList ([] ++ [VMap [("name", VString "source")]]))
  /\ parseArgs (VList ([] ++ VMap [("required", VBool true)] :: []))
     = parseArgs (VList ([] ++ []))
  /\ parseFlags
       (VList ([VInt 7]
               ++ VMap [("long", VString "--force");
                        ("allowed", VList [VString "a"; VInt 1; VString "b"])]
                  :: [VString "x"; VMap []]))
     = [mkFlag "--force" "" false ["a"; "b"] false; mkFlag "" "" false [] false]
  /\ exists root,
       BuildFromConfigMap (H := plainPaths) nestedConfig defaults = Ok root
       /\ Command_Args root = [mkArg "source" true]
       /\ Command_Flags root = [].
Proof.
  pose proof (declarations_parsed_leniently (H := plainPaths))
    as (Hshape & Hentry & Hname & _ & Hflag & _ & Hbuild).
  split; [|split; [|split; [|split]]].
  - apply (Hshape (VString "none")). intros l. discriminate.
  - apply (Hentry [] (VInt 7) [VMap [("name", VString "source")]]).
    intros opts. discriminate.
  - apply (Hname [] [("required", VBool true)] []). reflexivity.
  - rewrite Hflag. reflexivity.
  - destruct (Hbuild nestedConfig defaults) as (root & Hroot & Hargs & Hflags & _).
    + intros Hbad. apply malformed_iff in Hbad. vm_compute in Hbad. discriminate.
    + exists root. split; [exact Hroot|]. by rewrite Hargs, Hflags.
Defined.

End builder_samples.

(** * Further properties of the code *)

(** ** Resolving the command path *)

Section resolver_more.

Lemma findAmong_find children tok :
  findAmong children tok = find (childMatches tok) children.
Proof.
  induction children as [|child children IH]; [done|].
  cbn [findAmong find]. unfold childMatches at 1.
  destruct (String.eqb (Command_Name child) tok); [done|]. cbn [orb].
  by destruct (aliasMatches (Command_Alias child) tok).
Qed.

Lemma childMatches_spec tok child :
  childMatches tok child = true <->
  Command_Name child = tok \/ aliasMatches (Command_Alias child) tok = true.
Proof.
  unfold childMatches. rewrite orb_true_iff.
  by destruct (String.eqb_spec (Command_Name child) tok); split; intros [|]; auto.
Qed.

(** X1. [findChild] returns the first child, in declaration order, whose
    name is the token or one of whose aliases matches it: the result is
    a direct child that matches, no child before it does, and the answer
    is nil exactly when no child matches.  A child named exactly like
    the token is therefore always found. *)
Theorem findChild_first_match parent tok :
  (forall child,
      findChild parent tok = Some child <->
      exists before after,
        Command_Commands parent = before ++ child :: after
        /\ childMatches tok child = true
        /\ Forall (fun c => childMatches tok c = false) before)
  /\ (findChild parent tok = None <->
      Forall (fun c => childMatches tok c = false) (Command_Commands parent))
  /\ (forall child,
        In child (Command_Commands parent) -> Command_Name child = tok ->
        exists found, findChild parent tok = Some found).
Proof.
  unfold findChild. rewrite findAmong_find.
  generalize (Command_Commands parent) as children. intros children.
  split; [|split].
  - induction children as [|c children IH]; intros child.
    + split; [done|]. intros (before & after & Heq & _). by destruct before.
    + cbn [find]. destruct (childMatches tok c) eqn:Hc.
      * split.
        -- intros [= <-]. exists [], children. repeat split; [done | constructor].
        -- intros (before & after & Heq & Hchild & Hbefore).
           destruct before as [|b before]; [by injection Heq as <- _|].
           injection Heq as <- _. inversion Hbefore; congruence.
      * rewrite IH. split.
        -- intros (before & after & -> & Hchild & Hbefore).
           exists (c :: before), after. repeat split; [done | by constructor].
        -- intros (before & after & Heq & Hchild & Hbefore).
           destruct before as [|b before]; [injection Heq as <- _; congruence|].
           injection Heq as <- ->. exists before, after.
           repeat split; [done | by inversion Hbefore].
  - induction children as [|c children IH]; [by split; [constructor|]|].
    cbn [find]. destruct (childMatches tok c) eqn:Hc.
    + split; [done|]. inversion 1; congruence.
    + rewrite IH. split; [by constructor | by inversion 1].
  - intros child Hin Hname.
    destruct (find (childMatches tok) children) as [found|] eqn:Hfind; [by exists found|].
    pose proof (find_none _ _ Hfind child Hin) as Hno.
    assert (childMatches tok child = true) by (apply childMatches_spec; by left).
    congruence.
Qed.

Lemma findChild_first_match_witness :
  exists found,
    findChild (rootOver [leaf ["root"] "build" []; leaf ["root"] "test" ["t"]]) "test"
    = Some found.
Proof.
  apply (proj2 (proj2 (findChild_first_match
           (rootOver [leaf ["root"] "build" []; leaf ["root"] "test" ["t"]]) "test"))
           (leaf ["root"] "test" ["t"])).
  - simpl. tauto.
  - reflexivity.
Defined.

Lemma findChild_child parent tok child :
  findChild parent tok = Some child -> In child (Command_Commands parent).
Proof.
  intros (before & after & -> & _)%(proj1 (findChild_first_match parent tok)).
  apply in_elt.
Qed.

Lemma deepCommandsFrom_self c : In c (deepCommandsFrom c).
Proof. destruct c. by left. Qed.

Lemma deepCommandsFrom_child c child d :
  In child (Command_Commands c) -> In d (deepCommandsFrom child) ->
  In d (deepCommandsFrom c).
Proof.
  intros Hchild Hd. destruct c as [? ? ? ? ? ? ? ? ? ? ? ? children].
  right. apply (in_flat_map deepCommandsFrom children d). by exists child.
Qed.

Lemma descends_deep c toks d : descends c toks d -> In d (deepCommandsFrom c).
Proof.
  induction 1 as [c | c tok next toks d Hnext _ IH].
  - apply deepCommandsFrom_self.
  - apply (deepCommandsFrom_child c next d); [by apply (findChild_child c tok) | done].
Qed.

Lemma resolveLoop_descends current remaining :
  exists cmd consumed rest,
    resolveLoop (Some current) remaining = Returns (Some cmd, rest)
    /\ remaining = consumed ++ rest
    /\ descends current consumed cmd
    /\ match rest with
       | [] => True
       | tok :: _ => findChild cmd tok = None
       end.
Proof.
  revert current. induction remaining as [|tok remaining IH]; intros current.
  - exists current, [], []. repeat split. constructor.
  - cbn [resolveLoop]. destruct (findChild current tok) as [next|] eqn:Hnext.
    + destruct (IH next) as (cmd & consumed & rest & -> & -> & Hpath & Hstop).
      exists cmd, (tok :: consumed), rest. repeat split; [|done].
      by apply (descends_step current tok next).
    + exists current, [], (tok :: remaining). repeat split; [constructor | done].
Qed.

(** X2. From a root that is not nil, [resolveCommandPath] returns a node
    of the tree and the unconsumed tokens: the arguments are the
    consumed tokens followed by the remainder, each consumed token leads
    from a node to one of its children through [findChild], and the walk
    stops only at the end of the arguments or at a token that matches no
    child of the node reached. *)
Theorem resolveCommandPath_descends root argv :
  exists cmd consumed rest,
    resolveCommandPath (Some root) argv = Returns (Some cmd, rest)
    /\ argv = consumed ++ rest
    /\ descends root consumed cmd
    /\ In cmd (DeepCommands root true)
    /\ match rest with
       | [] => True
       | tok :: _ => findChild cmd tok = None
       end.
Proof.
  destruct (resolveLoop_descends root argv)
    as (cmd & consumed & rest & Hres & Hargv & Hpath & Hstop).
  exists cmd, consumed, rest. repeat split; try done.
  apply descends_deep in Hpath. unfold DeepCommands. cbn [app].
  by rewrite deepCommandsFrom_unfold in Hpath.
Qed.

Lemma expandCompact_Remaining p arg :
  ParsedArgs_Remaining (expandCompact p arg) = ParsedArgs_Remaining p
  /\ ParsedArgs_HelpAsked (expandCompact p arg) = ParsedArgs_HelpAsked p.
Proof.
  unfold expandCompact. generalize (utf8.range (strings.drop 1 arg)) as runes.
  intros runes. revert p. induction runes as [|ch runes IH]; intros p; [done|].
  cbn [fold_left]. by destruct (IH (setFlag p ("-" +:+ utf8.string_of_rune ch) "true")).
Qed.

Lemma parseFlagsAndArgs_Remaining p args :
  ParsedArgs_Remaining (parseFlagsAndArgs p args) = ParsedArgs_Remaining p
  /\ ParsedArgs_HelpAsked (parseFlagsAndArgs p args) = ParsedArgs_HelpAsked p.
Proof.
  remember (length args) as n eqn:Hn.
  revert p args Hn. induction (lt_wf n) as [n _ IH]. intros p args ->.
  assert (Hrec : forall q l, (length l < length args)%nat ->
            ParsedArgs_Remaining (parseFlagsAndArgs q l) = ParsedArgs_Remaining q
            /\ ParsedArgs_HelpAsked (parseFlagsAndArgs q l) = ParsedArgs_HelpAsked q).
  { intros q l Hl. by eapply IH. }
  destruct args as [|arg rest]; [done|]. cbn [parseFlagsAndArgs].
  repeat match goal with
         | |- context [if ?b then _ else _] => destruct b
         | |- context [match ?l with [] => _ | _ :: _ => _ end] => destruct l
         end;
    match goal with
    | |- context [parseFlagsAndArgs ?q ?l] =>
        destruct (Hrec q l) as [-> ->]; [cbn [length]; lia|]
    end;
    try done; apply expandCompact_Remaining.
Qed.

(** X3. Without [--help] or [-h] among the arguments, [ParseArgs] has
    three outcomes.  With a nil root it returns the "unknown command"
    error when there are no arguments and panics otherwise.  With a
    root it returns parsed arguments whose command and remainder are
    those of [resolveCommandPath], whose help marker is unset, and whose
    flags and positionals come from tokenizing the remainder alone. *)
Theorem ParseArgs_outcomes argv root st :
  contains argv "--help" || contains argv "-h" = false ->
  match root with
  | None =>
      match argv with
      | [] => ParseArgs argv None st = Returns (Err "unknown command")
      | _ :: _ => ParseArgs argv None st = Panics
      end
  | Some r =>
      exists cmd rest p,
        resolveCommandPath (Some r) argv = Returns (Some cmd, rest)
        /\ ParseArgs argv (Some r) st = Returns (Ok p)
        /\ p = parseFlagsAndArgs (mkParsedArgs (Some cmd) ∅ [] rest false) rest
        /\ ParsedArgs_Command p = Some cmd
        /\ ParsedArgs_Remaining p = rest
        /\ ParsedArgs_HelpAsked p = false
  end.
Proof.
  intros Hhelp. unfold ParseArgs. rewrite Hhelp.
  destruct root as [r|].
  - destruct (resolveCommandPath_descends r argv) as (cmd & consumed & rest & -> & _).
    exists cmd, rest, (parseFlagsAndArgs (mkParsedArgs (Some cmd) ∅ [] rest false) rest).
    cbn [ParsedArgs_Flags ParsedArgs_Positional ParsedArgs_HelpAsked].
    repeat split; try done.
    + by rewrite parseFlagsAndArgs_Command.
    + by destruct (parseFlagsAndArgs_Remaining
                     (mkParsedArgs (Some cmd) ∅ [] rest false) rest) as [-> _].
    + by destruct (parseFlagsAndArgs_Remaining
                     (mkParsedArgs (Some cmd) ∅ [] rest false) rest) as [_ ->].
  - by destruct argv.
Qed.

Lemma ParseArgs_outcomes_witness :
  ParseArgs ["deploy"] None (settings.mkSettings "" "") = Panics
  /\ ParseArgs [] None (settings.mkSettings "" "") = Returns (Err "unknown command").
Proof.
  split.
  - apply (ParseArgs_outcomes ["deploy"] None (settings.mkSettings "" "")). reflexivity.
  - apply (ParseArgs_outcomes [] None (settings.mkSettings "" "")). reflexivity.
Defined.

End resolver_more.

(** ** Tokenizing: the remaining rules and how they compose *)

Section tokenizer_more.

Lemma parseFlagsAndArgs_cons p arg rest :
  parseFlagsAndArgs p (arg :: rest) =
    if strings.HasPrefix arg "--" then
      if strings.Contains arg "=" then
        let parts := strings.SplitN arg "=" 2 in
        parseFlagsAndArgs (setFlag p (at_index parts 0) (at_index parts 1)) rest
      else
        match rest with
        | next :: rest' =>
            if negb (strings.HasPrefix next "-") then
              parseFlagsAndArgs (setFlag p arg next) rest'
            else parseFlagsAndArgs (setFlag p arg "true") rest
        | [] => parseFlagsAndArgs (setFlag p arg "true") rest
        end
    else if strings.HasPrefix arg "-" && (1 <? String.length arg)%nat then
      if (String.length arg =? 2)%nat then
        match rest with
        | next :: rest' =>
            if negb (strings.HasPrefix next "-") then
              parseFlagsAndArgs (setFlag p arg next) rest'
            else parseFlagsAndArgs (setFlag p arg "true") rest
        | [] => parseFlagsAndArgs (setFlag p arg "true") rest
        end
      else parseFlagsAndArgs (expandCompact p arg) rest
    else parseFlagsAndArgs (addPositional p arg) rest.
Proof. reflexivity. Qed.

Lemma HasPrefix_dashes tok :
  strings.HasPrefix tok "--" = true -> strings.HasPrefix tok "-" = true.
Proof.
  unfold strings.HasPrefix. destruct tok as [|c tok]; [done|].
  rewrite !prefix_cons. destruct (Ascii.ascii_dec "-" c); [|done].
  intros _. apply prefix_nil.
Qed.

Lemma HasPrefix_dash_cons tok :
  strings.HasPrefix tok "-" = true -> exists tok', tok = String "-" tok'.
Proof.
  unfold strings.HasPrefix. destruct tok as [|c tok]; [done|].
  rewrite prefix_cons. destruct (Ascii.ascii_dec "-" c) as [<-|]; [|done].
  intros _. by exists tok.
Qed.

(** X4. Tokenizing can be cut at any token that starts with a dash:
    the tokens before the cut are processed first and the rest is
    processed in the state they leave, since no flag takes such a token
    as its value. *)
Theorem parseFlagsAndArgs_app p l1 l2 :
  match l2 with
  | [] => True
  | tok :: _ => strings.HasPrefix tok "-" = true
  end ->
  parseFlagsAndArgs p (l1 ++ l2)
  = parseFlagsAndArgs (parseFlagsAndArgs p l1) l2.
Proof.
  intros Hcut. remember (length l1) as n eqn:Hn.
  revert p l1 Hn. induction (lt_wf n) as [n _ IH]. intros p l1 ->.
  assert (Hrec : forall q l, (length l < length l1)%nat ->
            parseFlagsAndArgs q (l ++ l2)
            = parseFlagsAndArgs (parseFlagsAndArgs q l) l2).
  { intros q l Hl. by eapply IH. }
  destruct l1 as [|arg r1]; [done|].
  rewrite <- app_comm_cons, !parseFlagsAndArgs_cons.
  assert (Hvalue : forall q,
            match r1 ++ l2 with
            | next :: rest' =>
                if negb (strings.HasPrefix next "-") then
                  parseFlagsAndArgs (setFlag q arg next) rest'
                else parseFlagsAndArgs (setFlag q arg "true") (r1 ++ l2)
            | [] => parseFlagsAndArgs (setFlag q arg "true") (r1 ++ l2)
            end
            = parseFlagsAndArgs
                match r1 with
                | next :: rest' =>
                    if negb (strings.HasPrefix next "-") then
                      parseFlagsAndArgs (setFlag q arg next) rest'
                    else parseFlagsAndArgs (setFlag q arg "true") r1
                | [] => parseFlagsAndArgs (setFlag q arg "true") r1
                end l2).
  { intros q. destruct r1 as [|next r1'].
    - cbn [app]. destruct l2 as [|tok l2']; [done|]. by rewrite Hcut.
    - rewrite <- app_comm_cons. destruct (negb (strings.HasPrefix next "-")).
      + apply Hrec. cbn [length]. lia.
      + rewrite app_comm_cons. apply Hrec. cbn [length]. lia. }
  destruct (strings.HasPrefix arg "--").
  - destruct (strings.Contains arg "="); [|apply Hvalue].
    cbv zeta. apply Hrec. cbn [length]. lia.
  - destruct (strings.HasPrefix arg "-" && (1 <? String.length arg)%nat).
    + destruct (String.length arg =? 2)%nat; [apply Hvalue|].
      apply Hrec. cbn [length]. lia.
    + apply Hrec. cbn [length]. lia.
Qed.

Lemma parseFlagsAndArgs_app_witness :
  parseFlagsAndArgs emptyParsed (["--name"; "x"] ++ ["-v"; "file"])
  = parseFlagsAndArgs (parseFlagsAndArgs emptyParsed ["--name"; "x"]) ["-v"; "file"].
Proof. apply (parseFlagsAndArgs_app emptyParsed ["--name"; "x"] ["-v"; "file"]). reflexivity. Defined.

(** X6. When no token starts with a dash, every token becomes a
    positional argument, in order, and nothing else changes. *)
Theorem parseFlagsAndArgs_plain p args :
  Forall (fun tok => strings.HasPrefix tok "-" = false) args ->
  parseFlagsAndArgs p args
  = mkParsedArgs (ParsedArgs_Command p) (ParsedArgs_Flags p)
      (ParsedArgs_Positional p ++ args) (ParsedArgs_Remaining p)
      (ParsedArgs_HelpAsked p).
Proof.
  intros Hplain. revert p. induction Hplain as [|tok args Htok _ IH]; intros p.
  - cbn [parseFlagsAndArgs]. rewrite app_nil_r. by destruct p.
  - rewrite parseFlagsAndArgs_cons.
    destruct (strings.HasPrefix tok "--") eqn:Hlong;
      [by rewrite (HasPrefix_dashes tok Hlong) in Htok|].
    rewrite Htok. cbn [andb]. rewrite IH. cbn [addPositional ParsedArgs_Command
      ParsedArgs_Flags ParsedArgs_Positional ParsedArgs_Remaining ParsedArgs_HelpAsked].
    by rewrite <- app_assoc.
Qed.

Lemma parseFlagsAndArgs_plain_witness :
  parseFlagsAndArgs emptyParsed ["a.txt"; ""; "b c"]
  = mkParsedArgs None ∅ ["a.txt"; ""; "b c"] [] false.
Proof.
  apply (parseFlagsAndArgs_plain emptyParsed ["a.txt"; ""; "b c"]).
  repeat constructor.
Defined.

(** X7. A token of exactly two bytes that starts with a dash, be it
    [-f] or [--], takes the next token as its value, and consumes it,
    exactly when that token exists and does not start with a dash;
    otherwise its value is "true".  A token that does not start with a
    dash, and the lone dash, is appended to the positional arguments. *)
Theorem parseFlagsAndArgs_short_flag :
  (forall p arg rest,
      strings.HasPrefix arg "-" = true ->
      String.length arg = 2%nat ->
      match rest with
      | next :: rest' =>
          if strings.HasPrefix next "-" then
            parseFlagsAndArgs p (arg :: rest)
            = parseFlagsAndArgs (setFlag p arg "true") (next :: rest')
          else
            parseFlagsAndArgs p (arg :: rest)
            = parseFlagsAndArgs (setFlag p arg next) rest'
      | [] => parseFlagsAndArgs p (arg :: rest) = setFlag p arg "true"
      end)
  /\ (forall p arg rest,
        strings.HasPrefix arg "-" = false \/ arg = "-" ->
        parseFlagsAndArgs p (arg :: rest)
        = parseFlagsAndArgs (addPositional p arg) rest).
Proof.
  split.
  - intros p arg rest Hdash Hlen.
    assert (Hbody : parseFlagsAndArgs p (arg :: rest) =
              match rest with
              | next :: rest' =>
                  if negb (strings.HasPrefix next "-") then
                    parseFlagsAndArgs (setFlag p arg next) rest'
                  else parseFlagsAndArgs (setFlag p arg "true") rest
              | [] => parseFlagsAndArgs (setFlag p arg "true") rest
              end).
    { rewrite parseFlagsAndArgs_cons, Hdash, Hlen. cbn [andb Nat.ltb Nat.leb Nat.eqb].
      destruct (strings.HasPrefix arg "--") eqn:Hlong; [|done].
      assert (arg = "--") as ->; [|done].
      destruct arg as [|c1 [|c2 [|c3 arg]]]; try done.
      unfold strings.HasPrefix in Hlong. rewrite !prefix_cons in Hlong.
      destruct (Ascii.ascii_dec "-" c1) as [<-|]; [|done].
      by destruct (Ascii.ascii_dec "-" c2) as [<-|]. }
    rewrite Hbody. destruct rest as [|next rest']; [done|].
    by destruct (strings.HasPrefix next "-").
  - intros p arg rest Harg. rewrite parseFlagsAndArgs_cons.
    destruct Harg as [Hplain | ->]; [|done].
    destruct (strings.HasPrefix arg "--") eqn:Hlong;
      [by rewrite (HasPrefix_dashes arg Hlong) in Hplain|].
    by rewrite Hplain.
Qed.

Lemma parseFlagsAndArgs_short_flag_witness :
  parseFlagsAndArgs emptyParsed ["-o"; "out.txt"; "in.txt"]
  = parseFlagsAndArgs (setFlag emptyParsed "-o" "out.txt") ["in.txt"]
  /\ parseFlagsAndArgs emptyParsed ["-"; "x"]
     = parseFlagsAndArgs (addPositional emptyParsed "-") ["x"].
Proof.
  split.
  - apply (proj1 parseFlagsAndArgs_short_flag emptyParsed "-o" ["out.txt"; "in.txt"]);
      reflexivity.
  - apply (proj2 parseFlagsAndArgs_short_flag emptyParsed "-" ["x"]). by right.
Defined.

End tokenizer_more.

Section tokenizer_invariants.

Lemma split_name_dash arg name value :
  strings.HasPrefix arg "--" = true ->
  arg = name +:+ "=" +:+ value ->
  strings.HasPrefix name "-" = true.
Proof.
  intros Hlong ->. unfold strings.HasPrefix in *.
  destruct name as [|c name]; rewrite ?append_nil, ?append_cons, prefix_cons in *.
  - by destruct (Ascii.ascii_dec "-" "=").
  - destruct (Ascii.ascii_dec "-" c); [apply prefix_nil | done].
Qed.

Lemma setFlag_keys p k v k' :
  is_Some (ParsedArgs_Flags (setFlag p k v) !! k') ->
  k' = k \/ is_Some (ParsedArgs_Flags p !! k').
Proof.
  cbn [setFlag ParsedArgs_Flags]. destruct (decide (k = k')) as [<-|Hne]; [by left|].
  rewrite lookup_insert_ne by done. by right.
Qed.

Lemma expandCompact_keys p arg k :
  is_Some (ParsedArgs_Flags (expandCompact p arg) !! k) ->
  strings.HasPrefix k "-" = true \/ is_Some (ParsedArgs_Flags p !! k).
Proof.
  rewrite expandCompact_Flags. case_decide as Hin; [|by right].
  intros _. left. unfold clusterKeys in Hin.
  apply list_elem_of_In, in_map_iff in Hin as (ch & <- & _).
  unfold strings.HasPrefix.
  change ("-" +:+ utf8.string_of_rune ch) with (String "-" (utf8.string_of_rune ch)).
  rewrite prefix_cons. destruct (Ascii.ascii_dec "-" "-"); [apply prefix_nil | done].
Qed.

(** One iteration of the loop: the state it leaves and the tokens still
    to be processed. *)
Lemma parseFlagsAndArgs_step p arg rest :
  exists p' rest',
    parseFlagsAndArgs p (arg :: rest) = parseFlagsAndArgs p' rest'
    /\ (rest' = rest \/ exists next, rest = next :: rest')
    /\ ((ParsedArgs_Positional p' = ParsedArgs_Positional p
         /\ forall k, is_Some (ParsedArgs_Flags p' !! k) ->
                      strings.HasPrefix k "-" = true \/ is_Some (ParsedArgs_Flags p !! k))
        \/ (p' = addPositional p arg /\ rest' = rest
            /\ (strings.HasPrefix arg "-" = false \/ arg = "-"))).
Proof.
  assert (Hflag : forall arg', strings.HasPrefix arg' "-" = true -> forall v k,
            is_Some (ParsedArgs_Flags (setFlag p arg' v) !! k) ->
            strings.HasPrefix k "-" = true \/ is_Some (ParsedArgs_Flags p !! k)).
  { intros arg' Harg' v k [-> | Hk]%setFlag_keys; [by left | by right]. }
  assert (Hvalue : strings.HasPrefix arg "-" = true ->
            exists p' rest',
              match rest with
              | next :: rest' =>
                  if negb (strings.HasPrefix next "-") then
                    parseFlagsAndArgs (setFlag p arg next) rest'
                  else parseFlagsAndArgs (setFlag p arg "true") rest
              | [] => parseFlagsAndArgs (setFlag p arg "true") rest
              end = parseFlagsAndArgs p' rest'
              /\ (rest' = rest \/ exists next, rest = next :: rest')
              /\ ((ParsedArgs_Positional p' = ParsedArgs_Positional p
                   /\ forall k, is_Some (ParsedArgs_Flags p' !! k) ->
                        strings.HasPrefix k "-" = true
                        \/ is_Some (ParsedArgs_Flags p !! k))
                  \/ (p' = addPositional p arg /\ rest' = rest
                      /\ (strings.HasPrefix arg "-" = false \/ arg = "-")))).
  { intros Harg. destruct rest as [|next rest'].
    - exists (setFlag p arg "true"), []. split; [done|]. split; [by left|].
      left. split; [done | by apply Hflag].
    - destruct (negb (strings.HasPrefix next "-")).
      + exists (setFlag p arg next), rest'. split; [done|]. split; [right; by exists next|].
        left. split; [done | by apply Hflag].
      + exists (setFlag p arg "true"), (next :: rest'). split; [done|]. split; [by left|].
        left. split; [done | by apply Hflag]. }
  rewrite parseFlagsAndArgs_cons.
  destruct (strings.HasPrefix arg "--") eqn:Hlong.
  - destruct (strings.Contains arg "=") eqn:Heq;
      [|by apply Hvalue, HasPrefix_dashes].
    destruct (SplitN_first_eq arg Heq) as (name & value & -> & Harg & _).
    exists (setFlag p name value), rest. split; [done|]. split; [by left|].
    left. split; [done|]. apply Hflag. by apply (split_name_dash arg name value).
  - destruct (strings.HasPrefix arg "-") eqn:Hdash; cbn [andb].
    + destruct (1 <? String.length arg)%nat eqn:Hlen.
      * destruct (String.length arg =? 2)%nat; [by apply Hvalue|].
        exists (expandCompact p arg), rest. split; [done|]. split; [by left|].
        left. split; [apply expandCompact_Positional | apply expandCompact_keys].
      * exists (addPositional p arg), rest. repeat split; [by left|].
        right. repeat split. right.
        destruct (HasPrefix_dash_cons arg Hdash) as [tok' ->].
        by destruct tok'.
    + exists (addPositional p arg), rest. repeat split; [by left|].
      right. repeat split. by left.
Qed.

(** X5. Tokenizing only ever adds flag keys that start with a dash, and
    the positional arguments it appends are tokens of the input, in
    their order, none of which starts with a dash except the lone
    dash. *)
Theorem parseFlagsAndArgs_invariants p args :
  (forall k,
      is_Some (ParsedArgs_Flags (parseFlagsAndArgs p args) !! k) ->
      strings.HasPrefix k "-" = true \/ is_Some (ParsedArgs_Flags p !! k))
  /\ exists added,
       ParsedArgs_Positional (parseFlagsAndArgs p args)
       = ParsedArgs_Positional p ++ added
       /\ sublist added args
       /\ Forall (fun tok => strings.HasPrefix tok "-" = false \/ tok = "-") added.
Proof.
  remember (length args) as n eqn:Hn.
  revert p args Hn. induction (lt_wf n) as [n _ IH]. intros p args ->.
  destruct args as [|arg rest].
  { split; [by right|]. exists []. by rewrite app_nil_r. }
  destruct (parseFlagsAndArgs_step p arg rest) as (p' & rest' & -> & Hrest & Hstep).
  assert (Hlen : (length rest' < length (arg :: rest))%nat).
  { destruct Hrest as [-> | [next ->]]; cbn [length]; lia. }
  assert (Hsub : sublist rest' rest).
  { destruct Hrest as [-> | [next ->]]; [done | by apply sublist_cons]. }
  destruct (IH _ Hlen p' rest' eq_refl) as (Hkeys & added & Hpos & Hadded & Hok).
  destruct Hstep as [[Hpos' Hkeys'] | (-> & -> & Harg)].
  - split.
    + intros k [Hk | Hk]%Hkeys; [by left | by apply Hkeys'].
    + exists added. rewrite Hpos, Hpos'. repeat split; [|done].
      apply sublist_cons. by etrans.
  - split; [exact Hkeys|].
    exists (arg :: added). rewrite Hpos. cbn [addPositional ParsedArgs_Positional].
    rewrite <- app_assoc. repeat split; [by apply sublist_skip | by constructor].
Qed.

End tokenizer_invariants.

(** ** The two validators *)

Section validator_more.

Lemma requiredArgsError_check args p :
  requiredArgsError args p = ErrorMsg <$> checkRequiredArgs args p.
Proof.
  induction args as [|arg args IH]; [done|].
  cbn [requiredArgsError checkRequiredArgs]. by destruct (_ && _).
Qed.

Lemma requiredFlagsError_check flags p :
  requiredFlagsError flags p = ErrorMsg <$> checkRequiredFlags flags p.
Proof.
  induction flags as [|flag flags IH]; [done|].
  cbn [requiredFlagsError checkRequiredFlags]. by destruct (_ && _).
Qed.

Lemma allowedValuesError_check flags p :
  allowedValuesError flags p = ErrorMsg <$> checkAllowedValues flags p.
Proof.
  induction flags as [|flag flags IH]; [done|].
  cbn [allowedValuesError checkAllowedValues]. by destruct (_ && _ && _).
Qed.

(** X8. [ValidateArgs] and [ValidateParsed] give the same verdict on the
    command held by the parsed arguments: [ValidateArgs] returns no
    error exactly when [ValidateParsed] reports valid, and otherwise its
    error is the message of [ValidateParsed].  When the parsed arguments
    hold no command, [ValidateArgs] panics. *)
Theorem ValidateArgs_agrees p :
  match ParsedArgs_Command p with
  | None => ValidateArgs p = Panics
  | Some cmd =>
      ValidateArgs p
      = Returns (if Valid (ValidateParsed cmd p) then None
                 else Some (ErrorMsg (ValidateParsed cmd p)))
  end.
Proof.
  unfold ValidateArgs. destruct (ParsedArgs_Command p) as [cmd|]; [|done].
  rewrite requiredArgsError_check, requiredFlagsError_check, allowedValuesError_check.
  unfold ValidateParsed.
  rewrite checkRequiredArgs_find, checkRequiredFlags_find, checkAllowedValues_find.
  destruct (find (argMissing p) _); [done|].
  destruct (find (flagMissing p) _); [done|].
  by destruct (find (flagRejected p) _).
Qed.

Lemma find_None_iff {A : Type} (bad : A -> bool) l :
  find bad l = None <-> forall x, In x l -> bad x = false.
Proof.
  split; [apply find_none|].
  intros Hall. destruct (find bad l) as [x|] eqn:Hfind; [|done].
  apply find_some in Hfind as [Hin Hx]. by rewrite (Hall x Hin) in Hx.
Qed.

(** X9. [ValidateParsed] reports valid exactly when every required
    argument's name is among the positional arguments, every required
    flag reads a non-empty value under its long token or else its short
    token, and every flag that reads a non-empty value and declares
    allowed values reads one of them. *)
Theorem ValidateParsed_valid_iff cmd parsed :
  Valid (ValidateParsed cmd parsed) = true <->
  (forall arg,
      In arg (Command_Args cmd) -> Arg_Required arg = true ->
      In (Arg_Name arg) (ParsedArgs_Positional parsed))
  /\ (forall flag,
        In flag (Command_Flags cmd) -> Flag_Required flag = true ->
        flagValue parsed flag <> "")
  /\ (forall flag,
        In flag (Command_Flags cmd) ->
        flagValue parsed flag <> "" -> Flag_Allowed flag <> [] ->
        In (flagValue parsed flag) (Flag_Allowed flag)).
Proof.
  assert (Hargs : find (argMissing parsed) (Command_Args cmd) = None <->
            forall arg, In arg (Command_Args cmd) -> Arg_Required arg = true ->
                        In (Arg_Name arg) (ParsedArgs_Positional parsed)).
  { rewrite find_None_iff. unfold argMissing.
    split; intros Hall arg Hin; specialize (Hall arg Hin).
    - intros Hreq. rewrite Hreq in Hall. cbn [andb] in Hall.
      apply negb_false_iff in Hall. by apply contains_In.
    - destruct (Arg_Required arg); [|done]. cbn [andb].
      apply negb_false_iff, contains_In. by apply Hall. }
  assert (Hflags : find (flagMissing parsed) (Command_Flags cmd) = None <->
            forall flag, In flag (Command_Flags cmd) -> Flag_Required flag = true ->
                         flagValue parsed flag <> "").
  { rewrite find_None_iff. unfold flagMissing.
    split; intros Hall flag Hin; specialize (Hall flag Hin).
    - intros Hreq. rewrite Hreq in Hall. cbn [andb] in Hall.
      by apply String.eqb_neq.
    - destruct (Flag_Required flag); [|done]. cbn [andb].
      apply String.eqb_neq. by apply Hall. }
  assert (Hallowed : find (flagRejected parsed) (Command_Flags cmd) = None <->
            forall flag, In flag (Command_Flags cmd) ->
                         flagValue parsed flag <> "" -> Flag_Allowed flag <> [] ->
                         In (flagValue parsed flag) (Flag_Allowed flag)).
  { rewrite find_None_iff. unfold flagRejected.
    split; intros Hall flag Hin; specialize (Hall flag Hin).
    - intros Hvalue%String.eqb_neq Hlist. rewrite Hvalue in Hall.
      destruct (Flag_Allowed flag) as [|a allowed] eqn:Hl; [done|].
      cbn [negb andb length Nat.eqb] in Hall.
      apply negb_false_iff in Hall. by apply contains_In.
    - destruct (String.eqb_spec (flagValue parsed flag) "") as [|Hvalue]; [done|].
      destruct (Flag_Allowed flag) as [|a allowed] eqn:Hl; [done|].
      cbn [negb andb length Nat.eqb].
      apply negb_false_iff, contains_In. by apply Hall. }
  rewrite ValidateParsed_spec, <- Hargs, <- Hflags, <- Hallowed. unfold validate_spec.
  destruct (find (argMissing parsed) _); [by split; [|intros [? _]]|].
  destruct (find (flagMissing parsed) _); [by split; [|intros (_ & ? & _)]|].
  by destruct (find (flagRejected parsed) _); [split; [|intros (_ & _ & ?)]|].
Qed.

End validator_more.

(** ** The built tree *)

Section builder_more.
Context `{PathLib}.

Lemma eachChild_Forall2 step i l out :
  eachChild step i l = Ok out ->
  Forall2 (fun raw cmd => exists j, step j raw = Ok cmd) l out.
Proof.
  revert i out. induction l as [|raw l IH]; intros i out.
  - intros [= <-]. constructor.
  - rewrite eachChild_cons.
    destruct (step i raw) as [cmd|] eqn:Hcmd; [|done].
    destruct (eachChild step (S i) l) as [out0|] eqn:Hl; [|done].
    intros [= <-]. constructor; [by exists i | by apply (IH (S i))].
Qed.

Lemma eachChild_error step i l e :
  eachChild step i l = Err e -> exists j raw, In raw l /\ step j raw = Err e.
Proof.
  revert i. induction l as [|raw l IH]; intros i; [done|].
  rewrite eachChild_cons. destruct (step i raw) as [cmd|e'] eqn:Hcmd.
  - destruct (eachChild step (S i) l) as [out0|e'] eqn:Hl; [done|].
    intros [= <-]. destruct (IH (S i) Hl) as (j & x & Hin & Hx).
    exists j, x. split; [by right | done].
  - intros [= <-]. exists i, raw. split; [by left | done].
Qed.

Lemma declaredNames_mapping opts :
  declaredNames (VMap opts) =
    fst (asString (index_key opts "name"))
    :: match lookup_key opts "commands" with
       | Some (VList l) => flat_map declaredNames l
       | _ => []
       end.
Proof.
  cbn [declaredNames]. rewrite with_key_lookup.
  by destruct (lookup_key opts "commands") as [[]|].
Qed.

Lemma names_of_children (l : list any) (out : list Command) step :
  Forall2 (fun raw cmd => exists j : nat, step j raw = Ok cmd) l out ->
  Forall (fun raw => forall j cmd, step j raw = Ok cmd ->
            map Command_Name (deepCommandsFrom cmd) = declaredNames raw) l ->
  map Command_Name (flat_map deepCommandsFrom out) = flat_map declaredNames l.
Proof.
  induction 1 as [|raw cmd l out [j Hcmd] _ IH]; [done|].
  intros Hall. inversion Hall as [|? ? Hraw Hl]; subst.
  cbn [flat_map]. by rewrite map_app, (Hraw j cmd Hcmd), IH.
Qed.

Lemma buildChild_declaredNames raw :
  forall st parent i c,
    buildChild st parent i raw = Ok c ->
    map Command_Name (deepCommandsFrom c) = declaredNames raw.
Proof.
  induction raw as [raw Hraw | opts IH] using any_entry_ind; intros st parent i c.
  { by rewrite buildChild_not_mapping. }
  rewrite buildChild_mapping, declaredNames_mapping. cbv zeta.
  destruct (String.eqb _ ""); [done|].
  set (cmd := childCommand opts parent _ st).
  destruct (lookup_key opts "commands") as [sub|]; [|by intros [= <-]].
  destruct sub as [| | | |l|]; try done.
  destruct (buildChildren l cmd st) as [children|] eqn:Hchildren; [|done].
  intros [= <-]. rewrite deepCommandsFrom_unfold.
  cbn [map set_Commands Command_Commands Command_Name]. f_equal.
  apply eachChild_Forall2 in Hchildren.
  apply (names_of_children l children _ Hchildren).
  eapply Forall_impl; [exact (IH l eq_refl)|].
  intros x Hx j child Hchild. by apply (Hx st cmd j).
Qed.

(** X10. The depth-first enumeration of a built tree follows the
    configuration: the root comes first when it is included, and the
    names of the nodes below it are the declared names, every entry
    before the entries under its [commands] key and siblings in the order
    written.  So there are as many nodes as declared entries. *)
Theorem DeepCommands_declaration_order cfg st root :
  BuildFromConfigMap cfg st = Ok root ->
  DeepCommands root true = root :: DeepCommands root false
  /\ map Command_Name (DeepCommands root false) = declaredBelowRoot cfg
  /\ length (DeepCommands root true) = S (length (declaredBelowRoot cfg)).
Proof.
  intros Hbuild.
  assert (Hnames : map Command_Name (DeepCommands root false) = declaredBelowRoot cfg).
  { unfold BuildFromConfigMap in Hbuild. cbv zeta in Hbuild.
    unfold declaredBelowRoot, DeepCommands. cbn [app].
    destruct (lookup_key cfg "commands") as [cmds|]; [|by injection Hbuild as <-].
    destruct cmds as [| | | |items|]; try done.
    match type of Hbuild with
    | context [buildChildren items ?r st] => set (root0 := r) in Hbuild
    end.
    destruct (buildChildren items root0 st) as [children|] eqn:Hchildren; [|done].
    injection Hbuild as <-. cbn [set_Commands Command_Commands].
    apply eachChild_Forall2 in Hchildren.
    apply (names_of_children items children _ Hchildren).
    apply List.Forall_forall. intros raw _ j child Hchild.
    by apply (buildChild_declaredNames raw st root0 j). }
  split; [done|]. split; [done|].
  change (DeepCommands root true) with (root :: DeepCommands root false).
  cbn [length]. by rewrite <- Hnames, length_map.
Qed.

Lemma aliasStrings_nonempty t : Forall (fun a => a <> "") (aliasStrings t).
Proof.
  induction t as [|v t IH]; [constructor|].
  destruct v; cbn [aliasStrings]; try done.
  destruct (String.eqb_spec s ""); [done | by constructor].
Qed.

Lemma normalizeAlias_shape v name :
  exists alts, normalizeAlias v name = name :: alts /\ Forall (fun a => a <> "") alts.
Proof.
  unfold normalizeAlias. eexists. split; [reflexivity|].
  destruct v; try constructor.
  - destruct (String.eqb_spec s ""); [constructor | by repeat constructor].
  - apply aliasStrings_nonempty.
Qed.

Lemma buildChild_builtNode raw :
  forall st parent i c,
    buildChild st parent i raw = Ok c -> Forall builtNode (deepCommandsFrom c).
Proof.
  induction raw as [raw Hraw | opts IH] using any_entry_ind; intros st parent i c.
  { by rewrite buildChild_not_mapping. }
  rewrite buildChild_mapping. cbv zeta.
  destruct (String.eqb_spec (fst (asString (index_key opts "name"))) "") as [|Hname];
    [done|].
  set (cmd := childCommand opts parent _ st).
  assert (Hcmd : forall children, builtNode (set_Commands cmd children)).
  { intros children. split; [done|]. split; [done|]. apply normalizeAlias_shape. }
  destruct (lookup_key opts "commands") as [sub|].
  - destruct sub as [| | | |l|]; try done.
    destruct (buildChildren l cmd st) as [children|] eqn:Hchildren; [|done].
    intros [= <-]. rewrite deepCommandsFrom_unfold. constructor; [apply Hcmd|].
    cbn [set_Commands Command_Commands].
    apply eachChild_members in Hchildren.
    apply List.Forall_forall. intros d (child & Hchild & Hd)%in_flat_map.
    rewrite List.Forall_forall in Hchildren.
    destruct (Hchildren child Hchild) as (j & x & Hin & Hx). cbv beta in Hx.
    specialize (IH l eq_refl). rewrite List.Forall_forall in IH.
    specialize (IH x Hin st cmd j child Hx). rewrite List.Forall_forall in IH.
    by apply IH.
  - intros [= <-]. rewrite deepCommandsFrom_unfold. cbn [flat_map].
    repeat constructor; try done. apply normalizeAlias_shape.
Qed.

Lemma BuildFromConfigMap_builtNode cfg st root :
  BuildFromConfigMap cfg st = Ok root -> Forall builtNode (DeepCommands root false).
Proof.
  unfold BuildFromConfigMap, DeepCommands. cbv zeta. cbn [app].
  destruct (lookup_key cfg "commands") as [cmds|];
    [|intros [= <-]; constructor].
  destruct cmds as [| | | |items|]; try done.
  match goal with
  | |- context [buildChildren items ?r st] => set (root0 := r)
  end.
  destruct (buildChildren items root0 st) as [children|] eqn:Hchildren; [|done].
  intros [= <-]. cbn [set_Commands Command_Commands].
  apply eachChild_members in Hchildren.
  apply List.Forall_forall. intros d (child & Hchild & Hd)%in_flat_map.
  rewrite List.Forall_forall in Hchildren.
  destruct (Hchildren child Hchild) as (j & x & _ & Hx). cbv beta in Hx.
  apply buildChild_builtNode in Hx. rewrite List.Forall_forall in Hx. by apply Hx.
Qed.

Lemma BuildFromConfigMap_root cfg st root :
  BuildFromConfigMap cfg st = Ok root ->
  Command_Parents root = []
  /\ Command_FullName root = Command_Name root
  /\ Command_Name root
     = (if String.eqb (fst (asString (index_key cfg "name"))) "" then "root"
        else fst (asString (index_key cfg "name")))
  /\ Command_Name root <> ""
  /\ Command_Alias root = []
  /\ Command_Private root = false.
Proof.
  unfold BuildFromConfigMap. cbv zeta.
  set (name := fst (asString (index_key cfg "name"))).
  assert (Hname : (if String.eqb name "" then "root" else name) <> "").
  { by destruct (String.eqb_spec name ""). }
  destruct (lookup_key cfg "commands") as [cmds|]; [|by intros [= <-]].
  destruct cmds as [| | | |items|]; try done.
  destruct (buildChildren items _ st); [|done]. by intros [= <-].
Qed.

(** X11. In a built tree the root has no parents, a non-empty name
    ("root" when the configuration gives none) and that name as full
    name; every node below it has a non-empty name and as full name its
    parents and its name joined by spaces; and the parents of a child
    are always the parents of its parent followed by the parent's name,
    so [Parents] spells the path from the root. *)
Theorem built_tree_identity cfg st root :
  BuildFromConfigMap cfg st = Ok root ->
  Command_Parents root = []
  /\ Command_FullName root = Command_Name root
  /\ Command_Name root
     = (if String.eqb (fst (asString (index_key cfg "name"))) "" then "root"
        else fst (asString (index_key cfg "name")))
  /\ Command_Name root <> ""
  /\ (forall d,
        In d (DeepCommands root false) ->
        Command_Name d <> ""
        /\ Command_FullName d
           = strings.Join (Command_Parents d ++ [Command_Name d]) " ")
  /\ (forall d child,
        In d (DeepCommands root true) -> In child (Command_Commands d) ->
        Command_Parents child = Command_Parents d ++ [Command_Name d]).
Proof.
  intros Hbuild.
  destruct (BuildFromConfigMap_root cfg st root Hbuild)
    as (Hparents & Hfull & Hdefault & Hname & _).
  pose proof (BuildFromConfigMap_builtNode cfg st root Hbuild) as Hnodes.
  rewrite List.Forall_forall in Hnodes.
  destruct (BuildFromConfigMap_children cfg st root Hbuild) as [_ Hchildren].
  rewrite List.Forall_forall in Hchildren.
  split; [done|]. split; [done|]. split; [done|]. split; [done|]. split.
  - intros d Hd. by destruct (Hnodes d Hd) as (? & ? & _).
  - intros d child [<- | Hd] Hchild.
    + rewrite Hparents. by destruct (Hchildren child Hchild) as [-> _].
    + unfold DeepCommands in Hd. cbn [app] in Hd.
      apply in_flat_map in Hd as (c & Hc & Hd).
      destruct (Hchildren c Hc) as [_ Hsub]. rewrite List.Forall_forall in Hsub.
      destruct (Hsub d Hd) as (_ & _ & Hkids).
      rewrite List.Forall_forall in Hkids. by apply Hkids.
Qed.

(** X12. In a built tree every node below the root has an alias list
    that starts with its own name and goes on with non-empty strings
    only; the root is given no alias list at all. *)
Theorem built_tree_alias cfg st root :
  BuildFromConfigMap cfg st = Ok root ->
  Command_Alias root = []
  /\ forall d,
       In d (DeepCommands root false) ->
       exists alts,
         Command_Alias d = Command_Name d :: alts
         /\ Forall (fun a => a <> "") alts.
Proof.
  intros Hbuild.
  destruct (BuildFromConfigMap_root cfg st root Hbuild) as (_ & _ & _ & _ & Halias & _).
  split; [done|]. intros d Hd.
  pose proof (BuildFromConfigMap_builtNode cfg st root Hbuild) as Hnodes.
  rewrite List.Forall_forall in Hnodes. by destruct (Hnodes d Hd) as (_ & _ & ?).
Qed.

Lemma buildChild_structuralError raw :
  forall st parent i msg,
    buildChild st parent i raw = Err msg -> structuralError msg.
Proof.
  induction raw as [raw Hraw | opts IH] using any_entry_ind; intros st parent i msg.
  { rewrite buildChild_not_mapping by done. intros [= <-]. right. left. by exists i. }
  rewrite buildChild_mapping. cbv zeta.
  destruct (String.eqb _ ""); [intros [= <-]; right; right; left; by exists i|].
  set (cmd := childCommand opts parent _ st).
  destruct (lookup_key opts "commands") as [sub|]; [|done].
  destruct sub as [| | | |l|];
    try (intros [= <-]; right; right; right; by exists (Command_FullName cmd)).
  destruct (buildChildren l cmd st) as [children|e] eqn:Hchildren; [done|].
  intros [= <-]. apply eachChild_error in Hchildren as (j & x & Hin & Hx).
  specialize (IH l eq_refl). rewrite List.Forall_forall in IH.
  by apply (IH x Hin st cmd j).
Qed.

(** X13. Whenever the build fails, its message is one of four: the
    root's [commands] is not a list, an entry at some index is not a
    mapping, an entry at some index has no name, or the [commands] of a
    named command is not a list. *)
Theorem BuildFromConfigMap_error_shapes cfg st msg :
  BuildFromConfigMap cfg st = Err msg -> structuralError msg.
Proof.
  unfold BuildFromConfigMap. cbv zeta.
  destruct (lookup_key cfg "commands") as [cmds|]; [|done].
  destruct cmds as [| | | |items|]; try (intros [= <-]; by left).
  match goal with
  | |- context [buildChildren items ?r st] => set (root0 := r)
  end.
  destruct (buildChildren items root0 st) as [children|e] eqn:Hchildren; [done|].
  intros [= <-]. apply eachChild_error in Hchildren as (j & x & _ & Hx).
  by apply (buildChild_structuralError x st root0 j).
Qed.

End builder_more.

(** ** Visible declarations and the printed tree *)

Section tree_printing.

Lemma publicFlags_filter flags :
  publicFlags flags = List.filter (fun f => negb (Flag_Private f)) flags.
Proof.
  induction flags as [|f flags IH]; [done|].
  cbn [publicFlags List.filter]. destruct (Flag_Private f); cbn [negb]; by rewrite IH.
Qed.

Lemma publicEnvVars_filter envVars :
  publicEnvVars envVars = List.filter (fun ev => negb (EnvVar_Private ev)) envVars.
Proof.
  induction envVars as [|ev envVars IH]; [done|].
  cbn [publicEnvVars List.filter]. destruct (EnvVar_Private ev); cbn [negb]; by rewrite IH.
Qed.

Lemma filter_sublist {A : Type} (keep : A -> bool) l : sublist (List.filter keep l) l.
Proof.
  induction l as [|x l IH]; [constructor|].
  cbn [List.filter]. destruct (keep x); by constructor.
Qed.

(** X14. With private declarations revealed, a command shows all its
    flags and environment variables.  Otherwise it shows exactly those
    that are not private, in the declared order: a private one is never
    shown and a public one never dropped. *)
Theorem visible_declarations c :
  VisibleFlags c true = Command_Flags c
  /\ VisibleEnvVars c true = Command_EnvVars c
  /\ (forall f,
        In f (VisibleFlags c false) <->
        In f (Command_Flags c) /\ Flag_Private f = false)
  /\ (forall ev,
        In ev (VisibleEnvVars c false) <->
        In ev (Command_EnvVars c) /\ EnvVar_Private ev = false)
  /\ sublist (VisibleFlags c false) (Command_Flags c)
  /\ sublist (VisibleEnvVars c false) (Command_EnvVars c).
Proof.
  unfold VisibleFlags, VisibleEnvVars.
  rewrite publicFlags_filter, publicEnvVars_filter.
  split; [done|]. split; [done|].
  split; [|split; [|split; apply filter_sublist]].
  - intros f. rewrite filter_In, negb_true_iff. tauto.
  - intros ev. rewrite filter_In, negb_true_iff. tauto.
Qed.

(** Induction on a command that may assume the property of every child. *)
Lemma Command_deep_ind (P : Command -> Prop) :
  (forall c, Forall P (Command_Commands c) -> P c) -> forall c, P c.
Proof.
  intros Hnode. fix IH 1. intros c. apply Hnode.
  destruct c as [? ? ? ? ? ? ? ? ? ? ? ? children]. cbn [Command_Commands].
  induction children as [|child children IHc]; constructor; [apply IH | exact IHc].
Qed.

Lemma printTreeNode_unfold opts c prefix isLast :
  printTreeNode opts c prefix isLast =
    if Command_Private c && negb (RevealPrivate opts) then []
    else
      (if String.eqb prefix "" then rootLabel opts c +:+ LF
       else prefix +:+ (if isLast then "└─" else "├─") +:+ " "
            +:+ treeLabel opts c +:+ LF)
      :: (fix children (l : list Command) : list string :=
            match l with
            | [] => []
            | child :: l' =>
                printTreeNode opts child
                  (if isLast then prefix +:+ "  " else prefix +:+ "│ ")
                  (match l' with [] => true | _ :: _ => false end)
                ++ children l'
            end) (Command_Commands c).
Proof.
  destruct c. cbn [printTreeNode]. unfold rootLabel, treeLabel.
  destruct (_ && _); [done|]. by destruct (String.eqb prefix "").
Qed.

Lemma visibleFrom_unfold reveal c :
  visibleFrom reveal c =
    if Command_Private c && negb reveal then []
    else c :: flat_map (visibleFrom reveal) (Command_Commands c).
Proof. by destruct c. Qed.

Lemma append_assoc (a b c : string) : (a +:+ b) +:+ c = a +:+ b +:+ c.
Proof. induction a as [|x a IH]; [done|]. by rewrite !append_cons, IH. Qed.

Lemma append_nonempty (a b : string) : b <> "" -> a +:+ b <> "".
Proof. destruct a; [done|]. by rewrite append_cons. Qed.

Lemma printTreeNode_lines opts c :
  forall prefix isLast,
    prefix <> "" ->
    Forall2 (nodeLine opts) (printTreeNode opts c prefix isLast)
      (visibleFrom (RevealPrivate opts) c).
Proof.
  induction c as [c IH] using Command_deep_ind. intros prefix isLast Hprefix.
  rewrite printTreeNode_unfold, visibleFrom_unfold.
  destruct (Command_Private c && negb (RevealPrivate opts)); [constructor|].
  apply String.eqb_neq in Hprefix as Heq. rewrite Heq. constructor.
  - exists (prefix +:+ (if isLast then "└─" else "├─")). by rewrite append_assoc.
  - set (next := if isLast then prefix +:+ "  " else prefix +:+ "│ ").
    assert (Hnext : next <> "").
    { unfold next. by destruct isLast; apply append_nonempty. }
    induction IH as [|child children Hchild _ IHc]; [constructor|].
    cbn [flat_map]. apply Forall2_app; [by apply Hchild | exact IHc].
Qed.

Lemma visibleFrom_revealed c : visibleFrom true c = deepCommandsFrom c.
Proof.
  induction c as [c IH] using Command_deep_ind.
  rewrite visibleFrom_unfold, deepCommandsFrom_unfold, andb_false_r. f_equal.
  induction IH as [|child children Hchild _ IHc]; [done|].
  cbn [flat_map]. by rewrite Hchild, IHc.
Qed.

(** X15. [PrintTree] writes one line per shown node, in depth-first
    order: first the root's text and a newline, then for every shown
    node below the root a lead, a space, the node's text and a newline.
    A private node is shown, with its descendants, only when private
    nodes are revealed; a private root that is not revealed writes
    nothing.  With private nodes revealed there are as many lines as
    nodes in the tree. *)
Theorem PrintTree_lines root opts :
  (Command_Private root && negb (RevealPrivate opts) = true ->
   PrintTree root opts = [])
  /\ (Command_Private root && negb (RevealPrivate opts) = false ->
      exists below,
        PrintTree root opts = (rootLabel opts root +:+ LF) :: below
        /\ Forall2 (nodeLine opts) below
             (flat_map (visibleFrom (RevealPrivate opts)) (Command_Commands root)))
  /\ (RevealPrivate opts = true ->
      length (PrintTree root opts) = length (DeepCommands root true)).
Proof.
  unfold PrintTree. split; [|split].
  - intros Hhidden. by rewrite printTreeNode_unfold, Hhidden.
  - intros Hshown. rewrite printTreeNode_unfold, Hshown. cbn [String.eqb].
    eexists. split; [reflexivity|].
    induction (Command_Commands root) as [|child children IHc]; [constructor|].
    cbn [flat_map]. apply Forall2_app; [|exact IHc].
    by apply printTreeNode_lines.
  - intros Hreveal.
    assert (Hall : forall c prefix isLast,
              length (printTreeNode opts c prefix isLast)
              = length (deepCommandsFrom c)).
    { induction c as [c IH] using Command_deep_ind. intros prefix isLast.
      rewrite printTreeNode_unfold, deepCommandsFrom_unfold, Hreveal, andb_false_r.
      cbn [length]. f_equal.
      set (next := if isLast then prefix +:+ "  " else prefix +:+ "│ ").
      induction IH as [|child children Hchild _ IHc]; [done|].
      cbn [flat_map]. by rewrite !length_app, Hchild, IHc. }
    rewrite Hall. unfold DeepCommands. cbn [app length].
    by rewrite deepCommandsFrom_unfold.
Qed.

Lemma PrintTree_lines_witness :
  length (PrintTree (rootOver [leaf ["root"] "a" []; leaf ["root"] "b" []])
            (mkTreePrintOptions false true))
  = length (DeepCommands (rootOver [leaf ["root"] "a" []; leaf ["root"] "b" []]) true).
Proof.
  apply (proj2 (proj2 (PrintTree_lines
           (rootOver [leaf ["root"] "a" []; leaf ["root"] "b" []])
           (mkTreePrintOptions false true)))).
  reflexivity.
Defined.

End tree_printing.

(** ** Splitting into lines and joining again *)

Section lines.

Lemma length_append (a b : string) :
  String.length (a +:+ b) = (String.length a + String.length b)%nat.
Proof. induction a as [|x a IH]; [done|]. rewrite append_cons. cbn [String.length]. lia. Qed.

Lemma take_append (a b : string) : strings.take (String.length a) (a +:+ b) = a.
Proof.
  induction a as [|x a IH]; [by destruct b|].
  rewrite append_cons. cbn [String.length strings.take]. by rewrite IH.
Qed.

Lemma drop_append (a b : string) : strings.drop (String.length a) (a +:+ b) = b.
Proof. induction a as [|x a IH]; [done|]. rewrite append_cons. exact IH. Qed.

Lemma Join_cons x y l sep :
  strings.Join (x :: y :: l) sep = x +:+ sep +:+ strings.Join (y :: l) sep.
Proof. reflexivity. Qed.

Lemma HasPrefix_single c s :
  strings.HasPrefix s (String c "") =
    match s with
    | String c' _ => if Ascii.ascii_dec c c' then true else false
    | EmptyString => false
    end.
Proof.
  unfold strings.HasPrefix. destruct s as [|c' s]; [done|].
  rewrite prefix_cons. destruct (Ascii.ascii_dec c c'); [apply prefix_nil | done].
Qed.

(** In a piece without the separator followed by the separator, the
    first separator is right after the piece. *)
Lemma Index_after c a b :
  strings.Index a (String c "") = None ->
  strings.Index (a +:+ String c b) (String c "") = Some (String.length a).
Proof.
  induction a as [|x a IH].
  - intros _. rewrite append_nil, Index_unfold, HasPrefix_single.
    by destruct (Ascii.ascii_dec c c).
  - rewrite append_cons, !(Index_unfold (String x _)), !HasPrefix_single.
    destruct (Ascii.ascii_dec c x); [done|].
    destruct (strings.Index a (String c "")) eqn:Ha; [done|].
    intros _. by rewrite IH.
Qed.

Lemma Index_bound c s m :
  strings.Index s (String c "") = Some m -> (m < String.length s)%nat.
Proof.
  revert m. induction s as [|x s IH]; intros m; rewrite Index_unfold, HasPrefix_single.
  - done.
  - destruct (Ascii.ascii_dec c x).
    + intros [= <-]. cbn [String.length]. lia.
    + destruct (strings.Index s (String c "")) as [k|] eqn:Hk; [|done].
      intros [= <-]. cbn [String.length]. specialize (IH k eq_refl). lia.
Qed.

Lemma Index_take c s m :
  strings.Index s (String c "") = Some m ->
  strings.Index (strings.take m s) (String c "") = None.
Proof.
  revert m. induction s as [|x s IH]; intros m; rewrite Index_unfold, HasPrefix_single.
  - done.
  - destruct (Ascii.ascii_dec c x) as [|Hne]; [by intros [= <-]|].
    destruct (strings.Index s (String c "")) as [k|] eqn:Hk; [|done].
    intros [= <-]. cbn [strings.take]. rewrite Index_unfold, HasPrefix_single.
    destruct (Ascii.ascii_dec c x); [done|]. by rewrite (IH k).
Qed.

Lemma length_drop n s : String.length (strings.drop n s) = (String.length s - n)%nat.
Proof.
  revert s. induction n as [|n IH]; intros s; [cbn; lia|].
  destruct s as [|x s]; [done|]. cbn [strings.drop String.length]. by rewrite IH.
Qed.

Lemma SplitN_step s sep n :
  strings.SplitN s sep (S (S n)) =
    match strings.Index s sep with
    | None => [s]
    | Some m =>
        strings.take m s
        :: strings.SplitN (strings.drop (m + String.length sep) s) sep (S n)
    end.
Proof. reflexivity. Qed.

Lemma SplitN_nonempty s sep n : strings.SplitN s sep (S n) <> [].
Proof. destruct n; [done|]. rewrite SplitN_step. by destruct (strings.Index s sep). Qed.

(** Joining the pieces gives the string back. *)
Lemma Join_SplitN s sep n : strings.Join (strings.SplitN s sep (S n)) sep = s.
Proof.
  revert s. induction n as [|n IH]; intros s; [done|].
  rewrite SplitN_step. destruct (strings.Index s sep) as [m|] eqn:Hm; [|done].
  pose proof (SplitN_nonempty (strings.drop (m + String.length sep) s) sep n) as Hne.
  destruct (strings.SplitN _ sep (S n)) as [|y l] eqn:Hrest; [done|].
  rewrite Join_cons, <- Hrest, IH. symmetry. by apply Index_split.
Qed.

(** With enough pieces allowed, no piece holds the separator. *)
Lemma SplitN_pieces c s n :
  (String.length s < n)%nat ->
  Forall (fun piece => strings.Index piece (String c "") = None)
    (strings.SplitN s (String c "") n).
Proof.
  revert s. induction n as [|n IH]; intros s Hn; [lia|].
  destruct n as [|n].
  - destruct s; [|cbn [String.length] in Hn; lia]. by repeat constructor.
  - rewrite SplitN_step. destruct (strings.Index s (String c "")) as [m|] eqn:Hm.
    + constructor; [by apply Index_take|]. apply IH.
      rewrite length_drop. apply Index_bound in Hm. cbn [String.length]. lia.
    + by repeat constructor.
Qed.

(** Splitting what was joined from pieces without the separator gives
    the pieces back. *)
Lemma SplitN_Join c pieces n :
  pieces <> [] ->
  Forall (fun piece => strings.Index piece (String c "") = None) pieces ->
  (String.length (strings.Join pieces (String c "")) < n)%nat ->
  strings.SplitN (strings.Join pieces (String c "")) (String c "") n = pieces.
Proof.
  intros Hne Hall. revert n. induction Hall as [|x l Hx Hl IH]; [done|]. intros n Hn.
  destruct l as [|y l].
  - cbn [strings.Join String.concat] in *. destruct n as [|[|n]]; [lia | done |].
    by rewrite SplitN_step, Hx.
  - rewrite Join_cons in *. rewrite length_append in Hn.
    change (String c "" +:+ strings.Join (y :: l) (String c ""))
      with (String c (strings.Join (y :: l) (String c ""))) in *.
    cbn [String.length] in Hn.
    destruct n as [|[|n]]; [lia | lia |].
    rewrite SplitN_step, (Index_after c x _ Hx). cbn [String.length].
    rewrite take_append. f_equal.
    replace (String.length x + 1)%nat with (S (String.length x)) by lia.
    assert (Hdrop : forall r, strings.drop (S (String.length x)) (x +:+ String c r) = r).
    { intros r. clear. induction x as [|a x IHx]; [done|].
      rewrite append_cons. exact IHx. }
    rewrite Hdrop. apply IH; [done | lia].
Qed.

End lines.

(** ** The formatting pipeline *)

Section formatting_facts.
Import generate.
Context `{PathLib}.

Lemma collapseBlank_cons line lines prevBlank :
  collapseBlank (line :: lines) prevBlank =
    if isBlankLine line && prevBlank then collapseBlank lines prevBlank
    else line :: collapseBlank lines (isBlankLine line).
Proof. reflexivity. Qed.

Lemma collapseBlank_sublist lines prevBlank :
  sublist (collapseBlank lines prevBlank) lines.
Proof.
  revert prevBlank. induction lines as [|line lines IH]; intros prevBlank; [constructor|].
  rewrite collapseBlank_cons. destruct (isBlankLine line && prevBlank); by constructor.
Qed.

Lemma collapseBlank_no_run lines prevBlank :
  blankRun (collapseBlank lines prevBlank) prevBlank = false.
Proof.
  revert prevBlank. induction lines as [|line lines IH]; intros prevBlank; [done|].
  rewrite collapseBlank_cons. destruct (isBlankLine line && prevBlank) eqn:Hskip; [done|].
  cbn [blankRun]. by rewrite Hskip, IH.
Qed.

Lemma collapseBlank_fixed lines prevBlank :
  blankRun lines prevBlank = false -> collapseBlank lines prevBlank = lines.
Proof.
  revert prevBlank. induction lines as [|line lines IH]; intros prevBlank; [done|].
  cbn [blankRun]. intros [Hskip Hrest]%orb_false_iff.
  by rewrite collapseBlank_cons, Hskip, IH.
Qed.

Lemma collapseBlank_keeps lines prevBlank :
  List.filter (fun line => negb (isBlankLine line)) (collapseBlank lines prevBlank)
  = List.filter (fun line => negb (isBlankLine line)) lines.
Proof.
  revert prevBlank. induction lines as [|line lines IH]; intros prevBlank; [done|].
  rewrite collapseBlank_cons. cbn [List.filter].
  destruct (isBlankLine line) eqn:Hblank; cbn [andb negb].
  - destruct prevBlank; [apply IH|]. cbn [List.filter]. rewrite Hblank.
    cbn [negb]. apply IH.
  - cbn [List.filter]. rewrite Hblank. cbn [negb]. by rewrite IH.
Qed.

Lemma collapseBlank_first line lines :
  exists rest, collapseBlank (line :: lines) false = line :: rest.
Proof. rewrite collapseBlank_cons, andb_false_r. by eexists. Qed.

Lemma sublist_Forall_keep {A : Type} (P : A -> Prop) l1 l2 :
  sublist l1 l2 -> Forall P l2 -> Forall P l1.
Proof.
  induction 1 as [|x l1 l2 _ IH|x l1 l2 _ IH]; [done| |];
    inversion 1; subst; [constructor|]; auto.
Qed.

(** The lines of the result are the collapsed lines of the content. *)
Lemma removeExcessNewlines_lines content :
  strings.Split (removeExcessNewlines content) LF
  = collapseBlank (strings.Split content LF) false.
Proof.
  unfold removeExcessNewlines, strings.Split at 1. cbv zeta.
  apply (SplitN_Join "010").
  - unfold strings.Split.
    pose proof (SplitN_nonempty content LF (String.length content)) as Hne.
    destruct (strings.SplitN content LF _) as [|line lines]; [done|].
    by destruct (collapseBlank_first line lines) as [rest ->].
  - apply (sublist_Forall_keep _ _ (strings.Split content LF));
      [apply collapseBlank_sublist|].
    apply (SplitN_pieces "010"). apply Nat.lt_succ_diag_r.
  - apply Nat.lt_succ_diag_r.
Qed.

(** X16. The result of [removeExcessNewlines] never has two blank lines
    in a row.  Its lines are lines of the content in their order, and
    every line that is not blank is kept. *)
Theorem removeExcessNewlines_collapses content :
  let before := strings.Split content LF in
  let after := strings.Split (removeExcessNewlines content) LF in
  blankRun after false = false
  /\ sublist after before
  /\ List.filter (fun line => negb (isBlankLine line)) after
     = List.filter (fun line => negb (isBlankLine line)) before.
Proof.
  cbv zeta. rewrite removeExcessNewlines_lines.
  split; [apply collapseBlank_no_run|].
  split; [apply collapseBlank_sublist | apply collapseBlank_keeps].
Qed.

(** X17. [removeExcessNewlines] is idempotent: a second pass changes
    nothing. *)
Theorem removeExcessNewlines_idempotent content :
  removeExcessNewlines (removeExcessNewlines content) = removeExcessNewlines content.
Proof.
  unfold removeExcessNewlines at 1. cbv zeta. rewrite removeExcessNewlines_lines.
  rewrite (collapseBlank_fixed _ false (collapseBlank_no_run _ false)).
  reflexivity.
Qed.

(** X18. A content without two blank lines in a row is returned as it
    is, byte for byte. *)
Theorem removeExcessNewlines_unchanged content :
  blankRun (strings.Split content LF) false = false ->
  removeExcessNewlines content = content.
Proof.
  intros Hrun. unfold removeExcessNewlines. cbv zeta.
  rewrite (collapseBlank_fixed _ false Hrun). apply Join_SplitN.
Qed.

End formatting_facts.

Section formatting_script.
Import generate.
Context `{PathLib}.
Variable runFormatter : string -> string -> string + string * string.

(** X19. [FormatScript] never returns both an error and a formatted
    text.  The formatters "internal" and "none" never report an error,
    and "none" without tab indentation returns the content as it is.
    For any other formatter the result is the output of the external
    command, or its failure with an empty text. *)
Theorem FormatScript_results content formatter tabIndent :
  let r := FormatScript runFormatter content formatter tabIndent in
  (Error r = "" \/ Formatted r = "")
  /\ (formatter = "internal" \/ formatter = "none" -> Error r = "")
  /\ (formatter = "none" -> tabIndent = false -> Formatted r = content)
  /\ (Error r <> "" ->
      formatter <> "internal" /\ formatter <> "none"
      /\ exists err stderr,
           runFormatter formatter
             (if tabIndent then strings_ReplaceAll content "  " TAB else content)
           = inr (err, stderr)).
Proof.
  cbv zeta. unfold FormatScript. cbv zeta.
  set (text := if tabIndent then strings_ReplaceAll content "  " TAB else content).
  destruct (String.eqb_spec formatter "internal") as [-> | Hinternal].
  { cbn [Error Formatted]. split; [by left|]. split; [done|]. by split. }
  destruct (String.eqb_spec formatter "none") as [-> | Hnone].
  { cbn [Error Formatted]. split; [by left|]. split; [done|]. split; [|done].
    intros _ Htab. unfold text. by rewrite Htab. }
  destruct (runFormatter formatter text) as [out | [err stderr]] eqn:Hrun;
    cbn [Error Formatted].
  - split; [by left|]. split; [by intros [|]|]. by split.
  - split; [by right|]. split; [by intros [|]|]. split; [done|].
    intros _. split; [done|]. split; [done|]. by exists err, stderr.
Qed.

End formatting_script.

(** ** Resolving the settings *)

Section settings_facts.
Import settings_load.
Context `{PathLib}.
Variable env : gmap string string.

Lemma assign_other {A B : Type} (proj : Settings -> B) (guard : option A) set s :
  (forall v s, proj (set v s) = proj s) -> proj (assign guard set s) = proj s.
Proof. intros Hset. destruct guard; [apply Hset | done]. Qed.

Lemma assign_same {A : Type} (proj : Settings -> A) (guard : option A) set s :
  (forall v s, proj (set v s) = v) -> proj (assign guard set s) = default (proj s) guard.
Proof. intros Hset. destruct guard; [apply Hset | done]. Qed.

Ltac project proj :=
  repeat first [ rewrite (assign_other proj) by reflexivity
               | rewrite (assign_same proj) by reflexivity ].

Lemma Settings_ext (s1 s2 : Settings) :
  Env s1 = Env s2 ->
  SourceDir s1 = SourceDir s2 ->
  ConfigPath s1 = ConfigPath s2 ->
  TargetDir s1 = TargetDir s2 ->
  CommandsDir s1 = CommandsDir s2 ->
  LibDir s1 = LibDir s2 ->
  ExtraLibDirs s1 = ExtraLibDirs s2 ->
  PartialsExtension s1 = PartialsExtension s2 ->
  TabIndent s1 = TabIndent s2 ->
  Formatter s1 = Formatter s2 ->
  EnableHeaderComment s1 = EnableHeaderComment s2 ->
  EnableBash3Bouncer s1 = EnableBash3Bouncer s2 ->
  EnableInspectArgs s1 = EnableInspectArgs s2 ->
  EnableViewMarkers s1 = EnableViewMarkers s2 ->
  EnableDepsArray s1 = EnableDepsArray s2 ->
  EnableEnvVarNamesArray s1 = EnableEnvVarNamesArray s2 ->
  EnableSourcing s1 = EnableSourcing s2 ->
  PrivateRevealKey s1 = PrivateRevealKey s2 ->
  s1 = s2.
Proof. destruct s1, s2. cbn. intros. by subst. Qed.

(** Field by field, what the three passes assign. *)
Lemma applyEnv_fields s :
  Env (applyEnv env s) = default (Env s) (nonEmpty (env !! "BASHLY_ENV"))
  /\ SourceDir (applyEnv env s) = default (SourceDir s) (env !! "BASHLY_SOURCE_DIR")
  /\ ConfigPath (applyEnv env s) = default (ConfigPath s) (env !! "BASHLY_CONFIG_PATH")
  /\ TargetDir (applyEnv env s) = default (TargetDir s) (env !! "BASHLY_TARGET_DIR")
  /\ CommandsDir (applyEnv env s) = default (CommandsDir s) (env !! "BASHLY_COMMANDS_DIR")
  /\ LibDir (applyEnv env s) = default (LibDir s) (env !! "BASHLY_LIB_DIR")
  /\ ExtraLibDirs (applyEnv env s) = default (ExtraLibDirs s) (envList (env !! "BASHLY_EXTRA_LIB_DIRS"))
  /\ PartialsExtension (applyEnv env s) = default (PartialsExtension s) (nonEmpty (env !! "BASHLY_PARTIALS_EXTENSION"))
  /\ TabIndent (applyEnv env s) = default (TabIndent s) (envBool (env !! "BASHLY_TAB_INDENT"))
  /\ Formatter (applyEnv env s) = default (Formatter s) (nonEmpty (env !! "BASHLY_FORMATTER"))
  /\ EnableHeaderComment (applyEnv env s) = default (EnableHeaderComment s) (nonEmpty (env !! "BASHLY_ENABLE_HEADER_COMMENT"))
  /\ EnableBash3Bouncer (applyEnv env s) = default (EnableBash3Bouncer s) (nonEmpty (env !! "BASHLY_ENABLE_BASH3_BOUNCER"))
  /\ EnableInspectArgs (applyEnv env s) = default (EnableInspectArgs s) (nonEmpty (env !! "BASHLY_ENABLE_INSPECT_ARGS"))
  /\ EnableViewMarkers (applyEnv env s) = default (EnableViewMarkers s) (nonEmpty (env !! "BASHLY_ENABLE_VIEW_MARKERS"))
  /\ EnableDepsArray (applyEnv env s) = default (EnableDepsArray s) (nonEmpty (env !! "BASHLY_ENABLE_DEPS_ARRAY"))
  /\ EnableEnvVarNamesArray (applyEnv env s) = default (EnableEnvVarNamesArray s) (nonEmpty (env !! "BASHLY_ENABLE_ENV_VAR_NAMES_ARRAY"))
  /\ EnableSourcing (applyEnv env s) = default (EnableSourcing s) (nonEmpty (env !! "BASHLY_ENABLE_SOURCING"))
  /\ PrivateRevealKey (applyEnv env s) = default (PrivateRevealKey s) (env !! "BASHLY_PRIVATE_REVEAL_KEY").
Proof.
  unfold applyEnv. cbv zeta.
  repeat apply conj;
    [ project Env
    | project SourceDir
    | project ConfigPath
    | project TargetDir
    | project CommandsDir
    | project LibDir
    | project ExtraLibDirs
    | project PartialsExtension
    | project TabIndent
    | project Formatter
    | project EnableHeaderComment
    | project EnableBash3Bouncer
    | project EnableInspectArgs
    | project EnableViewMarkers
    | project EnableDepsArray
    | project EnableEnvVarNamesArray
    | project EnableSourcing
    | project PrivateRevealKey ];
    reflexivity.
Qed.

Lemma applyMap_fields s m :
  Env (applyMap s m) = default (Env s) (nonEmpty (isString (index_key m "env")))
  /\ SourceDir (applyMap s m) = default (SourceDir s) (isString (index_key m "source_dir"))
  /\ ConfigPath (applyMap s m) = default (ConfigPath s) (isString (index_key m "config_path"))
  /\ TargetDir (applyMap s m) = default (TargetDir s) (isString (index_key m "target_dir"))
  /\ CommandsDir (applyMap s m) = default (CommandsDir s) (nilOrString (lookup_key m "commands_dir"))
  /\ LibDir (applyMap s m) = default (LibDir s) (nonEmpty (isString (index_key m "lib_dir")))
  /\ ExtraLibDirs (applyMap s m) = default (ExtraLibDirs s) (nilOrList (lookup_key m "extra_lib_dirs"))
  /\ PartialsExtension (applyMap s m) = default (PartialsExtension s) (nonEmpty (isString (index_key m "partials_extension")))
  /\ TabIndent (applyMap s m) = default (TabIndent s) (nilOrBool (lookup_key m "tab_indent"))
  /\ Formatter (applyMap s m) = default (Formatter s) (nonEmpty (isString (index_key m "formatter")))
  /\ EnableHeaderComment (applyMap s m) = default (EnableHeaderComment s) (nonEmpty (isString (index_key m "enable_header_comment")))
  /\ EnableBash3Bouncer (applyMap s m) = default (EnableBash3Bouncer s) (nonEmpty (isString (index_key m "enable_bash3_bouncer")))
  /\ EnableInspectArgs (applyMap s m) = default (EnableInspectArgs s) (nonEmpty (isString (index_key m "enable_inspect_args")))
  /\ EnableViewMarkers (applyMap s m) = default (EnableViewMarkers s) (nonEmpty (isString (index_key m "enable_view_markers")))
  /\ EnableDepsArray (applyMap s m) = default (EnableDepsArray s) (nonEmpty (isString (index_key m "enable_deps_array")))
  /\ EnableEnvVarNamesArray (applyMap s m) = default (EnableEnvVarNamesArray s) (nonEmpty (isString (index_key m "enable_env_var_names_array")))
  /\ EnableSourcing (applyMap s m) = default (EnableSourcing s) (nonEmpty (isString (index_key m "enable_sourcing")))
  /\ PrivateRevealKey (applyMap s m) = default (PrivateRevealKey s) (nilOrString (lookup_key m "private_reveal_key")).
Proof.
  unfold applyMap. cbv zeta.
  repeat apply conj;
    [ project Env
    | project SourceDir
    | project ConfigPath
    | project TargetDir
    | project CommandsDir
    | project LibDir
    | project ExtraLibDirs
    | project PartialsExtension
    | project TabIndent
    | project Formatter
    | project EnableHeaderComment
    | project EnableBash3Bouncer
    | project EnableInspectArgs
    | project EnableViewMarkers
    | project EnableDepsArray
    | project EnableEnvVarNamesArray
    | project EnableSourcing
    | project PrivateRevealKey ];
    reflexivity.
Qed.

Lemma applyPerEnvOverrides_fields s m e :
  strings_TrimSpace (Env s) = e -> e <> "" ->
  Env (applyPerEnvOverrides s m) = Env s
  /\ SourceDir (applyPerEnvOverrides s m) = default (SourceDir s) (isString (index_key m ("source_dir_" +:+ e)))
  /\ ConfigPath (applyPerEnvOverrides s m) = default (ConfigPath s) (isString (index_key m ("config_path_" +:+ e)))
  /\ TargetDir (applyPerEnvOverrides s m) = default (TargetDir s) (isString (index_key m ("target_dir_" +:+ e)))
  /\ CommandsDir (applyPerEnvOverrides s m) = default (CommandsDir s) (nilOrString (lookup_key m ("commands_dir_" +:+ e)))
  /\ LibDir (applyPerEnvOverrides s m) = default (LibDir s) (nonEmpty (isString (index_key m ("lib_dir_" +:+ e))))
  /\ ExtraLibDirs (applyPerEnvOverrides s m) = default (ExtraLibDirs s) (nilOrList (lookup_key m ("extra_lib_dirs_" +:+ e)))
  /\ PartialsExtension (applyPerEnvOverrides s m) = default (PartialsExtension s) (nonEmpty (isString (index_key m ("partials_extension_" +:+ e))))
  /\ TabIndent (applyPerEnvOverrides s m) = default (TabIndent s) (nilOrBool (lookup_key m ("tab_indent_" +:+ e)))
  /\ Formatter (applyPerEnvOverrides s m) = default (Formatter s) (nonEmpty (isString (index_key m ("formatter_" +:+ e))))
  /\ EnableHeaderComment (applyPerEnvOverrides s m) = default (EnableHeaderComment s) (nonEmpty (isString (index_key m ("enable_header_comment_" +:+ e))))
  /\ EnableBash3Bouncer (applyPerEnvOverrides s m) = default (EnableBash3Bouncer s) (nonEmpty (isString (index_key m ("enable_bash3_bouncer_" +:+ e))))
  /\ EnableInspectArgs (applyPerEnvOverrides s m) = default (EnableInspectArgs s) (nonEmpty (isString (index_key m ("enable_inspect_args_" +:+ e))))
  /\ EnableViewMarkers (applyPerEnvOverrides s m) = default (EnableViewMarkers s) (nonEmpty (isString (index_key m ("enable_view_markers_" +:+ e))))
  /\ EnableDepsArray (applyPerEnvOverrides s m) = default (EnableDepsArray s) (nonEmpty (isString (index_key m ("enable_deps_array_" +:+ e))))
  /\ EnableEnvVarNamesArray (applyPerEnvOverrides s m) = default (EnableEnvVarNamesArray s) (nonEmpty (isString (index_key m ("enable_env_var_names_array_" +:+ e))))
  /\ EnableSourcing (applyPerEnvOverrides s m) = default (EnableSourcing s) (nonEmpty (isString (index_key m ("enable_sourcing_" +:+ e))))
  /\ PrivateRevealKey (applyPerEnvOverrides s m) = default (PrivateRevealKey s) (nilOrString (lookup_key m ("private_reveal_key_" +:+ e))).
Proof.
  intros He Hne. unfold applyPerEnvOverrides. cbv zeta. rewrite He.
  apply String.eqb_neq in Hne. rewrite Hne.
  repeat apply conj;
    [ project Env
    | project SourceDir
    | project ConfigPath
    | project TargetDir
    | project CommandsDir
    | project LibDir
    | project ExtraLibDirs
    | project PartialsExtension
    | project TabIndent
    | project Formatter
    | project EnableHeaderComment
    | project EnableBash3Bouncer
    | project EnableInspectArgs
    | project EnableViewMarkers
    | project EnableDepsArray
    | project EnableEnvVarNamesArray
    | project EnableSourcing
    | project PrivateRevealKey ];
    reflexivity.
Qed.

Lemma applyPerEnvOverrides_blank s m :
  strings_TrimSpace (Env s) = "" -> applyPerEnvOverrides s m = s.
Proof. intros He. unfold applyPerEnvOverrides. cbv zeta. by rewrite He. Qed.

(** Whatever was loaded, the environment is applied last. *)
Lemma Load_shape loaded st :
  Load env loaded = Ok st ->
  exists s,
    st = set_ConfigPath
           (strings_ReplaceAll (ConfigPath (applyEnv env s)) "%{source_dir}"
              (SourceDir (applyEnv env s)))
           (applyEnv env s)
    /\ match loaded with
       | Some (Ok m) => s = applyPerEnvOverrides (applyEnv env (applyMap Default m)) m
       | _ => s = Default
       end.
Proof.
  unfold Load. cbv zeta. destruct loaded as [[m|e]|]; [| done |].
  - intros [= <-]. by eexists.
  - intros [= <-]. by eexists.
Qed.

Ltac use_field :=
  match goal with
  | Heq : ?field (?pass ?s) = _ |- context [?field (?pass ?s)] => rewrite Heq
  | Heq : ?field (?pass ?s ?m) = _ |- context [?field (?pass ?s ?m)] => rewrite Heq
  end.

Ltac split_fields H := destruct H as (? & ? & ? & ? & ? & ? & ? & ? & ? & ? & ? & ?
                                      & ? & ? & ? & ? & ? & ?).

(** X20. The environment has the last word on every setting.  In the
    settings that [Load] returns, each of the five plain variables, when
    set, is the value of its setting, even when empty; each of the ten
    guarded variables is the value of its setting when set to a
    non-empty string; [BASHLY_CONFIG_PATH] is the configuration path
    before the source directory is interpolated;
    [BASHLY_EXTRA_LIB_DIRS] is split at commas and trimmed; and
    [BASHLY_TAB_INDENT] decides tab indentation when it parses as a
    boolean. *)
Theorem Load_env_final loaded st :
  Load env loaded = Ok st ->
  (forall name field v,
      In (name, field) plainVars -> env !! name = Some v -> field st = v)
  /\ (forall name field v,
        In (name, field) guardedVars -> env !! name = Some v -> v <> "" ->
        field st = v)
  /\ (forall v,
        env !! "BASHLY_CONFIG_PATH" = Some v ->
        ConfigPath st = strings_ReplaceAll v "%{source_dir}" (SourceDir st))
  /\ (forall v,
        env !! "BASHLY_EXTRA_LIB_DIRS" = Some v ->
        ExtraLibDirs st = map strings_TrimSpace (strings.Split v ","))
  /\ (forall v b,
        env !! "BASHLY_TAB_INDENT" = Some v -> parseEnvBool v = (b, true) ->
        TabIndent st = b).
Proof.
  intros (s & -> & _)%Load_shape.
  pose proof (applyEnv_fields s) as Hfields. split_fields Hfields.
  split; [|split; [|split; [|split]]].
  - intros name field v Hin Hv. cbn in Hin.
    repeat destruct Hin as [Hin | Hin]; try done;
      injection Hin as <- <-; cbn; use_field; by rewrite Hv.
  - intros name field v Hin Hv Hne. apply String.eqb_neq in Hne. cbn in Hin.
    repeat destruct Hin as [Hin | Hin]; try done;
      injection Hin as <- <-; cbn; use_field; rewrite Hv; cbn; by rewrite Hne.
  - intros v Hv. cbn. do 2 use_field. by rewrite Hv.
  - intros v Hv. cbn. use_field. by rewrite Hv.
  - intros v b Hv Hb. cbn. use_field. rewrite Hv. cbn. by rewrite Hb.
Qed.

Lemma default_idem {A : Type} (a : A) (guard : option A) :
  default (default a guard) guard = default a guard.
Proof. by destruct guard. Qed.

Lemma default_last {A : Type} (a : A) (last guard : option A) :
  default (default (default a last) guard) last = default (default a guard) last.
Proof. by destruct last, guard. Qed.

Lemma default_nonEmpty a guard : a <> "" -> default a (nonEmpty guard) <> "".
Proof.
  intros Ha. destruct guard as [v|]; [|done]. cbn.
  destruct (String.eqb_spec v ""); [done | by cbn].
Qed.

(** X21. How the two settings that the command model reads are chosen
    when a settings file is loaded.  The commands directory is
    [BASHLY_COMMANDS_DIR] when set; else the file's [commands_dir] key of
    the effective environment when that key holds a string or nil; else
    the file's [commands_dir] when it holds a string or nil; else empty.
    The partials extension follows the same order, reading only
    non-empty strings, and ends at "sh". *)
Theorem Load_precedence m st :
  Load env (Some (Ok m)) = Ok st ->
  CommandsDir st =
    default
      (default
         (default "" (nilOrString (lookup_key m "commands_dir")))
         match perEnvKey env m "commands_dir" with
         | Some k => nilOrString (lookup_key m k)
         | None => None
         end)
      (env !! "BASHLY_COMMANDS_DIR")
  /\ PartialsExtension st =
       default
         (default
            (default "sh" (nonEmpty (isString (index_key m "partials_extension"))))
            match perEnvKey env m "partials_extension" with
            | Some k => nonEmpty (isString (index_key m k))
            | None => None
            end)
         (nonEmpty (env !! "BASHLY_PARTIALS_EXTENSION")).
Proof.
  intros (s & -> & ->)%Load_shape. cbn [CommandsDir PartialsExtension set_ConfigPath].
  pose proof (applyEnv_fields (applyMap Default m)) as Hfirst.
  pose proof (applyMap_fields Default m) as Hbase.
  split_fields Hfirst. split_fields Hbase.
  assert (Henv : strings_TrimSpace (Env (applyEnv env (applyMap Default m)))
                 = effectiveEnv env m).
  { unfold effectiveEnv. by do 2 use_field. }
  unfold perEnvKey.
  destruct (String.eqb_spec (effectiveEnv env m) "") as [Hblank | Hnamed].
  - rewrite Hblank in Henv. rewrite (applyPerEnvOverrides_blank _ m Henv).
    pose proof (applyEnv_fields (applyEnv env (applyMap Default m))) as Hlast.
    split_fields Hlast.
    split; repeat use_field; apply default_idem.
  - pose proof (applyEnv_fields
                  (applyPerEnvOverrides (applyEnv env (applyMap Default m)) m)) as Hlast.
    pose proof (applyPerEnvOverrides_fields _ m _ Henv Hnamed) as Hper.
    split_fields Hlast. split_fields Hper.
    split; repeat use_field; apply default_last.
Qed.

Lemma guarded_applyEnv name field s :
  In (name, field) guardedVars -> field s <> "" -> field (applyEnv env s) <> "".
Proof.
  intros Hin Hs. pose proof (applyEnv_fields s) as Hfields. split_fields Hfields.
  cbn in Hin. repeat destruct Hin as [Hin | Hin]; try done;
    injection Hin as <- <-; use_field; by apply default_nonEmpty.
Qed.

Lemma guarded_applyMap name field s m :
  In (name, field) guardedVars -> field s <> "" -> field (applyMap s m) <> "".
Proof.
  intros Hin Hs. pose proof (applyMap_fields s m) as Hfields. split_fields Hfields.
  cbn in Hin. repeat destruct Hin as [Hin | Hin]; try done;
    injection Hin as <- <-; use_field; by apply default_nonEmpty.
Qed.

Lemma guarded_applyPerEnvOverrides name field s m :
  In (name, field) guardedVars -> field s <> "" ->
  field (applyPerEnvOverrides s m) <> "".
Proof.
  intros Hin Hs.
  destruct (String.eqb_spec (strings_TrimSpace (Env s)) "") as [Hblank | Hnamed];
    [by rewrite applyPerEnvOverrides_blank|].
  pose proof (applyPerEnvOverrides_fields s m _ eq_refl Hnamed) as Hfields.
  split_fields Hfields.
  cbn in Hin. repeat destruct Hin as [Hin | Hin]; try done;
    injection Hin as <- <-; use_field; by try apply default_nonEmpty.
Qed.

(** X22. The settings that [Load] returns never hold an empty
    environment name, partials extension, formatter or feature toggle:
    these ten start from non-empty defaults and neither the settings
    file nor the environment can blank them.  So on loaded settings the
    extension the tree builder uses is the partials extension itself,
    its fallback to "sh" being the default already. *)
Theorem Load_guarded_nonempty loaded st :
  Load env loaded = Ok st ->
  (forall name field, In (name, field) guardedVars -> field st <> "")
  /\ extension (forCommands st) = PartialsExtension st.
Proof.
  intros Hload.
  assert (Hall : forall name field, In (name, field) guardedVars -> field st <> "").
  { apply Load_shape in Hload as (s & -> & Hs). intros name field Hin.
    assert (Hlast : field (applyEnv env s) <> "").
    { apply (guarded_applyEnv name); [done|].
      assert (Hdefault : field Default <> "").
      { cbn in Hin. repeat destruct Hin as [Hin | Hin]; try done;
          by injection Hin as <- <-. }
      destruct loaded as [[m|e]|]; subst s; try done.
      apply (guarded_applyPerEnvOverrides name); [done|].
      apply (guarded_applyEnv name); [done|].
      by apply (guarded_applyMap name). }
    cbn in Hin. repeat destruct Hin as [Hin | Hin]; try done;
      by injection Hin as <- <-. }
  split; [exact Hall|].
  unfold extension, forCommands. cbn [settings.PartialsExtension].
  assert (Hext : PartialsExtension st <> "").
  { apply (Hall "BASHLY_PARTIALS_EXTENSION"). simpl. tauto. }
  apply String.eqb_neq in Hext. by rewrite Hext.
Qed.

(** X23. Applying the settings file twice, or the environment twice,
    is the same as applying it once; and a settings file without keys
    changes nothing. *)
Theorem settings_passes_idempotent s m :
  applyMap (applyMap s m) m = applyMap s m
  /\ applyEnv env (applyEnv env s) = applyEnv env s
  /\ applyMap s [] = s.
Proof.
  split; [|split].
  - pose proof (applyMap_fields (applyMap s m) m) as Houter.
    pose proof (applyMap_fields s m) as Hinner.
    split_fields Houter. split_fields Hinner.
    apply Settings_ext; use_field; use_field; apply default_idem.
  - pose proof (applyEnv_fields (applyEnv env s)) as Houter.
    pose proof (applyEnv_fields s) as Hinner.
    split_fields Houter. split_fields Hinner.
    apply Settings_ext; use_field; use_field; apply default_idem.
  - by destruct s.
Qed.

End settings_facts.

(** ** The further properties on samples *)

Section samples_more.
Import settings_load generate.

Lemma parseFlagsAndArgs_invariants_witness :
  strings.HasPrefix "--name" "-" = true
  \/ is_Some (ParsedArgs_Flags emptyParsed !! "--name").
Proof.
  apply (proj1 (parseFlagsAndArgs_invariants emptyParsed ["--name"; "x"; "y"]) "--name").
  vm_compute. by eexists.
Defined.

Lemma ValidateParsed_valid_iff_witness :
  In (Arg_Name (mkArg "src" true))
    (ParsedArgs_Positional (parsedWith ["src"] {["--out" := "a"]})).
Proof.
  assert (Hvalid : Valid (ValidateParsed copyCommand
                            (parsedWith ["src"] {["--out" := "a"]})) = true)
    by (vm_compute; reflexivity).
  apply (proj1 (proj1 (ValidateParsed_valid_iff copyCommand
                         (parsedWith ["src"] {["--out" := "a"]})) Hvalid)
           (mkArg "src" true)).
  - simpl. tauto.
  - reflexivity.
Defined.

Lemma DeepCommands_declaration_order_witness :
  exists root,
    BuildFromConfigMap (H := plainPaths) nestedConfig defaults = Ok root
    /\ map Command_Name (DeepCommands root false) = ["c"; "g"].
Proof.
  eexists. split; [vm_compute; reflexivity|].
  apply (DeepCommands_declaration_order (H := plainPaths) nestedConfig defaults).
  vm_compute. reflexivity.
Defined.

Lemma built_tree_identity_witness :
  exists root,
    BuildFromConfigMap (H := plainPaths) nestedConfig defaults = Ok root
    /\ Command_Parents root = []
    /\ Command_FullName root = Command_Name root.
Proof.
  eexists. split; [vm_compute; reflexivity|].
  split; apply (built_tree_identity (H := plainPaths) nestedConfig defaults);
    vm_compute; reflexivity.
Defined.

Lemma built_tree_alias_witness :
  exists root,
    BuildFromConfigMap (H := plainPaths) aliasConfig defaults = Ok root
    /\ Command_Alias root = [].
Proof.
  eexists. split; [vm_compute; reflexivity|].
  apply (built_tree_alias (H := plainPaths) aliasConfig defaults).
  vm_compute. reflexivity.
Defined.

Lemma BuildFromConfigMap_error_shapes_witness :
  structuralError "commands[1].name is required".
Proof.
  apply (BuildFromConfigMap_error_shapes (H := plainPaths) brokenConfig defaults).
  vm_compute. reflexivity.
Defined.

Lemma visible_declarations_witness :
  In (mkFlag "--verbose" "-v" false [] false) (Command_Flags flaggedCommand)
  /\ Flag_Private (mkFlag "--verbose" "-v" false [] false) = false.
Proof.
  apply (proj1 (proj2 (proj2 (visible_declarations flaggedCommand)))).
  simpl. tauto.
Defined.

Lemma removeExcessNewlines_unchanged_witness :
  removeExcessNewlines (H := plainPaths) ("a" +:+ LF +:+ LF +:+ "b")
  = "a" +:+ LF +:+ LF +:+ "b".
Proof.
  apply (removeExcessNewlines_unchanged (H := plainPaths)). vm_compute. reflexivity.
Defined.

Lemma FormatScript_results_witness :
  Error (FormatScript (H := plainPaths) failingFormatter "echo" "none" false) = ""
  /\ Formatted (FormatScript (H := plainPaths) failingFormatter "echo" "none" false)
     = "echo".
Proof.
  pose proof (FormatScript_results (H := plainPaths) failingFormatter "echo" "none" false)
    as (_ & Hquiet & Hsame & _).
  split; [apply Hquiet; by right | by apply Hsame].
Defined.

Lemma Load_env_final_witness :
  exists st,
    Load (H := plainPaths) sampleEnv None = Ok st
    /\ SourceDir st = "code"
    /\ PartialsExtension st = "bash".
Proof.
  eexists. split; [reflexivity|].
  pose proof (Load_env_final (H := plainPaths) sampleEnv None _ eq_refl)
    as (Hplain & Hguarded & _).
  split.
  - apply (Hplain "BASHLY_SOURCE_DIR" SourceDir "code"); [simpl; tauto | reflexivity].
  - apply (Hguarded "BASHLY_PARTIALS_EXTENSION" PartialsExtension "bash");
      [simpl; tauto | reflexivity | discriminate].
Defined.

Lemma Load_precedence_witness :
  exists st,
    Load (H := plainPaths) sampleEnv (Some (Ok sampleSettingsFile)) = Ok st
    /\ CommandsDir st = "prod_commands".
Proof.
  eexists. split; [reflexivity|].
  by destruct (Load_precedence (H := plainPaths) sampleEnv sampleSettingsFile _ eq_refl)
    as [-> _].
Defined.

Lemma Load_guarded_nonempty_witness :
  exists st,
    Load (H := plainPaths) sampleEnv (Some (Ok sampleSettingsFile)) = Ok st
    /\ Formatter st <> "".
Proof.
  eexists. split; [reflexivity|].
  apply (proj1 (Load_guarded_nonempty (H := plainPaths) sampleEnv
                  (Some (Ok sampleSettingsFile)) _ eq_refl)
           "BASHLY_FORMATTER" Formatter).
  simpl. tauto.
Defined.

End samples_more.
